(** * get-llms-txt: a shallow embedding of [src/index.ts]

    The generator turns a tree of Markdown / MDX sources into one plain
    Markdown file per document plus an [llms.txt] index.  This file embeds
    the functions of [src/index.ts] as Rocq functions and states the
    properties of the specification about them.

    Layout: the JavaScript primitives the source relies on (strings, the
    regular expressions it writes, Node's [path] module, a file-system
    store), then the source functions in the order of [index.ts], then the
    lemmas. *)

From Stdlib Require Import String Ascii.
From stdpp Require Import base option list gmap sets.

Set Default Proof Using "Type".
Local Open Scope string_scope.
Local Open Scope list_scope.
Local Open Scope N_scope.

(* ===================================================================== *)
(** * JavaScript strings *)
(* ===================================================================== *)

(** A JavaScript string is a sequence of UTF-16 code units; a code unit is
    modelled by its number.  Literals are written as Rocq strings and
    injected with [of_string] (one code unit per character, so the literals
    of this file are the ASCII ones of the source). *)
Abbreviation str := (list N).

Definition of_string (s : string) : str :=
  map N_of_ascii (list_ascii_of_string s).
Coercion of_string : string >-> list.

Definition LF : N := 10.
Definition SLASH : N := 47.
Definition DOT : N := 46.
Definition HASH : N := 35.
Definition COMMA : N := 44.
Definition SQ : N := 39.
Definition DQ : N := 34.
Definition LBRACKET : N := 91.
Definition RBRACKET : N := 93.

Definition in_range (lo hi c : N) : bool := (lo <=? c) && (c <=? hi).

(** [LineTerminator] of ECMAScript: LF, CR, LS, PS. *)
Definition isLineTerminator (c : N) : bool :=
  (c =? 10) || (c =? 13) || (c =? 8232) || (c =? 8233).

(** [\s] and the characters removed by [trim]: WhiteSpace and
    LineTerminator of ECMAScript. *)
Definition isSpace (c : N) : bool :=
  in_range 9 13 c || (c =? 32) || (c =? 160) || (c =? 5760)
  || in_range 8192 8202 c || (c =? 8232) || (c =? 8233) || (c =? 8239)
  || (c =? 8287) || (c =? 12288) || (c =? 65279).

(** [\w] is [[A-Za-z0-9_]]. *)
Definition isWord (c : N) : bool :=
  in_range 65 90 c || in_range 97 122 c || in_range 48 57 c || (c =? 95).

Definition isUpperAZ (c : N) : bool := in_range 65 90 c.

(** [.] without the [s] flag: anything but a line terminator. *)
Definition isDot (c : N) : bool := negb (isLineTerminator c).

Definition isQuote (c : N) : bool := (c =? SQ) || (c =? DQ).

Definition anyChar (_ : N) : bool := true.

Definition isChar (c : N) : N -> bool := N.eqb c.
Definition isNot (p : N -> bool) : N -> bool := fun c => negb (p c).

(** [c.toUpperCase()] for a code unit matched by [\w]: only the letters
    a-z change. *)
Definition upperWordChar (c : N) : N :=
  if in_range 97 122 c then c - 32 else c.

Fixpoint dropWhile (p : N -> bool) (s : str) : str :=
  match s with
  | c :: s' => if p c then dropWhile p s' else s
  | [] => []
  end.

Fixpoint takeWhile (p : N -> bool) (s : str) : str :=
  match s with
  | c :: s' => if p c then c :: takeWhile p s' else []
  | [] => []
  end.

(** [String.prototype.trim]. *)
Definition trim (s : str) : str :=
  rev (dropWhile isSpace (rev (dropWhile isSpace s))).

(** [s.split(sep)] for a one-character separator; the empty string splits
    into one empty piece. *)
Fixpoint split (sep : N) (s : str) : list str :=
  match s with
  | [] => [[]]
  | c :: s' =>
      if c =? sep then [] :: split sep s'
      else match split sep s' with
           | h :: t => (c :: h) :: t
           | [] => [[c]]
           end
  end.

(** [parts.join(sep)]. *)
Fixpoint join (sep : str) (parts : list str) : str :=
  match parts with
  | [] => []
  | [p] => p
  | p :: ps => p ++ sep ++ join sep ps
  end.

(** [s.slice(b, e)] with JavaScript's treatment of negative and
    out-of-range indices. *)
Definition slice (s : str) (b e : Z) : str :=
  let len := Z.of_nat (length s) in
  let clamp (i : Z) := if (i <? 0)%Z then Z.max (len + i) 0 else Z.min i len in
  let from := clamp b in
  let to := clamp e in
  take (Z.to_nat (to - from)) (drop (Z.to_nat from) s).

(** [s.substring(0, n)]. *)
Definition substring0 (n : nat) (s : str) : str := take n s.

Definition str_eqb (a b : str) : bool := bool_decide (a = b).

Definition startsWith (p s : str) : bool := str_eqb (take (length p) s) p.
Definition endsWith (p s : str) : bool :=
  str_eqb (drop (length s - length p) s) p && (length p <=? length s)%nat.

(** Truthiness of a string: non-empty. *)
Definition truthy (s : str) : bool :=
  match s with [] => false | _ => true end.

(* ===================================================================== *)
(** * The regular expressions of the source

    A backtracking matcher with the priorities of ECMAScript: alternatives
    left to right, greedy quantifiers longest first, lazy ones shortest
    first.  Every quantifier of [index.ts] is applied to a single character
    class, so [Rep] takes a class. *)
(* ===================================================================== *)

Inductive regex : Type :=
| Chr (p : N -> bool)                       (* a class, a literal, [.] *)
| Seq (r1 r2 : regex)
| Alt (r1 r2 : regex)
| Rep (lo : nat) (hi : option nat) (greedy : bool) (p : N -> bool)
| Grp (i : nat) (r : regex)                 (* capturing group number i *)
| Bol                                       (* ^ *)
| Eol                                       (* $ *)
| WordB                                     (* \b *)
| Eps.

(** Matcher state: the text before the position (reversed), the text from
    the position on, the captures so far. *)
Record mstate : Type := MState {
  before : str;
  after : str;
  caps : list (nat * str)
}.

Definition prevChar (st : mstate) : option N := head (before st).
Definition nextChar (st : mstate) : option N := head (after st).

Definition optb (p : N -> bool) (o : option N) : bool :=
  match o with Some c => p c | None => false end.

Fixpoint rep_class (p : N -> bool) (lo : nat) (hi : option nat) (greedy : bool)
    (cs : list (nat * str)) (bef aft : str)
    (k : mstate -> option mstate) {struct aft} : option mstate :=
  match hi with
  | Some O => k (MState bef aft cs)
  | _ =>
      match lo with
      | S lo' =>
          match aft with
          | c :: aft' =>
              if p c then rep_class p lo' (pred <$> hi) greedy cs (c :: bef) aft' k
              else None
          | [] => None
          end
      | O =>
          if greedy then
            match
              match aft with
              | c :: aft' =>
                  if p c then rep_class p O (pred <$> hi) greedy cs (c :: bef) aft' k
                  else None
              | [] => None
              end
            with
            | Some r => Some r
            | None => k (MState bef aft cs)
            end
          else
            match k (MState bef aft cs) with
            | Some r => Some r
            | None =>
                match aft with
                | c :: aft' =>
                    if p c then rep_class p O (pred <$> hi) greedy cs (c :: bef) aft' k
                    else None
                | [] => None
                end
            end
      end
  end.

(** [m ml r st k]: match [r] at [st], then continue with [k]; [ml] is the
    [m] (multiline) flag. *)
Fixpoint m (ml : bool) (r : regex) (st : mstate)
    (k : mstate -> option mstate) : option mstate :=
  match r with
  | Chr p =>
      match after st with
      | c :: aft' => if p c then k (MState (c :: before st) aft' (caps st)) else None
      | [] => None
      end
  | Seq r1 r2 => m ml r1 st (fun st1 => m ml r2 st1 k)
  | Alt r1 r2 =>
      match m ml r1 st k with
      | Some res => Some res
      | None => m ml r2 st k
      end
  | Rep lo hi greedy p => rep_class p lo hi greedy (caps st) (before st) (after st) k
  | Grp i r1 =>
      m ml r1 st (fun st1 =>
        let text := take (length (after st) - length (after st1))%nat (after st) in
        k (MState (before st1) (after st1) ((i, text) :: caps st1)))
  | Bol =>
      match prevChar st with
      | None => k st
      | Some c => if ml && isLineTerminator c then k st else None
      end
  | Eol =>
      match nextChar st with
      | None => k st
      | Some c => if ml && isLineTerminator c then k st else None
      end
  | WordB =>
      if xorb (optb isWord (prevChar st)) (optb isWord (nextChar st))
      then k st else None
  | Eps => k st
  end.

(** The result of a successful match, as [RegExp.prototype.exec] reports
    it: what precedes the match, the match, what follows, the groups. *)
Record rmatch : Type := RMatch {
  m_pre : str;
  m_text : str;
  m_post : str;
  m_caps : list (nat * str)
}.

(** [mr[i]]: the text of group [i], [None] for [undefined]. *)
Fixpoint lookup_cap (i : nat) (cs : list (nat * str)) : option str :=
  match cs with
  | [] => None
  | (j, t) :: cs' => if (i =? j)%nat then Some t else lookup_cap i cs'
  end.
Definition cap (i : nat) (mr : rmatch) : option str := lookup_cap i (m_caps mr).

Definition match_at (ml : bool) (r : regex) (bef aft : str) : option rmatch :=
  match m ml r (MState bef aft []) Some with
  | Some st =>
      Some (RMatch (rev bef)
                   (take (length aft - length (after st))%nat aft)
                   (after st) (caps st))
  | None => None
  end.

(** [s.match(r)] for a regex without the [g] flag: the leftmost position
    at which the matcher succeeds. *)
Fixpoint search_from (ml : bool) (r : regex) (bef aft : str) : option rmatch :=
  match match_at ml r bef aft with
  | Some mr => Some mr
  | None =>
      match aft with
      | c :: aft' => search_from ml r (c :: bef) aft'
      | [] => None
      end
  end.
Definition search (ml : bool) (r : regex) (s : str) : option rmatch :=
  search_from ml r [] s.

(** [s.replace(r, f)] without the [g] flag. *)
Definition replace1 (ml : bool) (r : regex) (f : rmatch -> str) (s : str) : str :=
  match search ml r s with
  | Some mr => m_pre mr ++ f mr ++ m_post mr
  | None => s
  end.

(** [s.replace(r, f)] with the [g] flag.  [skip] counts the code units of
    the last match not yet passed; an empty match is followed by a copy of
    the next code unit, as [lastIndex] is advanced by one. *)
Fixpoint replace_all_from (ml : bool) (r : regex) (f : rmatch -> str)
    (bef aft : str) (skip : nat) {struct aft} : str :=
  match skip with
  | S n =>
      match aft with
      | c :: aft' => replace_all_from ml r f (c :: bef) aft' n
      | [] => []
      end
  | O =>
      match match_at ml r bef aft with
      | Some mr =>
          f mr ++
          match length (m_text mr), aft with
          | _, [] => []
          | O, c :: aft' => c :: replace_all_from ml r f (c :: bef) aft' O
          | S n, c :: aft' => replace_all_from ml r f (c :: bef) aft' n
          end
      | None =>
          match aft with
          | c :: aft' => c :: replace_all_from ml r f (c :: bef) aft' O
          | [] => []
          end
      end
  end.
Definition replaceAll (ml : bool) (r : regex) (f : rmatch -> str) (s : str) : str :=
  replace_all_from ml r f [] s O.

(** Regex building blocks. *)
Fixpoint Lit (s : str) : regex :=
  match s with
  | [] => Eps
  | [c] => Chr (isChar c)
  | c :: s' => Seq (Chr (isChar c)) (Lit s')
  end.
Fixpoint Seqs (rs : list regex) : regex :=
  match rs with
  | [] => Eps
  | [r] => r
  | r :: rs' => Seq r (Seqs rs')
  end.
Definition Star (p : N -> bool) : regex := Rep 0 None true p.
Definition StarLazy (p : N -> bool) : regex := Rep 0 None false p.
Definition Plus (p : N -> bool) : regex := Rep 1 None true p.
Definition Opt (p : N -> bool) : regex := Rep 0 (Some 1%nat) true p.


(* ===================================================================== *)
(** * Node's [path] module (POSIX flavour)

    [index.ts] calls [path.basename], [path.dirname], [path.extname],
    [path.join] and [path.resolve]; [path.sep] is ["/"].  The functions
    below follow the algorithms of Node's [lib/path.js]. *)
(* ===================================================================== *)

Module path.

Definition sep : N := SLASH.
Definition isSep (c : N) : bool := c =? SLASH.
Definition notSep (c : N) : bool := negb (isSep c).

(** The separators at the end of the path. *)
Definition trailing (p : str) : str := takeWhile isSep (rev p).

(** The right-most component, trailing separators ignored. *)
Definition lastComponent (p : str) : str :=
  rev (takeWhile notSep (dropWhile isSep (rev p))).

(** [path.basename(p)]. *)
Definition basename (p : str) : str := lastComponent p.

(** [path.basename(p, suffix)].  The suffix is removed from the last
    component when that component is longer than it; Node returns the
    empty string when the whole path is the suffix, and, when the
    component is a proper tail of the suffix, returns the component
    together with the separators that follow it. *)
Definition basename_ext (p suffix : str) : str :=
  if (length suffix =? 0)%nat || (length p <? length suffix)%nat then basename p
  else if str_eqb suffix p then []
  else
    let comp := lastComponent p in
    if endsWith suffix comp then
      if str_eqb comp suffix then comp
      else take (length comp - length suffix) comp
    else if endsWith comp suffix then comp ++ trailing p
    else comp.

(** [path.dirname(p)]: the scan runs from the end down to index 1. *)
Definition dirname (p : str) : str :=
  match p with
  | [] => [DOT]
  | c0 :: t =>
      let hasRoot := isSep c0 in
      let r2 := dropWhile notSep (dropWhile isSep (rev t)) in
      match r2 with
      | [] => if hasRoot then [SLASH] else [DOT]
      | _ :: _ =>
          let e := length r2 in
          if hasRoot && (e =? 1)%nat then [SLASH; SLASH] else take e p
      end
  end.

(** Index of the last [.] of a component, if any. *)
Fixpoint lastDot (comp : str) (i : nat) (found : option nat) : option nat :=
  match comp with
  | [] => found
  | c :: comp' => lastDot comp' (S i) (if c =? DOT then Some i else found)
  end.

(** [path.extname(p)]: from the last [.] of the last component, unless
    that dot is its first character or the component is [..]. *)
Definition extname (p : str) : str :=
  let comp := lastComponent p in
  match lastDot comp 0 None with
  | None => []
  | Some O => []
  | Some d => if str_eqb comp [DOT; DOT] then [] else drop d comp
  end.

(** [normalizeString]: resolve [.] and [..] segments; the stack of kept
    segments is held in reverse. *)
Fixpoint normalizeSegments (allowAboveRoot : bool) (segs stack : list str)
    : list str :=
  match segs with
  | [] => rev stack
  | sg :: segs' =>
      if str_eqb sg [] || str_eqb sg [DOT] then
        normalizeSegments allowAboveRoot segs' stack
      else if str_eqb sg [DOT; DOT] then
        match stack with
        | top :: rest =>
            if str_eqb top [DOT; DOT] then
              normalizeSegments allowAboveRoot segs'
                (if allowAboveRoot then sg :: stack else stack)
            else normalizeSegments allowAboveRoot segs' rest
        | [] =>
            normalizeSegments allowAboveRoot segs'
              (if allowAboveRoot then [sg] else [])
        end
      else normalizeSegments allowAboveRoot segs' (sg :: stack)
  end.

Definition normalizeString (p : str) (allowAboveRoot : bool) : str :=
  join [SLASH] (normalizeSegments allowAboveRoot (split SLASH p) []).

Definition isAbsolute (p : str) : bool := optb isSep (head p).

(** [path.normalize(p)]. *)
Definition normalize (p : str) : str :=
  match p with
  | [] => [DOT]
  | _ =>
      let trailingSeparator := optb isSep (head (rev p)) in
      let q := normalizeString p (negb (isAbsolute p)) in
      match q with
      | [] =>
          if isAbsolute p then [SLASH]
          else if trailingSeparator then [DOT; SLASH] else [DOT]
      | _ =>
          let q' := if trailingSeparator then q ++ [SLASH] else q in
          if isAbsolute p then SLASH :: q' else q'
      end
  end.

(** [path.join(...args)]. *)
Definition join (args : list str) : str :=
  match filter (fun a => a ≠ []) args with
  | [] => [DOT]
  | parts => normalize (join [SLASH] parts)
  end.

(** [path.resolve(...args)]: prepend arguments from the right until the
    path is absolute, falling back on the working directory [cwd] of the
    process, then normalize. *)
Fixpoint resolveLoop (args_rev : list str) (resolvedPath : str) : str * bool :=
  match args_rev with
  | [] => (resolvedPath, false)
  | a :: rest =>
      match a with
      | [] => resolveLoop rest resolvedPath
      | _ =>
          let rp := a ++ [SLASH] ++ resolvedPath in
          if isAbsolute a then (rp, true) else resolveLoop rest rp
      end
  end.

Definition resolve (cwd : str) (args : list str) : str :=
  let '(rp, resolvedAbsolute) := resolveLoop (rev args ++ [cwd]) [] in
  let q := normalizeString rp (negb resolvedAbsolute) in
  if resolvedAbsolute then SLASH :: q
  else match q with [] => [DOT] | _ => q end.

End path.

(* ===================================================================== *)
(** * [index.ts]: data *)
(* ===================================================================== *)

(** A metadata value at run time: a string, or the array of strings built
    for a bracketed list. *)
Inductive value : Type :=
| VStr (s : str)
| VArr (l : list str).

(** [FileMetadata]: an object used as a map from keys to values. *)
Abbreviation FileMetadata := (gmap str value).

Definition k_title : str := "title".
Definition k_description : str := "description".
Definition k_slug : str := "slug".
Definition k_tags : str := "tags".

(** JavaScript truthiness of a property read: [undefined] and the empty
    string are falsy, arrays are truthy. *)
Definition truthyValue (o : option value) : bool :=
  match o with
  | Some (VStr s) => truthy s
  | Some (VArr _) => true
  | None => false
  end.

Record ProcessedContent : Type := {
  metadata : FileMetadata;
  content : str
}.

Record ProcessedFile : Type := {
  relativePath : str;
  url : str;
  title : value;
  description : option value;
  category : str
}.

(* ===================================================================== *)
(** * [index.ts]: the regular expressions, as written in the source

    In the comments [\x22] stands for the double quote character. *)
(* ===================================================================== *)

(** [/KEY:\s*['\x22]([^'\x22]+)['\x22]/] for KEY one of title, description, slug. *)
Definition re_field (key : str) : regex :=
  Seqs [Lit key; Chr (isChar 58); Star isSpace; Chr isQuote;
        Grp 1 (Plus (isNot isQuote)); Chr isQuote].

(** [/tags:\s*\[([^\]]+)\]/] *)
Definition re_tags : regex :=
  Seqs [Lit "tags:"; Star isSpace; Chr (isChar LBRACKET);
        Grp 1 (Plus (isNot (isChar RBRACKET))); Chr (isChar RBRACKET)].

(** [/['\x22]/g] *)
Definition re_quote : regex := Chr isQuote.

(** [/^---\s*\n([\s\S]*?)\n---\s*\n/] *)
Definition re_frontmatter : regex :=
  Seqs [Bol; Lit "---"; Star isSpace; Chr (isChar LF);
        Grp 1 (StarLazy anyChar);
        Chr (isChar LF); Lit "---"; Star isSpace; Chr (isChar LF)].

(** [/^(\w+):\s*(.+)$/] *)
Definition re_line : regex :=
  Seqs [Bol; Grp 1 (Plus isWord); Chr (isChar 58); Star isSpace;
        Grp 2 (Plus isDot); Eol].

(** [/^['\x22]|['\x22]$/g] *)
Definition re_outer_quote : regex :=
  Alt (Seq Bol (Chr isQuote)) (Seq (Chr isQuote) Eol).

(** [/^export\s+const\s+metadata\s*=\s*({[\s\S]*?});?\s*\n/m]; the copy
    used for the removal ends in [\n?]. *)
Definition re_export (last : regex) : regex :=
  Seqs [Bol; Lit "export"; Plus isSpace; Lit "const"; Plus isSpace;
        Lit "metadata"; Star isSpace; Chr (isChar 61); Star isSpace;
        Grp 1 (Seqs [Chr (isChar 123); StarLazy anyChar; Chr (isChar 125)]);
        Opt (isChar 59); Star isSpace; last].

(** [/<[A-Z][\w]*[^>]*>[\s\S]*?<\/[A-Z][\w]*>/g] *)
Definition re_jsx_pair : regex :=
  Seqs [Chr (isChar 60); Chr isUpperAZ; Star isWord; Star (isNot (isChar 62));
        Chr (isChar 62); StarLazy anyChar; Lit "</"; Chr isUpperAZ;
        Star isWord; Chr (isChar 62)].

(** [/<[A-Z][\w]*[^>]*\/>/g] *)
Definition re_jsx_self : regex :=
  Seqs [Chr (isChar 60); Chr isUpperAZ; Star isWord; Star (isNot (isChar 62));
        Lit "/>"].

(** [/import\s+.*?from\s+['\x22][^'\x22]+['\x22];?\s*\n?/g] *)
Definition re_import : regex :=
  Seqs [Lit "import"; Plus isSpace; StarLazy isDot; Lit "from"; Plus isSpace;
        Chr isQuote; Plus (isNot isQuote); Chr isQuote; Opt (isChar 59);
        Star isSpace; Opt (isChar LF)].

(** [/^#\s+(.+)$/m] *)
Definition re_h1 : regex :=
  Seqs [Bol; Chr (isChar HASH); Plus isSpace; Grp 1 (Plus isDot); Eol].

(** [/[-_]/g] and [/\b\w/g] *)
Definition re_dash : regex := Chr (fun c => (c =? 45) || (c =? 95)).
Definition re_word_start : regex := Seq WordB (Chr isWord).

(** [/^([^\n#].{50,200})/m] *)
Definition re_paragraph : regex :=
  Seq Bol (Grp 1 (Seq (Chr (fun c => negb ((c =? LF) || (c =? HASH))))
                      (Rep 50 (Some 200%nat) true isDot))).

(** [/\n/g] *)
Definition re_newline : regex := Chr (isChar LF).

(** [/\.(en|ru)\.(mdx|md)$/] and [/\.(mdx|md)$/] *)
Definition re_locale : regex :=
  Seqs [Chr (isChar DOT); Grp 1 (Alt (Lit "en") (Lit "ru")); Chr (isChar DOT);
        Grp 2 (Alt (Lit "mdx") (Lit "md")); Eol].
Definition re_md_ext : regex :=
  Seqs [Chr (isChar DOT); Grp 1 (Alt (Lit "mdx") (Lit "md")); Eol].

Definition capOr (i : nat) (mr : rmatch) : str := default [] (cap i mr).
Definition erase (_ : rmatch) : str := [].

(* ===================================================================== *)
(** * [index.ts]: the pure functions *)
(* ===================================================================== *)

(** [s.split(',').map(t => t.trim().replace(/['\x22]/g, '')).filter(t => t.length > 0)] *)
Definition listItems (s : str) : list str :=
  filter (fun t => (0 <? length t)%nat = true)
         (map (fun t => replaceAll false re_quote erase (trim t)) (split COMMA s)).

(** One of the three string fields of [extractMetadataValues]. *)
Definition setField (key : str) (metadataStr : str) (md : FileMetadata)
    : FileMetadata :=
  match search false (re_field key) metadataStr with
  | Some mr =>
      match cap 1 mr with
      | Some t => <[key := VStr t]> md
      | None => md
      end
  | None => md
  end.

(** [extractMetadataValues], lines 37-72. *)
Definition extractMetadataValues (metadataStr : str) : FileMetadata :=
  let md := setField k_title metadataStr ∅ in
  let md := setField k_description metadataStr md in
  let md := setField k_slug metadataStr md in
  match search false re_tags metadataStr with
  | Some mr =>
      match cap 1 mr with
      | Some tagsStr =>
          if truthy tagsStr then
            let tags := listItems tagsStr in
            if (0 <? length tags)%nat then <[k_tags := VArr tags]> md else md
          else md
      | None => md
      end
  | None => md
  end.

(** The capture of the block header, when the header is present and its
    capture is non-empty ([frontmatterMatch && frontmatterMatch[1]]). *)
Definition frontmatterOf (text : str) : option str :=
  match search false re_frontmatter text with
  | Some mr =>
      match cap 1 mr with
      | Some fm => if truthy fm then Some fm else None
      | None => None
      end
  | None => None
  end.

(** [match[2]?.trim().replace(/^['\x22]|['\x22]$/g, '')] *)
Definition unquote (v : str) : str :=
  replaceAll false re_outer_quote erase (trim v).

(** The value stored by [processMDXFile] for a line: arrays are split. *)
Definition mdxValue (v : str) : value :=
  let s := unquote v in
  if startsWith [LBRACKET] s && endsWith [RBRACKET] s
  then VArr (listItems (slice s 1 (-1)))
  else VStr s.

(** The value stored by [processMDFile] for a line: always the string. *)
Definition mdValue (v : str) : value := VStr (unquote v).

(** [metadata[key] = value] on a plain object: the key [__proto__] goes to
    the prototype setter and stores no property. *)
Definition setProperty (key : str) (v : value) (md : FileMetadata)
    : FileMetadata :=
  if str_eqb key "__proto__" then md else <[key := v]> md.

(** The body of the [forEach] over the lines of the block header. *)
Definition parseLine (mk : str -> value) (md : FileMetadata) (line : str)
    : FileMetadata :=
  match search false re_line line with
  | Some mr =>
      match cap 1 mr, cap 2 mr with
      | Some k, Some v =>
          let key := trim k in
          if truthy key then setProperty key (mk v) md else md
      | _, _ => md
      end
  | None => md
  end.

Definition parseFrontmatter (mk : str -> value) (frontmatter : str)
    : FileMetadata :=
  foldl (parseLine mk) ∅ (split LF frontmatter).

(** The three removals of JSX components and imports, lines 129-132. *)
Definition stripMarkup (s : str) : str :=
  replaceAll false re_import erase
    (replaceAll false re_jsx_self erase
       (replaceAll false re_jsx_pair erase s)).

(** [processMDXFile] after the file has been read, lines 82-134. *)
Definition processMDXContent (text : str) : ProcessedContent :=
  let '(md, markdownContent) :=
    match frontmatterOf text with
    | Some frontmatter =>
        (parseFrontmatter mdxValue frontmatter,
         replace1 false re_frontmatter erase text)
    | None =>
        match search true (re_export (Chr (isChar LF))) text with
        | Some mr =>
            match cap 1 mr with
            | Some metadataStr =>
                if truthy metadataStr then
                  (extractMetadataValues metadataStr,
                   replace1 true (re_export (Opt (isChar LF))) erase text)
                else (∅, text)
            | None => (∅, text)
            end
        | None => (∅, text)
        end
    end in
  {| metadata := md; content := trim (stripMarkup markdownContent) |}.

(** [processMDFile] after the file has been read, lines 144-165. *)
Definition processMDContent (text : str) : ProcessedContent :=
  match frontmatterOf text with
  | Some frontmatter =>
      {| metadata := parseFrontmatter mdValue frontmatter;
         content := trim (replace1 false re_frontmatter erase text) |}
  | None => {| metadata := ∅; content := trim text |}
  end.

(** The filename fallback of [extractTitle], lines 187-188. *)
Definition titleFromPath (filePath : str) : str :=
  let basename := path.basename_ext filePath (path.extname filePath) in
  replaceAll false re_word_start (fun mr => map upperWordChar (m_text mr))
    (replaceAll false re_dash (fun _ => [32]) basename).

(** [extractTitle], lines 171-189. *)
Definition extractTitle (filePath : str) (md : FileMetadata) (body : str)
    : value :=
  if truthyValue (md !! k_title) then default (VStr []) (md !! k_title)
  else
    match search true re_h1 body with
    | Some h1Match =>
        match cap 1 h1Match with
        | Some t => if truthy (trim t) then VStr (trim t) else VStr []
        | None => VStr []
        end
    | None => VStr (titleFromPath filePath)
    end.

(** [extractDescription], lines 194-209; [None] is [undefined]. *)
Definition extractDescription (md : FileMetadata) (body : str) : option value :=
  if truthyValue (md !! k_description) then md !! k_description
  else
    match search true re_paragraph body with
    | Some paragraphMatch =>
        match cap 1 paragraphMatch with
        | Some t =>
            Some (VStr (substring0 200
                          (replaceAll false re_newline (fun _ => [32]) (trim t))))
        | None => None
        end
    | None => None
    end.

(** [parts[0] || 'other'] with [parts = file.split(path.sep)], lines 243-244. *)
Definition categoryOf (file : str) : str :=
  match head (split path.sep file) with
  | Some p0 => if truthy p0 then p0 else "other"
  | None => "other"
  end.

(** The locale and extension rewrite of lines 248-250. *)
Definition rewriteExt (file : str) : str :=
  replace1 false re_md_ext (fun _ => ".md")
    (replace1 false re_locale (fun mr => DOT :: capOr 2 mr) file).

(** The handling of index files, lines 252-260: an [index] or [_index]
    file takes the name of its directory. *)
Definition indexAlias (urlPath : str) : str :=
  let dir := path.dirname urlPath in
  let basename := path.basename_ext urlPath ".md" in
  if str_eqb basename "index" || str_eqb basename "_index" then
    let dirName := path.basename dir in
    if truthy dirName then path.join [dir; dirName ++ ".md"] else urlPath
  else urlPath.

(** [urlPath] as computed by lines 248-260. *)
Definition urlPathOf (file : str) : str := indexAlias (rewriteExt file).

(* ===================================================================== *)
(** * The file system and the effectful functions

    [fs] calls are modelled on a store of files and directories keyed by
    path; every call is recorded in a log, and a failing call throws. *)
(* ===================================================================== *)

Inductive event : Type :=
| EvExists (p : str)
| EvMkdir (p : str)
| EvRead (p : str)
| EvWrite (p : str) (data : str)
| EvGlob (dir : str).

Record world : Type := World {
  files : gmap str str;
  dirs : gset str;
  cwd : str;                      (* process.cwd() *)
  log : list event
}.

Inductive result (A : Type) : Type :=
| Ok (a : A)
| Throw (msg : str).
Arguments Ok {A} a.
Arguments Throw {A} msg.

Definition IO (A : Type) : Type := world -> result A * world.

Definition io_ret {A} (a : A) : IO A := fun w => (Ok a, w).
Definition io_bind {A B} (c : IO A) (f : A -> IO B) : IO B :=
  fun w =>
    match c w with
    | (Ok a, w') => f a w'
    | (Throw e, w') => (Throw e, w')
    end.
Definition throw {A} (msg : str) : IO A := fun w => (Throw msg, w).

#[global] Instance IO_MRet : MRet IO := @io_ret.
#[global] Instance IO_MBind : MBind IO := fun A B f c => io_bind c f.

Definition record (e : event) (w : world) : world :=
  World (files w) (dirs w) (cwd w) (log w ++ [e]).

Definition existsPath (w : world) (p : str) : bool :=
  bool_decide (p ∈ dirs w) || bool_decide (is_Some (files w !! p)).

(** [fs.existsSync(p)] *)
Definition existsSync (p : str) : IO bool :=
  fun w => (Ok (existsPath w p), record (EvExists p) w).

(** [p] and the directories above it. *)
Fixpoint prefixes (root : str) (acc : list str) (segs : list str) : list str :=
  match segs with
  | [] => []
  | sg :: segs' =>
      let here := root ++ join [SLASH] (acc ++ [sg]) in
      here :: prefixes root (acc ++ [sg]) segs'
  end.
Definition ancestors (p : str) : list str :=
  prefixes (if path.isAbsolute p then [SLASH] else [])
           [] (filter (fun sg => sg ≠ []) (split SLASH p)).

(** [fs.mkdirSync(p, {recursive: true})]: fails when a file is in the way. *)
Definition mkdirSync (p : str) : IO unit :=
  fun w =>
    let w' := record (EvMkdir p) w in
    if forallb (fun a => negb (bool_decide (is_Some (files w !! a)))) (ancestors p)
    then (Ok tt, World (files w') (dirs w' ∪ list_to_set (ancestors p)) (cwd w') (log w'))
    else (Throw ("EEXIST: file already exists, mkdir " ++ p), w').

(** [fs.readFileSync(p, 'utf-8')]: reading a directory fails with
    [EISDIR], reading a missing path with [ENOENT]. *)
Definition readFileSync (p : str) : IO str :=
  fun w =>
    let w' := record (EvRead p) w in
    if bool_decide (p ∈ dirs w)
    then (Throw "EISDIR: illegal operation on a directory, read", w')
    else
      match files w !! p with
      | Some text => (Ok text, w')
      | None => (Throw ("ENOENT: no such file or directory, open " ++ p), w')
      end.

(** [fs.writeFileSync(p, data, 'utf-8')]: the parent directory must exist
    and [p] must not be a directory.  The store keeps the string handed to
    the call; the bytes on disk are its UTF-8 encoding, in which a
    surrogate code unit without its partner is written as U+FFFD. *)
Definition writeFileSync (p data : str) : IO unit :=
  fun w =>
    let w' := record (EvWrite p data) w in
    if bool_decide (path.dirname p ∈ dirs w) && negb (bool_decide (p ∈ dirs w))
    then (Ok tt, World (<[p := data]> (files w')) (dirs w') (cwd w') (log w'))
    else (Throw ("ENOENT: no such file or directory, open " ++ p), w').

(** [processMDXFile] and [processMDFile]: read, then process. *)
Definition processMDXFile (filePath : str) : IO ProcessedContent :=
  text ← readFileSync filePath; mret (processMDXContent text).
Definition processMDFile (filePath : str) : IO ProcessedContent :=
  text ← readFileSync filePath; mret (processMDContent text).

(** A [Map] keeps its keys in insertion order. *)
Definition JsMap (V : Type) : Type := list (str * V).

Fixpoint map_get {V} (k : str) (mp : JsMap V) : option V :=
  match mp with
  | [] => None
  | (k', v) :: mp' => if str_eqb k k' then Some v else map_get k mp'
  end.
Definition map_has {V} (k : str) (mp : JsMap V) : bool :=
  match map_get k mp with Some _ => true | None => false end.
Fixpoint map_set {V} (k : str) (v : V) (mp : JsMap V) : JsMap V :=
  match mp with
  | [] => [(k, v)]
  | (k', v') :: mp' =>
      if str_eqb k k' then (k', v) :: mp' else (k', v') :: map_set k v mp'
  end.

(** The grouping loop of [generateLLMsTxt], lines 303-312; [push] changes
    the array held by the map. *)
Definition groupStep (filesByCategory : JsMap (list ProcessedFile))
    (file : ProcessedFile) : JsMap (list ProcessedFile) :=
  let m1 :=
    if negb (map_has (category file) filesByCategory)
    then map_set (category file) [] filesByCategory
    else filesByCategory in
  match map_get (category file) m1 with
  | Some categoryFiles => map_set (category file) (categoryFiles ++ [file]) m1
  | None => m1
  end.
Definition groupByCategory (fs : list ProcessedFile)
    : JsMap (list ProcessedFile) :=
  foldl groupStep [] fs.

(** String conversion of a value in a template literal. *)
Definition valueToString (v : value) : str :=
  match v with
  | VStr s => s
  | VArr l => join [COMMA] l
  end.

Record GenerateOptions : Type := {
  contentDir : str;
  outputDir : str;
  baseUrl : option str;
  projectName : option str;
  projectDescription : option str
}.

(** [o || d] for an optional string option. *)
Definition orDefault (o : option str) (d : str) : str :=
  match o with
  | Some s => if truthy s then s else d
  | None => d
  end.

Section Generator.

(** What the host supplies: the [glob] package (the relative paths under
    a directory matching [**/*.{mdx,md}] outside the ignored folders),
    the sort by [localeCompare] of a copy of an array (it throws when a
    title is not a string), and [toUpperCase]. *)
Variable glob : world -> str -> list str.
Variable sortByTitle : list ProcessedFile -> result (list ProcessedFile).
Variable toUpperCase : str -> str.

(** The body of the loop of [discoverFiles], lines 227-279. *)
Definition discoverOne (contentDir outputDir file : str)
    : IO ProcessedFile :=
  let filePath := path.join [contentDir; file] in
  let ext := path.extname file in
  result ← (if str_eqb ext ".mdx" then processMDXFile filePath
            else processMDFile filePath);
  let title := extractTitle filePath (metadata result) (content result) in
  let description := extractDescription (metadata result) (content result) in
  let category := categoryOf file in
  let urlPath := urlPathOf file in
  let entry :=
    {| relativePath := file; url := "/md/" ++ urlPath; title := title;
       description := description; category := category |} in
  let outputMdPath := path.join [outputDir; of_string "md"; urlPath] in
  let outputMdDir := path.dirname outputMdPath in
  e ← existsSync outputMdDir;
  _ ← (if negb e then mkdirSync outputMdDir else mret tt);
  _ ← writeFileSync outputMdPath (content result);
  mret entry.

Fixpoint discoverLoop (contentDir outputDir : str) (mdxFiles : list str)
    (acc : list ProcessedFile) : IO (list ProcessedFile) :=
  match mdxFiles with
  | [] => mret acc
  | file :: rest =>
      entry ← discoverOne contentDir outputDir file;
      discoverLoop contentDir outputDir rest (acc ++ [entry])
  end.

(** [discoverFiles], lines 214-282. *)
Definition discoverFiles (contentDir outputDir : str)
    : IO (list ProcessedFile) :=
  fun w =>
    let mdxFiles := glob w contentDir in
    discoverLoop contentDir outputDir mdxFiles [] (record (EvGlob contentDir) w).

(** One list line of the index, lines 333-338. *)
Definition renderFile (baseUrl : str) (file : ProcessedFile) : str :=
  "- [" ++ valueToString (title file) ++ "](" ++ baseUrl ++ url file ++ ")"
  ++ (if truthyValue (description file)
      then ": " ++ valueToString (default (VStr []) (description file))
      else [])
  ++ [LF].

(** One category section, lines 326-341. *)
Definition renderCategory (baseUrl : str)
    (entry : str * list ProcessedFile) : result str :=
  let '(category, categoryFiles) := entry in
  let categoryName := toUpperCase (take 1 category) ++ slice category 1 (Z.of_nat (length category)) in
  match sortByTitle categoryFiles with
  | Ok sortedFiles =>
      Ok ("## " ++ categoryName ++ [LF; LF]
          ++ concat (map (renderFile baseUrl) sortedFiles) ++ [LF])
  | Throw e => Throw e
  end.

Fixpoint renderCategories (baseUrl : str)
    (entries : list (str * list ProcessedFile)) (acc : str) : result str :=
  match entries with
  | [] => Ok acc
  | e :: rest =>
      match renderCategory baseUrl e with
      | Ok t => renderCategories baseUrl rest (acc ++ t)
      | Throw err => Throw err
      end
  end.

Definition header (projectName projectDescription : str) : str :=
  "# " ++ projectName ++ [LF; LF]
  ++ "> " ++ projectDescription ++ [LF; LF]
  ++ "This website contains technical content including blog posts, research articles, and application descriptions. "
  ++ "All content is available in markdown format for easy consumption by language models." ++ [LF; LF]
  ++ "## Content Structure" ++ [LF; LF]
  ++ "- **Blog Posts**: Technical tutorials and guides" ++ [LF]
  ++ "- **Research Articles**: Academic and research content" ++ [LF]
  ++ "- **Apps**: Application descriptions and documentation" ++ [LF; LF].

(** [generateLLMsTxt], lines 287-347. *)
Definition generateLLMsTxt (fs : list ProcessedFile) (outputDir : str)
    (projectName projectDescription baseUrl : option str) : IO unit :=
  let projectName := orDefault projectName "Personal Website & Blog" in
  let projectDescription :=
    orDefault projectDescription
      "A collection of blog posts, research articles, and app descriptions covering software development, algorithms, and technical tutorials." in
  let baseUrl := orDefault baseUrl "" in
  let filesByCategory := groupByCategory fs in
  match renderCategories baseUrl filesByCategory
          (header projectName projectDescription) with
  | Ok llmsTxt => writeFileSync (path.join [outputDir; of_string "llms.txt"]) llmsTxt
  | Throw e => throw e
  end.

(** [generateLlmsFiles], lines 352-379. *)
Definition generateLlmsFiles (options : GenerateOptions) : IO unit :=
  fun w =>
    let contentDir := path.resolve (cwd w) [cwd w; contentDir options] in
    let outputDir := path.resolve (cwd w) [cwd w; outputDir options] in
    (e ← existsSync contentDir;
     if negb e then throw ("Content directory not found: " ++ contentDir)
     else
       e1 ← existsSync outputDir;
       _ ← (if negb e1 then mkdirSync outputDir else mret tt);
       let mdDir := path.join [outputDir; of_string "md"] in
       e2 ← existsSync mdDir;
       _ ← (if negb e2 then mkdirSync mdDir else mret tt);
       fs ← discoverFiles contentDir outputDir;
       generateLLMsTxt fs outputDir (projectName options)
         (projectDescription options) (baseUrl options)) w.

End Generator.

(* ===================================================================== *)
(** * Notions used to state the properties *)
(* ===================================================================== *)

(** No quote character occurs in [t]. *)
Definition quoteFree (t : str) : Prop := Forall (fun c => isQuote c = false) t.

(** [t] with every quote character removed. *)
Definition dropQuotes (t : str) : str := filter (fun c => isQuote c = false) t.

(** The keys the embedded-object parser can store. *)
Definition objectKeys : gset str := {[ k_title; k_description; k_slug; k_tags ]}.

(** The number of code units a greedy repetition of the class [p] with
    upper bound [hi] takes before it gives any back. *)
Definition rep_count (p : N -> bool) (hi : option nat) (aft : str) : nat :=
  match hi with
  | Some h => Nat.min (length (takeWhile p aft)) h
  | None => length (takeWhile p aft)
  end.

(** A position is the start of a line when nothing precedes it or a line
    terminator does. *)
Definition lineStart (prev : option N) : bool :=
  match prev with
  | None => true
  | Some c => isLineTerminator c
  end.

(** The description taken from the body, in words: at the first line start
    whose character is neither a line feed nor [#] and which is followed by
    at least 50 characters of the same line, that character and up to 200
    of the following ones. *)
Fixpoint firstParagraph (prev : option N) (s : str) : option str :=
  match s with
  | [] => None
  | c :: rest =>
      if lineStart prev && negb ((c =? LF) || (c =? HASH))
         && (50 <=? length (takeWhile isDot rest))%nat
      then Some (c :: take 200 (takeWhile isDot rest))
      else firstParagraph (Some c) rest
  end.

Definition blank (s : str) : Prop := Forall (fun c => isSpace c = true) s.

(** [-] and [_] become a space. *)
Definition dashToSpace (c : N) : N :=
  if (c =? 45) || (c =? 95) then 32 else c.

(** Upper-case the first letter of every word, a word being a maximal run
    of [\w] characters; [prevWord] tells whether the preceding character
    is one. *)
Fixpoint capitalizeWords (prevWord : bool) (s : str) : str :=
  match s with
  | [] => []
  | c :: s' =>
      (if negb prevWord && isWord c then upperWordChar c else c)
      :: capitalizeWords (isWord c) s'
  end.

(** The text does not end in white space. *)
Definition noTrailingSpace (s : str) : Prop :=
  ∀ c, last s = Some c → isSpace c = false.

(** [s] without its last character when that is a quote, and without one
    leading and one trailing quote. *)
Fixpoint dropLastQuote (s : str) : str :=
  match s with
  | [] => []
  | [c] => if isQuote c then [] else [c]
  | c :: s' => c :: dropLastQuote s'
  end.

Definition stripOuterQuotes (s : str) : str :=
  match s with
  | [] => []
  | c :: s' => if isQuote c then dropLastQuote s' else c :: dropLastQuote s'
  end.

(** The key and the value text that the pattern [key: value] finds on a
    line of the block header. *)
Definition lineMatch (line : str) : option (str * str) :=
  match search false re_line line with
  | Some mr =>
      match cap 1 mr, cap 2 mr with
      | Some k, Some v => Some (k, v)
      | _, _ => None
      end
  | None => None
  end.

(** The scenario of the specification for the block header. *)
Definition headerScenario : str :=
  of_string "--- " ++ [LF]
  ++ of_string "title: " ++ [DQ] ++ of_string "Hello" ++ [DQ] ++ [LF]
  ++ of_string "tags: [a, b]" ++ [LF]
  ++ of_string "---" ++ [LF]
  ++ of_string "# Hi" ++ [LF]
  ++ of_string "Body".

(** A segment of a relative path as the file enumeration produces them:
    not empty, without separator, and neither [.] nor [..]. *)
Definition properSegment (sg : str) : Prop :=
  sg ≠ [] ∧ Forall (fun c => c ≠ SLASH) sg ∧ sg ≠ [DOT] ∧ sg ≠ [DOT; DOT].

(** The path ends in a locale suffix followed by [.md]. *)
Definition endsWithLocale (s : str) : bool :=
  endsWith ".en.md" s || endsWith ".ru.md" s.

(** The scenario of the specification for the embedded object. *)
Definition objectScenario : str :=
  of_string "export const metadata = {title: 'X', slug: 'x'};" ++ [LF]
  ++ of_string "import Foo from 'bar';" ++ [LF]
  ++ of_string "<Foo/>" ++ [LF]
  ++ of_string "Hello world".





(** The text does not start with white space. *)
Definition noLeadingSpace (s : str) : Prop :=
  ∀ c, head s = Some c → isSpace c = false.

(** The distinct elements of a list, in the order of their first
    appearance; [seen] holds the elements met so far. *)
Fixpoint firstSeen (seen : list str) (l : list str) : list str :=
  match l with
  | [] => []
  | x :: l' =>
      if bool_decide (x ∈ seen) then firstSeen seen l'
      else x :: firstSeen (x :: seen) l'
  end.

(** An item of a bracketed list that is stored as written: not empty,
    free of quotes and commas, without white space at either end. *)
Definition cleanItem (t : str) : Prop :=
  t ≠ [] ∧ quoteFree t ∧ Forall (fun c => c ≠ COMMA) t
  ∧ noLeadingSpace t ∧ noTrailingSpace t.

(** [p] is the item [t] as it may be written between two commas: wrapped
    in any number of quote characters, then in any white space. *)
Definition padded (p t : str) : Prop :=
  ∃ l ql qr r : str,
    blank l ∧ blank r
    ∧ Forall (fun c => isQuote c = true) ql ∧ Forall (fun c => isQuote c = true) qr
    ∧ p = l ++ ql ++ t ++ qr ++ r.

(** The text [lit] occurs somewhere in [s]. *)
Definition occurs (lit s : str) : Prop := ∃ pre post, s = pre ++ lit ++ post.

(** The two locales and the two extensions that the path rewrite knows. *)
Definition isLocale (loc : str) : Prop := loc = of_string "en" ∨ loc = of_string "ru".
Definition isMdExt (ext : str) : Prop := ext = of_string "mdx" ∨ ext = of_string "md".

(** Nothing has been removed between two states of the file system: every
    directory and every file of [w] is still present in [w'], and the
    working directory is the same. *)
Definition worldGrows (w w' : world) : Prop :=
  dirs w ⊆ dirs w' ∧ dom (files w) ⊆ dom (files w') ∧ cwd w' = cwd w.

(** The manifest entry of a file, as far as the path of the file alone
    determines it. *)
Definition entryOf (file : str) (e : ProcessedFile) : Prop :=
  relativePath e = file
  ∧ url e = of_string "/md/" ++ urlPathOf file
  ∧ category e = categoryOf file.

(** A computation that removes nothing, whether it returns or throws. *)
Definition keeps {A} (c : IO A) : Prop := ∀ w, worldGrows w (c w).2.



(* ===================================================================== *)
(** * Checks of the model on the scenarios of the specification *)
(* ===================================================================== *)

Example scenario_index_path :
  categoryOf "posts/my-article/index.mdx" = "posts"
  ∧ urlPathOf "posts/my-article/index.mdx" = "posts/my-article/my-article.md".
Proof. split; vm_compute; reflexivity. Qed.

Example scenario_locale_path : urlPathOf "blog/post.en.md" = "blog/post.md".
Proof. vm_compute. reflexivity. Qed.

Example scenario_path_functions :
  path.basename_ext "posts/my-post/index.md" ".md" = "index"
  ∧ path.dirname "posts/my-post/index.md" = "posts/my-post"
  ∧ path.dirname "index.md" = "."
  ∧ path.basename "." = "."
  ∧ path.extname "a/b.en.mdx" = ".mdx"
  ∧ path.join [of_string "/a/b"; of_string "../c/./d.md"] = "/a/c/d.md"
  ∧ path.resolve "/home/u" [of_string "/home/u"; of_string "./content/"]
    = "/home/u/content".
Proof. repeat split; vm_compute; reflexivity. Qed.

Example scenario_block_header :
  metadata (processMDXContent headerScenario)
    = {[ k_title := VStr "Hello"; k_tags := VArr [of_string "a"; of_string "b"] ]}
  ∧ content (processMDXContent headerScenario) = of_string "# Hi" ++ [LF] ++ of_string "Body"
  ∧ lineMatch "tags: [a, b]" = Some (of_string "tags", of_string "[a, b]").
Proof. repeat split; vm_compute; reflexivity. Qed.

Example scenario_embedded_object :
  metadata (processMDXContent objectScenario)
    = {[ k_title := VStr "X"; k_slug := VStr "x" ]}
  ∧ content (processMDXContent objectScenario) = "Hello world".
Proof. split; vm_compute; reflexivity. Qed.

Example scenario_filename_title :
  extractTitle "docs/my-file_name.md" ∅ "no heading here" = VStr "My File Name".
Proof. vm_compute. reflexivity. Qed.

(* ===================================================================== *)
(** * Category of a source file (lines 242-244) *)
(* ===================================================================== *)

Lemma str_eqb_eq (a b : str) : str_eqb a b = true ↔ a = b.
Proof. unfold str_eqb. apply bool_decide_eq_true. Qed.

Lemma str_eqb_neq (a b : str) : str_eqb a b = false ↔ a ≠ b.
Proof. unfold str_eqb. apply bool_decide_eq_false. Qed.

Lemma truthy_true (s : str) : truthy s = true ↔ s ≠ [].
Proof. destruct s; simpl; split; intros; congruence. Qed.

Lemma truthy_false (s : str) : truthy s = false ↔ s = [].
Proof. destruct s; simpl; split; intros; congruence. Qed.

Lemma split_head_nonempty sep (s : str) : split sep s ≠ [].
Proof.
  destruct s as [|c s]; simpl; [congruence|].
  destruct (c =? sep); [congruence|].
  destruct (split sep s); congruence.
Qed.

(** The first piece of [split] is the text before the first separator. *)
Lemma head_split sep (s : str) :
  head (split sep s) = Some (takeWhile (fun c => negb (c =? sep)) s).
Proof.
  induction s as [|c s IH]; simpl; [reflexivity|].
  destruct (c =? sep); simpl; [reflexivity|].
  destruct (split sep s) as [|h t]; simpl in *; [congruence|].
  injection IH as ->. reflexivity.
Qed.

(** What lines 243-244 compute: the text before the first separator, and
    ["other"] only when that text is empty. *)
Lemma categoryOf_first_segment (file : str) :
  categoryOf file =
    match takeWhile path.notSep file with
    | [] => of_string "other"
    | seg => seg
    end.
Proof.
  unfold categoryOf, path.sep. rewrite head_split.
  change (fun c => negb (c =? SLASH)) with path.notSep.
  destruct (takeWhile path.notSep file); reflexivity.
Qed.

(** A path without a separator is its own category: the default is not
    taken for a file at the content root. *)
Lemma categoryOf_root_file (file : str) :
  file ≠ [] → Forall (fun c => c ≠ SLASH) file → categoryOf file = file.
Proof.
  intros Hne Hall. rewrite categoryOf_first_segment.
  assert (takeWhile path.notSep file = file) as ->.
  { clear Hne. induction Hall as [|c s Hc _ IH]; simpl; [reflexivity|].
    unfold path.notSep, path.isSep at 1.
    destruct (N.eqb_spec c SLASH); [contradiction|]. simpl.
    f_equal. exact IH. }
  destruct file; congruence.
Qed.

(** C1 (code defect): the file [README.md] sits at the content root, the
    claim gives it the category [other], the code gives it the category
    [README.md]. *)
Theorem C1_root_file_category :
  categoryOf "README.md" = "README.md" ∧ categoryOf "README.md" ≠ "other".
Proof. split; vm_compute; [reflexivity | discriminate]. Qed.

(* ===================================================================== *)
(** * Index files at the content root (lines 252-260) *)
(* ===================================================================== *)

(** C2 (code defect): for [index.md] at the content root the claim leaves
    the path as it is; the code finds the directory name [.] and rewrites
    the path to [..md]. *)
Theorem C2_root_index_rewritten :
  path.dirname "index.md" = "."
  ∧ path.basename "." = "."
  ∧ urlPathOf "index.md" = "..md"
  ∧ urlPathOf "index.md" ≠ "index.md".
Proof. repeat split; vm_compute; try reflexivity; discriminate. Qed.

(* ===================================================================== *)
(** * Grouping by category (lines 303-312) *)
(* ===================================================================== *)

Section Grouping.

Implicit Types (mp : JsMap (list ProcessedFile)) (fs l : list ProcessedFile).
Implicit Types (f : ProcessedFile) (k : str).

Lemma map_get_None {V} k (mp : JsMap V) : map_get k mp = None ↔ k ∉ mp.*1.
Proof.
  induction mp as [|[k' v] mp IH]; simpl.
  - split; [intros _; apply not_elem_of_nil | reflexivity].
  - rewrite not_elem_of_cons. unfold str_eqb. case_bool_decide.
    + split; [discriminate | intros [? _]; contradiction].
    + rewrite IH. tauto.
Qed.

Lemma map_get_Some {V} k (v : V) (mp : JsMap V) :
  map_get k mp = Some v →
  ∃ m1 m2, mp = m1 ++ (k, v) :: m2 ∧ k ∉ m1.*1.
Proof.
  induction mp as [|[k' v'] mp IH]; simpl; [discriminate|].
  unfold str_eqb. case_bool_decide as Hk.
  - intros [= ->]. subst k'. exists [], mp. split; [reflexivity|].
    apply not_elem_of_nil.
  - intros H. destruct (IH H) as (m1 & m2 & -> & Hn).
    exists ((k', v') :: m1), m2. split; [reflexivity|].
    simpl. rewrite not_elem_of_cons. tauto.
Qed.

Lemma map_set_new {V} k (v : V) (mp : JsMap V) :
  k ∉ mp.*1 → map_set k v mp = mp ++ [(k, v)].
Proof.
  induction mp as [|[k' v'] mp IH]; simpl; [reflexivity|].
  rewrite not_elem_of_cons. intros [Hk Hn].
  unfold str_eqb. case_bool_decide; [contradiction|].
  rewrite IH by assumption. reflexivity.
Qed.

Lemma map_set_old {V} k (v v0 : V) (m1 m2 : JsMap V) :
  k ∉ m1.*1 → map_set k v (m1 ++ (k, v0) :: m2) = m1 ++ (k, v) :: m2.
Proof.
  induction m1 as [|[k' v'] m1 IH]; simpl.
  - intros _. unfold str_eqb. case_bool_decide; [reflexivity | contradiction].
  - rewrite not_elem_of_cons. intros [Hk Hn].
    unfold str_eqb. case_bool_decide; [contradiction|].
    rewrite IH by assumption. reflexivity.
Qed.

(** One turn of the loop either opens a group for a new category at the
    end of the map, or appends the file to the group of its category. *)
Lemma groupStep_cases mp f :
  ((category f ∉ mp.*1) ∧ groupStep mp f = mp ++ [(category f, [f])])
  ∨ (∃ m1 m2 l, mp = m1 ++ (category f, l) :: m2 ∧ (category f ∉ m1.*1)
       ∧ groupStep mp f = m1 ++ (category f, l ++ [f]) :: m2).
Proof.
  unfold groupStep, map_has.
  destruct (map_get (category f) mp) as [l|] eqn:Hget; simpl.
  - right. rewrite Hget.
    destruct (map_get_Some _ _ _ Hget) as (m1 & m2 & -> & Hn).
    exists m1, m2, l. split; [reflexivity|]. split; [assumption|].
    apply map_set_old. assumption.
  - left. apply map_get_None in Hget. split; [assumption|].
    rewrite (map_set_new _ _ _ Hget).
    assert (map_get (category f) (mp ++ [(category f, [])]) = Some [])
      as ->.
    { clear -Hget. induction mp as [|[k' v'] mp IH]; simpl.
      - unfold str_eqb. case_bool_decide; [reflexivity | contradiction].
      - simpl in Hget. rewrite not_elem_of_cons in Hget.
        destruct Hget as [Hk Hn]. unfold str_eqb.
        case_bool_decide; [contradiction|]. apply IH. assumption. }
    change (mp ++ [(category f, [])]) with (mp ++ (category f, []) :: []).
    rewrite map_set_old by assumption. reflexivity.
Qed.

Lemma groupByCategory_snoc fs f :
  groupByCategory (fs ++ [f]) = groupStep (groupByCategory fs) f.
Proof. unfold groupByCategory. rewrite foldl_app. reflexivity. Qed.

(** The keys are distinct, and the group of a category holds the files of
    that category, in manifest order. *)
Lemma groupByCategory_groups fs :
  NoDup (groupByCategory fs).*1
  ∧ (∀ k l, (k, l) ∈ groupByCategory fs →
       l = filter (fun f => category f = k) fs ∧ l ≠ [])
  ∧ (∀ f, f ∈ fs → category f ∈ (groupByCategory fs).*1).
Proof.
  induction fs as [|f fs IH] using rev_ind.
  - repeat split.
    + constructor.
    + inversion H.
    + inversion H.
    + intros f Hf. inversion Hf.
  - destruct IH as (Hnd & Hgrp & Hcov).
    rewrite groupByCategory_snoc.
    destruct (groupStep_cases (groupByCategory fs) f)
      as [[Hnew ->] | (m1 & m2 & l & Heq & Hn1 & ->)].
    + repeat split.
      * rewrite fmap_app. simpl. apply NoDup_app. repeat split.
        -- assumption.
        -- intros k Hk Hk'. apply list_elem_of_singleton in Hk'. congruence.
        -- apply NoDup_singleton.
      * apply elem_of_app in H as [H | H].
        -- destruct (Hgrp _ _ H) as [-> _]. rewrite filter_app.
           rewrite (filter_cons_False _ f); [|].
           ++ rewrite filter_nil, app_nil_r. reflexivity.
           ++ intros Hc. apply Hnew. apply list_elem_of_fmap.
              eexists. split; [|exact H]. simpl. exact Hc.
        -- apply list_elem_of_singleton in H. injection H as -> ->.
           rewrite filter_app.
           assert (filter (λ f0, category f0 = category f) fs = []) as ->.
           { destruct (filter _ fs) as [|g gs] eqn:Hfl; [reflexivity|].
             assert (g ∈ filter (λ f0, category f0 = category f) fs) as Hg
               by (rewrite Hfl; left).
             apply list_elem_of_filter in Hg as [Hc Hg].
             exfalso. apply Hnew. rewrite <- Hc. apply Hcov. assumption. }
           rewrite filter_cons_True by reflexivity. reflexivity.
      * apply elem_of_app in H as [H | H].
        -- destruct (Hgrp _ _ H) as [_ Hne]. assumption.
        -- apply list_elem_of_singleton in H. injection H as -> ->. discriminate.
      * intros g Hg. rewrite fmap_app. apply elem_of_app.
        apply elem_of_app in Hg as [Hg | Hg].
        -- left. apply Hcov. assumption.
        -- right. apply list_elem_of_singleton in Hg. subst g. simpl. left.
    + rewrite Heq in Hnd, Hgrp, Hcov.
      rewrite fmap_app in Hnd, Hcov. simpl in Hnd, Hcov.
      repeat split.
      * rewrite fmap_app. simpl. assumption.
      * pose proof (NoDup_app (m1.*1) (category f :: m2.*1)) as [Ha _].
        destruct (Ha Hnd) as (_ & Hdisj & Hnd2).
        apply NoDup_cons in Hnd2 as [Hn2 _].
        apply elem_of_app in H as [H | H].
        -- assert ((k, l0) ∈ m1 ++ (category f, l) :: m2) as Hin
             by (apply elem_of_app; left; assumption).
           destruct (Hgrp _ _ Hin) as [-> _]. rewrite filter_app.
           rewrite (filter_cons_False _ f).
           ++ rewrite filter_nil, app_nil_r. reflexivity.
           ++ intros Hc. apply Hn1. apply list_elem_of_fmap.
              eexists. split; [|exact H]. simpl. exact Hc.
        -- apply elem_of_cons in H as [H | H].
           ++ injection H as -> ->.
              assert ((category f, l) ∈ m1 ++ (category f, l) :: m2) as Hin
                by (apply elem_of_app; right; left).
              destruct (Hgrp _ _ Hin) as [Hl _]. rewrite filter_app.
              rewrite filter_cons_True by reflexivity.
              rewrite filter_nil. rewrite <- Hl. reflexivity.
           ++ assert ((k, l0) ∈ m1 ++ (category f, l) :: m2) as Hin
                by (apply elem_of_app; right; right; assumption).
              destruct (Hgrp _ _ Hin) as [-> _]. rewrite filter_app.
              rewrite (filter_cons_False _ f).
              ** rewrite filter_nil, app_nil_r. reflexivity.
              ** intros Hc. apply Hn2. apply list_elem_of_fmap.
                 eexists. split; [|exact H]. simpl. exact Hc.
      * apply elem_of_app in H as [H | H].
        -- assert ((k, l0) ∈ m1 ++ (category f, l) :: m2) as Hin
             by (apply elem_of_app; left; assumption).
           destruct (Hgrp _ _ Hin) as [_ Hne]. assumption.
        -- apply elem_of_cons in H as [H | H].
           ++ injection H as -> ->. destruct l; discriminate.
           ++ assert ((k, l0) ∈ m1 ++ (category f, l) :: m2) as Hin
                by (apply elem_of_app; right; right; assumption).
              destruct (Hgrp _ _ Hin) as [_ Hne]. assumption.
      * intros g Hg. rewrite fmap_app. simpl.
        apply elem_of_app in Hg as [Hg | Hg].
        -- apply Hcov. assumption.
        -- apply list_elem_of_singleton in Hg. subst g.
           apply elem_of_app. right. left.
Qed.

(** The groups, laid end to end, are a rearrangement of the manifest. *)
Lemma groupByCategory_perm fs : concat (groupByCategory fs).*2 ≡ₚ fs.
Proof.
  induction fs as [|f fs IH] using rev_ind; [reflexivity|].
  rewrite groupByCategory_snoc.
  destruct (groupStep_cases (groupByCategory fs) f)
    as [[Hnew ->] | (m1 & m2 & l & Heq & Hn1 & ->)].
  - rewrite fmap_app, concat_app. simpl. rewrite IH. reflexivity.
  - rewrite Heq in IH. rewrite fmap_app, concat_app in IH |- *.
    simpl in IH |- *. rewrite <- IH.
    rewrite <- !app_assoc. do 2 apply Permutation_app_head.
    simpl. apply Permutation_cons_append.
Qed.

End Grouping.

(** C8: the grouping is a partition of the manifest.  The category keys are
    distinct; the group stored under a key is the list of the manifest
    entries of that category (so an entry is in the group of its category
    and in no other); the groups together are a rearrangement of the
    manifest, and their sizes add up to its length. *)
Theorem C8_grouping_partition (fs : list ProcessedFile) :
  NoDup (groupByCategory fs).*1
  ∧ (∀ k l, (k, l) ∈ groupByCategory fs →
       l = filter (fun f => category f = k) fs)
  ∧ (∀ f, f ∈ fs →
       ∃ l, (category f, l) ∈ groupByCategory fs ∧ f ∈ l)
  ∧ concat (groupByCategory fs).*2 ≡ₚ fs
  ∧ sum_list (length <$> (groupByCategory fs).*2) = length fs.
Proof.
  destruct (groupByCategory_groups fs) as (Hnd & Hgrp & Hcov).
  split; [assumption|]. split; [intros k l H; apply (Hgrp k l H)|].
  split.
  - intros f Hf. specialize (Hcov f Hf).
    apply list_elem_of_fmap in Hcov as ([k l] & Hk & Hin). simpl in Hk. subst k.
    exists l. split; [assumption|].
    destruct (Hgrp _ _ Hin) as [-> _].
    apply list_elem_of_filter. split; [reflexivity | assumption].
  - split; [apply groupByCategory_perm|].
    rewrite <- (Permutation_length (groupByCategory_perm fs)).
    symmetry. apply length_concat.
Qed.

(* ===================================================================== *)
(** * The fail-fast check of [generateLlmsFiles] (lines 352-359) *)
(* ===================================================================== *)

(** C9: when the resolved content directory does not exist the run ends
    with the error [Content directory not found], the store of files and
    directories is unchanged, and the only call made is the existence check
    itself: no read, no write, no directory creation, no enumeration. *)
Theorem C9_missing_content_dir
    (glob : world → str → list str)
    (sortByTitle : list ProcessedFile → result (list ProcessedFile))
    (toUpperCase : str → str)
    (options : GenerateOptions) (w : world) :
  let dir := path.resolve (cwd w) [cwd w; contentDir options] in
  existsPath w dir = false →
  ∃ w',
    generateLlmsFiles glob sortByTitle toUpperCase options w
      = (Throw ("Content directory not found: " ++ dir), w')
    ∧ files w' = files w
    ∧ dirs w' = dirs w
    ∧ log w' = log w ++ [EvExists dir].
Proof.
  intros dir Hmissing. exists (record (EvExists dir) w).
  split; [|repeat split].
  unfold generateLlmsFiles. fold dir.
  unfold mbind, IO_MBind, io_bind, existsSync. rewrite Hmissing. reflexivity.
Qed.

Lemma C9_missing_content_dir_witness :
  let w := World ∅ (list_to_set [of_string "/site"]) "/site" [] in
  let options :=
    {| contentDir := "content"; outputDir := "public"; baseUrl := None;
       projectName := None; projectDescription := None |} in
  ∃ w',
    generateLlmsFiles (fun _ _ => []) Ok id options w
      = (Throw "Content directory not found: /site/content", w')
    ∧ files w' = files w
    ∧ dirs w' = dirs w
    ∧ log w' = log w ++ [EvExists (of_string "/site/content")].
Proof.
  intros w options.
  apply (C9_missing_content_dir (fun _ _ => []) Ok id options w).
  vm_compute. reflexivity.
Defined.
(* ===================================================================== *)
(** * The matcher: inversion lemmas *)
(* ===================================================================== *)

Lemma takeWhile_dropWhile p (s : str) : takeWhile p s ++ dropWhile p s = s.
Proof.
  induction s as [|c s IH]; simpl; [reflexivity|].
  destruct (p c); simpl; [f_equal; exact IH | reflexivity].
Qed.

Lemma takeWhile_Forall p (s : str) : Forall (fun c => p c = true) (takeWhile p s).
Proof.
  induction s as [|c s IH]; simpl; [constructor|].
  destruct (p c) eqn:Hc; constructor; assumption.
Qed.

(** A successful repetition consumed [n] code units of the class, with [n]
    inside the bounds, and the continuation succeeded from there. *)
Lemma rep_class_inv p lo hi greedy cs bef aft k r :
  (∀ h, hi = Some h → (lo ≤ h)%nat) →
  rep_class p lo hi greedy cs bef aft k = Some r →
  ∃ n, (lo ≤ n)%nat ∧ (∀ h, hi = Some h → (n ≤ h)%nat)
       ∧ (n ≤ length aft)%nat
       ∧ Forall (fun c => p c = true) (take n aft)
       ∧ k (MState (rev (take n aft) ++ bef) (drop n aft) cs) = Some r.
Proof.
  revert lo hi bef.
  induction aft as [|c aft IH]; intros lo hi bef Hb H.
  - assert (Hz : k (MState bef [] cs) = Some r → lo = 0%nat →
      ∃ n, (lo ≤ n)%nat ∧ (∀ h, hi = Some h → (n ≤ h)%nat)
           ∧ (n ≤ length (@nil N))%nat
           ∧ Forall (fun c => p c = true) (take n [])
           ∧ k (MState (rev (take n []) ++ bef) (drop n []) cs) = Some r).
    { intros Hk ->. exists 0%nat. split; [lia|]. split; [intros; lia|].
      split; [simpl; lia|]. split; [constructor | exact Hk]. }
    simpl in H. destruct hi as [[|h]|]; destruct lo as [|lo];
      try discriminate; try (specialize (Hb _ eq_refl); lia);
      try (apply Hz; [|reflexivity]).
    + exact H.
    + destruct greedy; [exact H|]. destruct (k _); [exact H | discriminate].
    + destruct greedy; [exact H|]. destruct (k _); [exact H | discriminate].
  - assert (Hz : k (MState bef (c :: aft) cs) = Some r → lo = 0%nat →
      ∃ n, (lo ≤ n)%nat ∧ (∀ h, hi = Some h → (n ≤ h)%nat)
           ∧ (n ≤ length (c :: aft))%nat
           ∧ Forall (fun c => p c = true) (take n (c :: aft))
           ∧ k (MState (rev (take n (c :: aft)) ++ bef) (drop n (c :: aft)) cs) = Some r).
    { intros Hk ->. exists 0%nat. split; [lia|]. split; [intros; lia|].
      split; [simpl; lia|]. split; [constructor | exact Hk]. }
    assert (Hstep : ∀ lo',
      (lo = S lo' ∨ (lo = 0%nat ∧ lo' = 0%nat)) →
      hi ≠ Some 0%nat →
      (if p c then rep_class p lo' (pred <$> hi) greedy cs (c :: bef) aft k
       else None) = Some r →
      ∃ n, (lo ≤ n)%nat ∧ (∀ h, hi = Some h → (n ≤ h)%nat)
           ∧ (n ≤ length (c :: aft))%nat
           ∧ Forall (fun c => p c = true) (take n (c :: aft))
           ∧ k (MState (rev (take n (c :: aft)) ++ bef) (drop n (c :: aft)) cs) = Some r).
    { intros lo' Hlo Hhi0 Hs. destruct (p c) eqn:Hc; [|discriminate].
      apply IH in Hs.
      - destruct Hs as (n & Hn & Hhi & Hlen & Hall & Hk).
        exists (S n). simpl. split; [lia|]. split.
        { intros h ->. specialize (Hhi (pred h) eq_refl).
          destruct h; [congruence | simpl in Hhi; lia]. }
        split; [lia|]. split; [constructor; assumption|].
        rewrite <- app_assoc. exact Hk.
      - intros h Hh. destruct hi as [h0|]; [|discriminate].
        injection Hh as <-. specialize (Hb h0 eq_refl).
        destruct h0; [congruence | simpl; lia]. }
    simpl in H. destruct hi as [[|h]|].
    + destruct lo; [|specialize (Hb _ eq_refl); lia].
      apply Hz; [exact H | reflexivity].
    + destruct lo as [|lo].
      * destruct greedy.
        -- destruct (if p c then _ else None) eqn:Hs.
           ++ assert (Hmr := H); injection Hmr as Hmr; subst. apply (Hstep 0%nat); [right; split; reflexivity | discriminate | exact Hs].
           ++ apply Hz; [exact H | reflexivity].
        -- destruct (k (MState bef (c :: aft) cs)) eqn:Hk0.
           ++ assert (Hmr := H); injection Hmr as Hmr; subst. apply Hz; [first [exact Hk0 | reflexivity] | reflexivity].
           ++ apply (Hstep 0%nat); [right; split; reflexivity | discriminate | exact H].
      * apply (Hstep lo); [left; reflexivity | discriminate | exact H].
    + destruct lo as [|lo].
      * destruct greedy.
        -- destruct (if p c then _ else None) eqn:Hs.
           ++ assert (Hmr := H); injection Hmr as Hmr; subst. apply (Hstep 0%nat); [right; split; reflexivity | discriminate | exact Hs].
           ++ apply Hz; [exact H | reflexivity].
        -- destruct (k (MState bef (c :: aft) cs)) eqn:Hk0.
           ++ assert (Hmr := H); injection Hmr as Hmr; subst. apply Hz; [first [exact Hk0 | reflexivity] | reflexivity].
           ++ apply (Hstep 0%nat); [right; split; reflexivity | discriminate | exact H].
      * apply (Hstep lo); [left; reflexivity | discriminate | exact H].
Qed.

Lemma m_Chr_inv ml p st k r :
  m ml (Chr p) st k = Some r →
  ∃ c aft', after st = c :: aft' ∧ p c = true
            ∧ k (MState (c :: before st) aft' (caps st)) = Some r.
Proof.
  simpl. destruct (after st) as [|c aft']; [discriminate|].
  destruct (p c) eqn:Hc; [|discriminate].
  intros H. exists c, aft'. repeat split; assumption.
Qed.

Lemma m_Lit_inv ml (s : str) st k r :
  m ml (Lit s) st k = Some r →
  ∃ aft', after st = s ++ aft'
          ∧ k (MState (rev s ++ before st) aft' (caps st)) = Some r.
Proof.
  revert st k. induction s as [|c s IH]; intros st k H.
  - simpl in H. exists (after st). split; [reflexivity|].
    destruct st; exact H.
  - destruct s as [|c' s].
    + apply m_Chr_inv in H as (c0 & aft' & Ha & Hc & Hk).
      unfold isChar in Hc. apply N.eqb_eq in Hc. subst c0.
      exists aft'. split; [exact Ha | exact Hk].
    + change (Lit (c :: c' :: s)) with (Seq (Chr (isChar c)) (Lit (c' :: s))) in H.
      simpl m in H. fold (m ml (Chr (isChar c))) in H.
      destruct (after st) as [|c0 aft0] eqn:Ha; [discriminate|].
      destruct (isChar c c0) eqn:Hc; [|discriminate].
      unfold isChar in Hc. apply N.eqb_eq in Hc. subst c0.
      apply IH in H as (aft' & Ha' & Hk). simpl in Ha', Hk.
      exists aft'. split; [rewrite Ha'; reflexivity|].
      cbn [rev]. rewrite <- app_assoc. exact Hk.
Qed.

Lemma m_Rep_inv ml p lo hi greedy st k r :
  (∀ h, hi = Some h → (lo ≤ h)%nat) →
  m ml (Rep lo hi greedy p) st k = Some r →
  ∃ n, (lo ≤ n)%nat ∧ (∀ h, hi = Some h → (n ≤ h)%nat)
       ∧ (n ≤ length (after st))%nat
       ∧ Forall (fun c => p c = true) (take n (after st))
       ∧ k (MState (rev (take n (after st)) ++ before st)
                   (drop n (after st)) (caps st)) = Some r.
Proof. intros Hb H. exact (rep_class_inv _ _ _ _ _ _ _ _ _ Hb H). Qed.

Lemma match_at_inv ml r bef aft mr :
  match_at ml r bef aft = Some mr →
  ∃ st, m ml r (MState bef aft []) Some = Some st
        ∧ mr = RMatch (rev bef)
                      (take (length aft - length (after st)) aft)
                      (after st) (caps st).
Proof.
  unfold match_at. destruct (m ml r _ Some) as [st|]; [|discriminate].
  intros [= <-]. exists st. split; reflexivity.
Qed.

(** [search_from] returns the match at the first position where the
    matcher succeeds. *)
Lemma search_from_Some ml r bef aft mr :
  search_from ml r bef aft = Some mr →
  ∃ pre rest, aft = pre ++ rest
    ∧ match_at ml r (rev pre ++ bef) rest = Some mr
    ∧ ∀ p1 p2, pre = p1 ++ p2 → p2 ≠ [] →
        match_at ml r (rev p1 ++ bef) (p2 ++ rest) = None.
Proof.
  revert bef. induction aft as [|c aft IH]; intros bef H; simpl in H.
  - destruct (match_at ml r bef []) eqn:Hm; [|discriminate].
    injection H as ->. exists [], []. split; [reflexivity|].
    split; [exact Hm|]. intros p1 p2 Hp Hne.
    destruct p1; destruct p2; try discriminate; congruence.
  - destruct (match_at ml r bef (c :: aft)) eqn:Hm.
    + injection H as ->. exists [], (c :: aft). split; [reflexivity|].
      split; [exact Hm|]. intros p1 p2 Hp Hne.
      destruct p1; destruct p2; try discriminate; congruence.
    + apply IH in H as (pre & rest & -> & Hat & Hfirst).
      exists (c :: pre), rest. split; [reflexivity|].
      split; [simpl; rewrite <- app_assoc; exact Hat|].
      intros p1 p2 Hp Hne. destruct p1 as [|c1 p1].
      * simpl in Hp. subst p2. simpl. exact Hm.
      * injection Hp as -> ->. simpl. rewrite <- app_assoc.
        apply Hfirst; [reflexivity | assumption].
Qed.

Lemma search_from_None ml r bef aft :
  search_from ml r bef aft = None ↔
  ∀ pre rest, aft = pre ++ rest → match_at ml r (rev pre ++ bef) rest = None.
Proof.
  revert bef. induction aft as [|c aft IH]; intros bef; simpl.
  - destruct (match_at ml r bef []) eqn:Hm.
    + split; [discriminate|]. intros H. rewrite <- Hm. apply (H [] []). reflexivity.
    + split; [|reflexivity]. intros _ pre rest Hp.
      destruct pre; destruct rest; try discriminate. exact Hm.
  - destruct (match_at ml r bef (c :: aft)) eqn:Hm.
    + split; [discriminate|]. intros H. rewrite <- Hm.
      apply (H [] (c :: aft)). reflexivity.
    + rewrite IH. split.
      * intros H pre rest Hp. destruct pre as [|c1 pre].
        -- simpl in Hp. subst rest. exact Hm.
        -- injection Hp as -> ->. simpl. rewrite <- app_assoc.
           apply H. reflexivity.
      * intros H pre rest ->. specialize (H (c :: pre) rest eq_refl).
        simpl in H. rewrite <- app_assoc in H. exact H.
Qed.

Lemma match_at_Chr ml p bef c aft :
  match_at ml (Chr p) bef (c :: aft) =
    if p c then Some (RMatch (rev bef) [c] aft []) else None.
Proof.
  unfold match_at. simpl. destruct (p c); [|reflexivity].
  simpl. replace (S (length aft) - length aft)%nat with 1%nat by lia.
  reflexivity.
Qed.

(** A global replacement of a one-character class rewrites the code units
    one by one. *)
Lemma replace_all_class ml p f (g : N → str) bef aft :
  (∀ mr c, m_text mr = [c] → f mr = g c) →
  replace_all_from ml (Chr p) f bef aft 0 =
    concat (map (fun c => if p c then g c else [c]) aft).
Proof.
  intros Hf. revert bef. induction aft as [|c aft IH]; intros bef.
  - reflexivity.
  - cbn [replace_all_from]. rewrite match_at_Chr. destruct (p c) eqn:Hc.
    + cbn [m_text length map concat]. rewrite IH, Hc. f_equal.
      apply Hf. reflexivity.
    + cbn [map concat]. rewrite IH, Hc. reflexivity.
Qed.

Lemma replaceAll_erase_class p (s : str) :
  replaceAll false (Chr p) erase s = filter (fun c => p c = false) s.
Proof.
  unfold replaceAll. rewrite (replace_all_class _ _ _ (fun _ => [])) by reflexivity.
  induction s as [|c s IH]; simpl; [reflexivity|].
  destruct (p c) eqn:Hc; simpl.
  - rewrite filter_cons_False by congruence. exact IH.
  - rewrite filter_cons_True by assumption. f_equal. exact IH.
Qed.

Lemma replaceAll_map_class p (d : N) (s : str) :
  replaceAll false (Chr p) (fun _ => [d]) s = map (fun c => if p c then d else c) s.
Proof.
  unfold replaceAll. rewrite (replace_all_class _ _ _ (fun _ => [d])) by reflexivity.
  induction s as [|c s IH]; simpl; [reflexivity|].
  destruct (p c); simpl; f_equal; exact IH.
Qed.

Lemma rep_count_cons_true p hi c aft :
  p c = true → hi ≠ Some 0%nat →
  rep_count p hi (c :: aft) = S (rep_count p (pred <$> hi) aft).
Proof.
  intros Hc Hhi. unfold rep_count. simpl. rewrite Hc.
  destruct hi as [[|h]|]; simpl; [congruence | lia | reflexivity].
Qed.

(** A greedy repetition takes the longest run of the class allowed by
    its upper bound whenever the continuation succeeds there. *)
Lemma rep_class_greedy_max p lo hi cs bef aft k :
  let n := rep_count p hi aft in
  (lo ≤ n)%nat →
  is_Some (k (MState (rev (take n aft) ++ bef) (drop n aft) cs)) →
  rep_class p lo hi true cs bef aft k
    = k (MState (rev (take n aft) ++ bef) (drop n aft) cs).
Proof.
  revert lo hi bef.
  induction aft as [|c aft IH]; intros lo hi bef n Hlo Hk.
  - assert (n = 0%nat) as Hn by (subst n; unfold rep_count; destruct hi; simpl; lia).
    rewrite Hn in *. assert (lo = 0%nat) as -> by lia.
    simpl. destruct hi as [[|h]|]; reflexivity.
  - destruct (decide (hi = Some 0%nat)) as [->|Hhi].
    { assert (n = 0%nat) as Hn by (subst n; unfold rep_count; lia).
      rewrite Hn. reflexivity. }
    destruct (p c) eqn:Hc.
    + assert (Hn : n = S (rep_count p (pred <$> hi) aft))
        by (apply rep_count_cons_true; assumption).
      rewrite Hn in *. cbn [take drop rev] in Hk |- *.
      rewrite <- app_assoc in Hk |- *. cbn [app] in Hk |- *.
      specialize (IH (pred lo) (pred <$> hi) (c :: bef)).
      cbn zeta in IH. rewrite <- IH; [|lia | exact Hk].
      rewrite <- IH in Hk; [|lia | exact Hk].
      simpl. rewrite Hc. destruct hi as [[|h]|]; [congruence | |].
      * destruct lo as [|lo]; [|reflexivity].
        simpl in *. destruct Hk as [r ->]. reflexivity.
      * destruct lo as [|lo]; [|reflexivity].
        simpl in *. destruct Hk as [r ->]. reflexivity.
    + assert (n = 0%nat) as Hn
        by (subst n; unfold rep_count; simpl; rewrite Hc; destruct hi; simpl; lia).
      rewrite Hn in *. assert (lo = 0%nat) as -> by lia.
      simpl. rewrite Hc. destruct hi as [[|h]|]; [congruence | reflexivity | reflexivity].
Qed.

(** A repetition fails when the run of the class is shorter than its
    lower bound. *)
Lemma rep_class_short p lo hi greedy cs bef aft k :
  (∀ h, hi = Some h → (lo ≤ h)%nat) →
  (length (takeWhile p aft) < lo)%nat →
  rep_class p lo hi greedy cs bef aft k = None.
Proof.
  intros Hb Hshort.
  destruct (rep_class p lo hi greedy cs bef aft k) as [r|] eqn:H; [|reflexivity].
  apply rep_class_inv in H as (n & Hn & _ & Hlen & Hall & _); [|exact Hb].
  exfalso.
  assert (n ≤ length (takeWhile p aft))%nat; [|lia].
  clear -Hall Hlen. revert n Hall Hlen.
  induction aft as [|c aft IH]; intros n Hall Hlen; simpl in *; [lia|].
  destruct n as [|n]; [lia|]. simpl in Hall.
  apply Forall_cons in Hall as [Hc Hall]. rewrite Hc. simpl.
  specialize (IH n Hall). lia.
Qed.

(* ===================================================================== *)
(** * The embedded-object parser (lines 37-72 and 110-125) *)
(* ===================================================================== *)

Lemma take_consumed {A} (n : nat) (l : list A) :
  (n ≤ length l)%nat → take (length l - length (drop n l)) l = take n l.
Proof. intros Hn. rewrite length_drop. f_equal. lia. Qed.

Lemma isNot_true p c : isNot p c = true ↔ p c = false.
Proof. unfold isNot. destruct (p c); simpl; split; congruence. Qed.

(** The text captured for a string field is non-empty and holds no quote. *)
Lemma field_capture (key s : str) (mr : rmatch) (t : str) :
  search false (re_field key) s = Some mr → cap 1 mr = Some t →
  t ≠ [] ∧ quoteFree t.
Proof.
  intros Hs Hcap. apply search_from_Some in Hs as (pre & rest & _ & Hat & _).
  apply match_at_inv in Hat as (st & Hm & ->).
  unfold re_field in Hm. cbn [Seqs] in Hm. cbn [m] in Hm.
  apply m_Lit_inv in Hm as (a1 & _ & Hm). cbn beta in Hm.
  cbn [m after before caps] in Hm.
  destruct a1 as [|c1 a1]; [discriminate|].
  destruct (isChar 58 c1); [|discriminate].
  apply rep_class_inv in Hm as (n1 & _ & _ & _ & _ & Hm); [|discriminate].
  cbn [m after before caps] in Hm.
  destruct (drop n1 a1) as [|c2 a2]; [discriminate|].
  destruct (isQuote c2); [|discriminate].
  apply rep_class_inv in Hm as (n & Hn & _ & Hlen & Hall & Hm); [|discriminate].
  cbn [m after before caps] in Hm.
  destruct (drop n a2) as [|c3 a3] eqn:Hd; [discriminate|].
  destruct (isQuote c3); [|discriminate].
  injection Hm as <-. unfold cap in Hcap. cbn in Hcap.
  injection Hcap as <-.
  cbn [after] in Hlen, Hall.
  replace (S (length a3)) with (length (drop n a2)) by (rewrite Hd; reflexivity).
  rewrite take_consumed by assumption.
  split.
  - intros Hnil. apply (f_equal length) in Hnil.
    rewrite length_take in Hnil. simpl in Hnil. lia.
  - unfold quoteFree. eapply Forall_impl; [exact Hall|].
    intros c Hc. apply isNot_true in Hc. exact Hc.
Qed.

Lemma lookup_setField (key key' s : str) (md : FileMetadata) (v : value) :
  setField key s md !! key' = Some v →
  md !! key' = Some v ∨ (key' = key ∧ ∃ t, v = VStr t ∧ t ≠ [] ∧ quoteFree t).
Proof.
  unfold setField. destruct (search false (re_field key) s) as [mr|] eqn:Hs;
    [|auto].
  destruct (cap 1 mr) as [t|] eqn:Hc; [|auto].
  destruct (decide (key = key')) as [->|Hne].
  - rewrite lookup_insert_eq. intros [= <-]. right. split; [reflexivity|].
    exists t. split; [reflexivity|]. exact (field_capture _ _ _ _ Hs Hc).
  - rewrite lookup_insert_ne by assumption. auto.
Qed.

Lemma listItems_spec (s : str) :
  listItems s =
    filter (fun t => t ≠ []) (map (fun t => dropQuotes (trim t)) (split COMMA s)).
Proof.
  unfold listItems.
  induction (split COMMA s) as [|t ts IH]; [reflexivity|].
  cbn [map]. unfold re_quote at 1. rewrite replaceAll_erase_class.
  fold (dropQuotes (trim t)).
  destruct (dropQuotes (trim t)) as [|c u] eqn:Hd.
  - rewrite filter_cons_False by (intros H; discriminate H).
    rewrite filter_cons_False by congruence. exact IH.
  - rewrite filter_cons_True by reflexivity.
    rewrite filter_cons_True by congruence. f_equal. exact IH.
Qed.

Lemma listItems_shape (s : str) :
  Forall (fun t => t ≠ [] ∧ quoteFree t) (listItems s).
Proof.
  rewrite listItems_spec. apply Forall_forall. intros t Ht.
  apply list_elem_of_filter in Ht as [Hne Ht]. split; [assumption|].
  apply list_elem_of_fmap in Ht as (u & -> & _).
  unfold quoteFree, dropQuotes. apply Forall_forall. intros c Hc.
  apply list_elem_of_filter in Hc as [Hq _]. exact Hq.
Qed.

(** What [extractMetadataValues] can store. *)
Lemma extractMetadataValues_lookup (metadataStr key : str) (v : value) :
  extractMetadataValues metadataStr !! key = Some v →
  (key ∈ [k_title; k_description; k_slug]
     ∧ ∃ t, v = VStr t ∧ t ≠ [] ∧ quoteFree t)
  ∨ (key = k_tags
     ∧ ∃ l, v = VArr l ∧ l ≠ [] ∧ Forall (fun t => t ≠ [] ∧ quoteFree t) l).
Proof.
  unfold extractMetadataValues.
  set (md3 := setField k_slug _ _).
  assert (Hmd3 : md3 !! key = Some v →
    key ∈ [k_title; k_description; k_slug]
    ∧ ∃ t, v = VStr t ∧ t ≠ [] ∧ quoteFree t).
  { subst md3. intros H.
    apply lookup_setField in H as [H | [-> Ht]];
      [|split; [repeat constructor | exact Ht]].
    apply lookup_setField in H as [H | [-> Ht]];
      [|split; [repeat constructor | exact Ht]].
    apply lookup_setField in H as [H | [-> Ht]];
      [|split; [repeat constructor | exact Ht]].
    rewrite lookup_empty in H. discriminate. }
  destruct (search false re_tags metadataStr) as [mr|]; [|auto].
  destruct (cap 1 mr) as [tagsStr|]; [|auto].
  destruct (truthy tagsStr); [|auto].
  destruct (0 <? length (listItems tagsStr))%nat eqn:Hlen; [|auto].
  destruct (decide (k_tags = key)) as [<-|Hne].
  - rewrite lookup_insert_eq. intros [= <-]. right. split; [reflexivity|].
    exists (listItems tagsStr). split; [reflexivity|].
    split; [|apply listItems_shape].
    apply Nat.ltb_lt in Hlen. destruct (listItems tagsStr); simpl in *; [lia | congruence].
  - rewrite lookup_insert_ne by assumption. auto.
Qed.
(** For an extended-dialect text without a block header, the metadata
    mapping has no key besides title, description, slug and tags; title,
    description and slug hold a non-empty string without quote characters
    (the text between two quotes); tags holds a non-empty sequence of
    non-empty strings without quote characters. *)
Lemma embedded_object_keys (text : str) :
  frontmatterOf text = None →
  dom (metadata (processMDXContent text)) ⊆ objectKeys
  ∧ ∀ (key : str) (v : value),
      metadata (processMDXContent text) !! key = Some v →
      (key ∈ [k_title; k_description; k_slug]
         ∧ ∃ t, v = VStr t ∧ t ≠ [] ∧ quoteFree t)
      ∨ (key = k_tags
         ∧ ∃ l, v = VArr l ∧ l ≠ []
                ∧ Forall (fun t => t ≠ [] ∧ quoteFree t) l).
Proof.
  intros Hfm.
  assert (Hlk : ∀ (key : str) (v : value),
    metadata (processMDXContent text) !! key = Some v →
    (key ∈ [k_title; k_description; k_slug]
       ∧ ∃ t, v = VStr t ∧ t ≠ [] ∧ quoteFree t)
    ∨ (key = k_tags
       ∧ ∃ l, v = VArr l ∧ l ≠ []
              ∧ Forall (fun t => t ≠ [] ∧ quoteFree t) l)).
  { intros key v. unfold processMDXContent. rewrite Hfm.
    destruct (search true (re_export (Chr (isChar LF))) text) as [mr|];
      [|simpl; rewrite lookup_empty; discriminate].
    destruct (cap 1 mr) as [metadataStr|];
      [|simpl; rewrite lookup_empty; discriminate].
    destruct (truthy metadataStr);
      [|simpl; rewrite lookup_empty; discriminate].
    simpl. apply extractMetadataValues_lookup. }
  split; [|exact Hlk].
  intros key Hin. apply elem_of_dom in Hin as [v Hv].
  unfold objectKeys. rewrite !elem_of_union, !elem_of_singleton.
  destruct (Hlk key v Hv) as [[Hk _] | [-> _]]; [|tauto].
  rewrite !elem_of_cons in Hk. destruct Hk as [-> | [-> | [-> | Hk]]];
    [tauto | tauto | tauto |].
  apply elem_of_nil in Hk. contradiction.
Qed.

(** C5: the code does not ignore every other field.  The object literal
    of the text below has none of the four fields, only a field
    [subtitle]; the pattern for [title] is not anchored at the start of a
    name, finds [title:] inside [subtitle:], and the value of the other
    field is stored under [title].  The same happens for [description]
    and [slug] whenever another name ends in one of the four. *)
Theorem C5_other_field_read_as_title :
  let text : str :=
    of_string "export const metadata = {subtitle: 'Foo'};" ++ [LF]
    ++ of_string "Body" in
  frontmatterOf text = None
  ∧ extractMetadataValues "{subtitle: 'Foo'}" = {[ k_title := VStr "Foo" ]}
  ∧ metadata (processMDXContent text) = {[ k_title := VStr "Foo" ]}
  ∧ metadata (processMDXContent text) ≠ ∅
  ∧ extractMetadataValues "{nickname: 'x', metaslug: 'y'}" = {[ k_slug := VStr "y" ]}.
Proof.
  assert (Hne : ({[ k_title := VStr "Foo" ]} : FileMetadata) ≠ ∅).
  { intros H. apply (f_equal (fun m : FileMetadata => m !! k_title)) in H.
    rewrite lookup_singleton_eq, lookup_empty in H. discriminate. }
  assert (Hmd : metadata (processMDXContent
                  (of_string "export const metadata = {subtitle: 'Foo'};" ++ [LF]
                   ++ of_string "Body")) = {[ k_title := VStr "Foo" ]})
    by (vm_compute; reflexivity).
  cbv zeta. rewrite Hmd.
  split; [vm_compute; reflexivity|]. split; [vm_compute; reflexivity|].
  split; [reflexivity|]. split; [exact Hne | vm_compute; reflexivity].
Qed.

(* ===================================================================== *)
(** * [trim] *)
(* ===================================================================== *)

Lemma dropWhile_nil p (s : str) :
  dropWhile p s = [] ↔ Forall (fun c => p c = true) s.
Proof.
  induction s as [|c s IH]; simpl.
  - split; [constructor | reflexivity].
  - destruct (p c) eqn:Hc.
    + rewrite IH. split; [intros; constructor; assumption|].
      intros H. apply Forall_cons in H as [_ H]. exact H.
    + split; [discriminate|]. intros H. apply Forall_cons in H as [H _]. congruence.
Qed.

Lemma dropWhile_suffix p (s : str) : ∃ pre, s = pre ++ dropWhile p s.
Proof.
  induction s as [|c s [pre IH]]; simpl; [exists []; reflexivity|].
  destruct (p c); [|exists []; reflexivity].
  exists (c :: pre). simpl. f_equal. exact IH.
Qed.

Lemma dropWhile_Forall (P : N → Prop) p (s : str) :
  Forall P s → Forall P (dropWhile p s).
Proof.
  intros H. destruct (dropWhile_suffix p s) as [pre Hs].
  rewrite Hs in H. apply Forall_app in H as [_ H]. exact H.
Qed.

Lemma dropWhile_head p (s : str) c t : dropWhile p s = c :: t → p c = false.
Proof.
  induction s as [|d s IH]; simpl; [discriminate|].
  destruct (p d) eqn:Hd; [exact IH|]. intros [= -> _]. exact Hd.
Qed.

Lemma trim_Forall (P : N → Prop) (s : str) : Forall P s → Forall P (trim s).
Proof.
  intros H. unfold trim. apply Forall_rev, dropWhile_Forall, Forall_rev,
    dropWhile_Forall. exact H.
Qed.

Lemma trim_nil (s : str) : trim s = [] ↔ blank s.
Proof.
  unfold trim, blank. split.
  - intros H. apply (f_equal (@rev N)) in H. rewrite rev_involutive in H.
    simpl in H. apply dropWhile_nil in H. apply Forall_rev in H.
    rewrite rev_involutive in H.
    destruct (dropWhile isSpace s) as [|c t] eqn:Hd.
    + apply dropWhile_nil. exact Hd.
    + apply dropWhile_head in Hd. apply Forall_cons in H as [H _]. congruence.
  - intros H. apply dropWhile_nil in H. rewrite H. reflexivity.
Qed.

(* ===================================================================== *)
(** * [extractDescription] (lines 194-209) *)
(* ===================================================================== *)

Lemma takeWhile_take p (s : str) : takeWhile p s = take (length (takeWhile p s)) s.
Proof.
  induction s as [|c s IH]; simpl; [reflexivity|].
  destruct (p c); simpl; [f_equal; exact IH | reflexivity].
Qed.

Lemma takeWhile_length p (s : str) : (length (takeWhile p s) ≤ length s)%nat.
Proof.
  induction s as [|c s IH]; simpl; [lia|]. destruct (p c); simpl; lia.
Qed.

(** The group of the paragraph pattern at one position. *)
Lemma m_paragraph_group bef c rest :
  m true (Grp 1 (Seq (Chr (fun c => negb ((c =? LF) || (c =? HASH))))
                     (Rep 50 (Some 200%nat) true isDot)))
    (MState bef (c :: rest) []) Some =
    if negb ((c =? LF) || (c =? HASH))
       && (50 <=? length (takeWhile isDot rest))%nat
    then
      let n := rep_count isDot (Some 200%nat) rest in
      Some (MState (rev (take n rest) ++ c :: bef) (drop n rest)
                   [(1%nat, c :: take 200 (takeWhile isDot rest))])
    else None.
Proof.
  cbn [m after before caps].
  destruct (negb ((c =? LF) || (c =? HASH))); [|reflexivity].
  cbn [andb].
  destruct (50 <=? length (takeWhile isDot rest))%nat eqn:Hlen.
  - apply Nat.leb_le in Hlen.
    rewrite rep_class_greedy_max;
      [|unfold rep_count; lia | eexists; reflexivity].
    cbn [after before caps].
    set (n := rep_count isDot (Some 200%nat) rest).
    assert (Hn : take 200 (takeWhile isDot rest) = take n rest).
    { rewrite (takeWhile_take isDot rest) at 1. rewrite take_take.
      unfold n, rep_count. f_equal. lia. }
    assert (Hnlen : (n ≤ length rest)%nat).
    { unfold n, rep_count. pose proof (takeWhile_length isDot rest). lia. }
    rewrite Hn. cbn [length]. rewrite length_drop.
    replace (S (length rest) - (length rest - n))%nat with (S n) by lia.
    reflexivity.
  - apply Nat.leb_gt in Hlen.
    rewrite rep_class_short; [reflexivity | intros ? [= <-]; lia | lia].
Qed.

Lemma m_Bol_seq ml r st k :
  m ml (Seq Bol r) st k =
    match prevChar st with
    | None => m ml r st k
    | Some c => if ml && isLineTerminator c then m ml r st k else None
    end.
Proof. reflexivity. Qed.

(** The paragraph pattern at one position. *)
Lemma match_at_paragraph bef c rest :
  if lineStart (head bef) && negb ((c =? LF) || (c =? HASH))
     && (50 <=? length (takeWhile isDot rest))%nat
  then ∃ mr, match_at true re_paragraph bef (c :: rest) = Some mr
             ∧ cap 1 mr = Some (c :: take 200 (takeWhile isDot rest))
  else match_at true re_paragraph bef (c :: rest) = None.
Proof.
  unfold match_at, re_paragraph. rewrite m_Bol_seq.
  unfold prevChar. cbn [before].
  assert (Hgo :
    if negb ((c =? LF) || (c =? HASH))
       && (50 <=? length (takeWhile isDot rest))%nat
    then ∃ mr,
      match m true (Grp 1 (Seq (Chr (fun c => negb ((c =? LF) || (c =? HASH))))
                               (Rep 50 (Some 200%nat) true isDot)))
              (MState bef (c :: rest) []) Some with
      | Some st =>
          Some (RMatch (rev bef)
                  (take (length (c :: rest) - length (after st)) (c :: rest))
                  (after st) (caps st))
      | None => None
      end = Some mr
      ∧ cap 1 mr = Some (c :: take 200 (takeWhile isDot rest))
    else
      match m true (Grp 1 (Seq (Chr (fun c => negb ((c =? LF) || (c =? HASH))))
                               (Rep 50 (Some 200%nat) true isDot)))
              (MState bef (c :: rest) []) Some with
      | Some st =>
          Some (RMatch (rev bef)
                  (take (length (c :: rest) - length (after st)) (c :: rest))
                  (after st) (caps st))
      | None => None
      end = None).
  { rewrite m_paragraph_group.
    destruct (negb ((c =? LF) || (c =? HASH))
              && (50 <=? length (takeWhile isDot rest))%nat); [|reflexivity].
    eexists. split; reflexivity. }
  destruct (head bef) as [c0|]; cbn [lineStart andb].
  - destruct (isLineTerminator c0); cbn [andb]; [exact Hgo | reflexivity].
  - exact Hgo.
Qed.

Lemma match_at_paragraph_nil bef : match_at true re_paragraph bef [] = None.
Proof.
  unfold match_at, re_paragraph. rewrite m_Bol_seq.
  unfold prevChar. cbn [before m after].
  destruct (head bef) as [c0|]; [destruct (true && isLineTerminator c0)|];
    reflexivity.
Qed.

(** The search for the paragraph pattern finds what the words say. *)
Lemma search_paragraph bef aft :
  search_from true re_paragraph bef aft ≫= cap 1 = firstParagraph (head bef) aft.
Proof.
  revert bef. induction aft as [|c rest IH]; intros bef.
  - simpl. rewrite match_at_paragraph_nil. reflexivity.
  - cbn [search_from firstParagraph].
    pose proof (match_at_paragraph bef c rest) as H.
    destruct (lineStart (head bef) && negb ((c =? LF) || (c =? HASH))
              && (50 <=? length (takeWhile isDot rest))%nat).
    + destruct H as (mr & -> & Hc). exact Hc.
    + rewrite H. apply (IH (c :: bef)).
Qed.

Lemma search_paragraph_top (body : str) :
  search true re_paragraph body ≫= cap 1 = firstParagraph None body.
Proof. apply (search_paragraph [] body). Qed.

Lemma firstParagraph_shape prev (s t : str) :
  firstParagraph prev s = Some t →
  (51 ≤ length t ≤ 201)%nat ∧ Forall (fun c => c ≠ LF) t.
Proof.
  revert prev. induction s as [|c rest IH]; intros prev; cbn [firstParagraph];
    [discriminate|].
  destruct (lineStart prev && negb ((c =? LF) || (c =? HASH))
            && (50 <=? length (takeWhile isDot rest))%nat) eqn:Hq; [|apply IH].
  intros [= <-]. apply andb_true_iff in Hq as [Hq Hlen].
  apply andb_true_iff in Hq as [_ Hc]. apply Nat.leb_le in Hlen.
  split.
  - cbn [length]. rewrite length_take. lia.
  - constructor.
    + intros ->. discriminate Hc.
    + apply Forall_take. eapply Forall_impl; [apply takeWhile_Forall|].
      intros d Hd ->. discriminate Hd.
Qed.

Lemma map_id_on (h : N → N) (s : str) :
  Forall (fun c => h c = c) s → map h s = s.
Proof. induction 1; simpl; congruence. Qed.

(** Without a usable metadata description the result comes from the text
    found in the body. *)
Lemma extractDescription_body (md : FileMetadata) (body : str) :
  truthyValue (md !! k_description) = false →
  extractDescription md body
    = (fun t => VStr (take 200 (trim t))) <$> firstParagraph None body.
Proof.
  intros Hfalsy. unfold extractDescription. rewrite Hfalsy.
  rewrite <- (search_paragraph_top body).
  destruct (search true re_paragraph body) as [mr|] eqn:Hs;
    [|reflexivity].
  cbn [mbind option_bind].
  destruct (cap 1 mr) as [t|] eqn:Hc; [|reflexivity].
  cbn [fmap option_fmap option_map]. do 2 f_equal. unfold substring0. f_equal.
  unfold re_newline. rewrite replaceAll_map_class.
  apply map_id_on, trim_Forall.
  assert (Hfp : firstParagraph None body = Some t).
  { rewrite <- (search_paragraph_top body), Hs. exact Hc. }
  destruct (firstParagraph_shape _ _ _ Hfp) as [_ Hlf].
  eapply Forall_impl; [exact Hlf|]. intros c Hne. unfold isChar.
  destruct (N.eqb_spec LF c); congruence.
Qed.

(** C6, as amended: without a usable metadata description, the result is
    the text found by [firstParagraph] (the first line start whose
    character is neither a line feed nor [#] and which has at least 50 more
    characters on its line; that character and up to 200 following ones,
    so 51 to 201 characters), trimmed and cut to 200 characters; it is
    absent when no line start qualifies. *)
Theorem C6_description_from_body (md : FileMetadata) (body : str) :
  truthyValue (md !! k_description) = false →
  extractDescription md body
    = (fun t => VStr (take 200 (trim t))) <$> firstParagraph None body
  ∧ ∀ t, firstParagraph None body = Some t → (51 ≤ length t ≤ 201)%nat.
Proof.
  intros Hfalsy. split; [apply extractDescription_body; exact Hfalsy|].
  intros t Ht. apply (firstParagraph_shape _ _ _ Ht).
Qed.

Lemma C6_description_from_body_witness :
  let body : str := of_string "# Guide" ++ [LF] ++ replicate 60 97 in
  extractDescription ∅ body
    = (fun t => VStr (take 200 (trim t))) <$> firstParagraph None body
  ∧ ∀ t, firstParagraph None body = Some t → (51 ≤ length t ≤ 201)%nat.
Proof.
  intros body. apply (C6_description_from_body ∅ body). reflexivity.
Defined.

(** C6, as stated, fails in both directions: a line of 300 characters is
    not between 50 and 200 characters long, yet its first 200 characters
    are returned; a line of exactly 50 characters is within the stated
    range, yet nothing is returned. *)
Lemma C6_length_range_counterexample :
  extractDescription ∅ (replicate 300 97) = Some (VStr (replicate 200 97))
  ∧ extractDescription ∅ (replicate 50 97) = None.
Proof. split; vm_compute; reflexivity. Qed.

Lemma truthyValue_str (o : option value) :
  truthyValue o = true → o ≠ Some (VStr []).
Proof. intros H ->. discriminate H. Qed.

(** C10, as amended: the result of [extractDescription] is absent, or the
    metadata description (which is then not the empty string), or a string
    of at most 200 characters taken from the body; the latter is empty
    exactly when the text found in the body is blank. *)
Theorem C10_description_result (md : FileMetadata) (body : str) :
  match extractDescription md body with
  | None => True
  | Some v =>
      (truthyValue (md !! k_description) = true
       ∧ md !! k_description = Some v ∧ v ≠ VStr [])
      ∨ (truthyValue (md !! k_description) = false
         ∧ ∃ t, firstParagraph None body = Some t
                ∧ v = VStr (take 200 (trim t))
                ∧ (length (take 200 (trim t)) ≤ 200)%nat
                ∧ (take 200 (trim t) = [] ↔ blank t))
  end.
Proof.
  destruct (truthyValue (md !! k_description)) eqn:Htr.
  - unfold extractDescription. rewrite Htr.
    destruct (md !! k_description) as [v|] eqn:Hd; [|exact I].
    left. repeat split. intros ->. discriminate Htr.
  - rewrite (extractDescription_body md body Htr).
    destruct (firstParagraph None body) as [t|]; [|exact I].
    cbn [fmap option_fmap option_map]. right. split; [reflexivity|].
    exists t. split; [reflexivity|]. split; [reflexivity|].
    split; [rewrite length_take; lia|].
    rewrite <- trim_nil. destruct (trim t); simpl; split; congruence.
Qed.

(** C10, as stated, fails: a line of 60 spaces in the body gives the empty
    string, not an absent result. *)
Lemma C10_blank_line_counterexample :
  extractDescription ∅ (replicate 60 32) = Some (VStr []).
Proof. vm_compute. reflexivity. Qed.

(* ===================================================================== *)
(** * [extractTitle] (lines 171-189) *)
(* ===================================================================== *)

Lemma match_at_word_start ml bef c aft :
  match_at ml re_word_start bef (c :: aft) =
    if negb (optb isWord (head bef)) && isWord c
    then Some (RMatch (rev bef) [c] aft [])
    else None.
Proof.
  unfold match_at, re_word_start. cbn [m]. unfold prevChar, nextChar.
  cbn [before after head optb caps].
  destruct (optb isWord (head bef)); destruct (isWord c) eqn:Hc;
    cbn [xorb negb andb]; try reflexivity.
  cbn [after].
  replace (length (c :: aft) - length aft)%nat with 1%nat by (simpl; lia).
  reflexivity.
Qed.

(** The replacement of [\b\w] upper-cases the first letter of every word. *)
Lemma replaceAll_word_start bef (s : str) :
  replace_all_from false re_word_start
    (fun mr => map upperWordChar (m_text mr)) bef s 0
  = capitalizeWords (optb isWord (head bef)) s.
Proof.
  revert bef. induction s as [|c s IH]; intros bef.
  - cbn [replace_all_from]. unfold match_at, re_word_start. cbn [m].
    unfold prevChar, nextChar. cbn [before after head optb].
    destruct (optb isWord (head bef)); reflexivity.
  - cbn [replace_all_from capitalizeWords]. rewrite match_at_word_start.
    destruct (negb (optb isWord (head bef)) && isWord c).
    + cbn [m_text length map app]. f_equal. apply (IH (c :: bef)).
    + f_equal. apply (IH (c :: bef)).
Qed.

Lemma titleFromPath_words (filePath : str) :
  titleFromPath filePath =
    capitalizeWords false
      (map dashToSpace (path.basename_ext filePath (path.extname filePath))).
Proof.
  unfold titleFromPath, replaceAll at 1. rewrite replaceAll_word_start.
  unfold re_dash. rewrite replaceAll_map_class. reflexivity.
Qed.

Lemma capitalizeWords_length b (s : str) : length (capitalizeWords b s) = length s.
Proof. revert b. induction s as [|c s IH]; intros b; simpl; [|rewrite IH]; reflexivity. Qed.

(** ** The file name without its extension is not empty *)

Lemma lastDot_bound (comp : str) i found d :
  path.lastDot comp i found = Some d →
  (∀ d0, found = Some d0 → (d0 < i)%nat) →
  (d < i + length comp)%nat.
Proof.
  revert i found. induction comp as [|c comp IH]; intros i found H Hf; simpl in *.
  - specialize (Hf d H). lia.
  - apply IH in H; [lia|]. intros d0. destruct (c =? DOT).
    + intros [= <-]. lia.
    + intros Hd. specialize (Hf d0 Hd). lia.
Qed.

Lemma lastComponent_length (p : str) :
  (length (path.lastComponent p) ≤ length p)%nat.
Proof.
  unfold path.lastComponent. rewrite length_rev.
  etransitivity; [apply takeWhile_length|].
  destruct (dropWhile_suffix path.isSep (rev p)) as [pre Hs].
  apply (f_equal length) in Hs. rewrite length_app, length_rev in Hs. lia.
Qed.

Lemma endsWith_drop (d : nat) (s : str) :
  (d ≤ length s)%nat → endsWith (drop d s) s = true.
Proof.
  intros Hd. unfold endsWith, str_eqb. rewrite length_drop.
  replace (length s - (length s - d))%nat with d by lia.
  rewrite bool_decide_eq_true_2 by reflexivity.
  apply Nat.leb_le. lia.
Qed.

Lemma basename_ext_extname_nonempty (p : str) :
  path.basename p ≠ [] → path.basename_ext p (path.extname p) ≠ [].
Proof.
  intros Hb. unfold path.basename in Hb. unfold path.basename_ext, path.extname.
  set (comp := path.lastComponent p) in *.
  destruct (path.lastDot comp 0 None) as [[|d]|] eqn:Hdot;
    try (cbn [length Nat.eqb orb]; exact Hb).
  destruct (str_eqb comp [DOT; DOT]); [cbn [length Nat.eqb orb]; exact Hb|].
  apply lastDot_bound in Hdot; [|discriminate]. simpl in Hdot.
  pose proof (lastComponent_length p) as Hlen. fold comp in Hlen.
  destruct ((length (drop (S d) comp) =? 0)%nat
            || (length p <? length (drop (S d) comp))%nat); [exact Hb|].
  destruct (str_eqb (drop (S d) comp) p) eqn:He.
  { apply str_eqb_eq in He. apply (f_equal length) in He.
    rewrite length_drop in He. lia. }
  fold comp. rewrite endsWith_drop by lia.
  destruct (str_eqb comp (drop (S d) comp)); [exact Hb|].
  intros Hnil. apply (f_equal length) in Hnil.
  rewrite length_take, length_drop in Hnil. simpl in Hnil. lia.
Qed.

Lemma titleFromPath_nonempty (filePath : str) :
  path.basename filePath ≠ [] → titleFromPath filePath ≠ [].
Proof.
  intros Hb Hnil. apply (basename_ext_extname_nonempty _ Hb).
  rewrite titleFromPath_words in Hnil. apply (f_equal length) in Hnil.
  rewrite capitalizeWords_length, length_map in Hnil.
  destruct (path.basename_ext filePath (path.extname filePath));
    [reflexivity | discriminate].
Qed.

(** ** The heading pattern *)

Lemma isLineTerminator_isSpace c : isLineTerminator c = true → isSpace c = true.
Proof.
  unfold isLineTerminator, isSpace, in_range. intros H.
  repeat (apply orb_true_iff in H as [H | H]);
    apply N.eqb_eq in H; subst c; reflexivity.
Qed.

Lemma notSpace_isDot c : isSpace c = false → isDot c = true.
Proof.
  intros H. unfold isDot. destruct (isLineTerminator c) eqn:Hl; [|reflexivity].
  apply isLineTerminator_isSpace in Hl. congruence.
Qed.

Lemma drop_takeWhile p (s : str) : drop (length (takeWhile p s)) s = dropWhile p s.
Proof.
  induction s as [|c s IH]; simpl; [reflexivity|].
  destruct (p c); simpl; [exact IH | reflexivity].
Qed.

Lemma takeWhile_app_stop p (ws : str) c r :
  Forall (fun d => p d = true) ws → p c = false →
  takeWhile p (ws ++ c :: r) = ws.
Proof.
  intros Hws Hc. induction Hws as [|d ws Hd _ IH]; simpl.
  - rewrite Hc. reflexivity.
  - rewrite Hd. f_equal. exact IH.
Qed.

Lemma m_Seq ml r1 r2 st k :
  m ml (Seq r1 r2) st k = m ml r1 st (fun st1 => m ml r2 st1 k).
Proof. reflexivity. Qed.

Lemma m_Rep ml lo hi greedy p st k :
  m ml (Rep lo hi greedy p) st k
    = rep_class p lo hi greedy (caps st) (before st) (after st) k.
Proof. reflexivity. Qed.

Lemma m_Grp ml i r st k :
  m ml (Grp i r) st k =
    m ml r st (fun st1 =>
      k (MState (before st1) (after st1)
           ((i, take (length (after st) - length (after st1)) (after st))
            :: caps st1))).
Proof. reflexivity. Qed.

Lemma m_Eol_true st :
  (∀ d, head (after st) = Some d → isLineTerminator d = true) →
  m true Eol st Some = Some st.
Proof.
  intros H. cbn [m]. unfold nextChar. destruct (head (after st)) as [d|]; [|reflexivity].
  rewrite (H d eq_refl). reflexivity.
Qed.

(** The heading text: the characters of the line from [s] on. *)
Lemma m_heading_text bef (s : str) :
  (1 ≤ length (takeWhile isDot s))%nat →
  m true (Seq (Grp 1 (Plus isDot)) Eol) (MState bef s []) Some
    = Some (MState (rev (takeWhile isDot s) ++ bef) (dropWhile isDot s)
                   [(1%nat, takeWhile isDot s)]).
Proof.
  intros Hrun. rewrite m_Seq, m_Grp. unfold Plus at 1. rewrite m_Rep.
  cbn [caps before after].
  assert (Hend : ∀ d, head (dropWhile isDot s) = Some d → isLineTerminator d = true).
  { intros d Hd. destruct (dropWhile isDot s) as [|d' t] eqn:Hdw; [discriminate|].
    injection Hd as ->. apply dropWhile_head in Hdw. unfold isDot in Hdw.
    destruct (isLineTerminator d); [reflexivity | discriminate]. }
  assert (Hlen : (length s - length (dropWhile isDot s))%nat
                 = length (takeWhile isDot s)).
  { rewrite <- (takeWhile_dropWhile isDot s) at 1. rewrite length_app. lia. }
  rewrite rep_class_greedy_max; unfold rep_count.
  - cbn [before after caps]. rewrite drop_takeWhile, <- takeWhile_take.
    rewrite m_Eol_true by exact Hend.
    rewrite Hlen, <- takeWhile_take. reflexivity.
  - exact Hrun.
  - cbn [before after caps]. rewrite drop_takeWhile.
    rewrite m_Eol_true by exact Hend. eexists. reflexivity.
Qed.

(** After the [#]: white space [ws], then the heading text from [c] on. *)
Lemma m_heading_tail bef (ws : str) c r :
  ws ≠ [] → blank ws → isSpace c = false →
  ∃ st,
    m true (Seq (Plus isSpace) (Seq (Grp 1 (Plus isDot)) Eol))
      (MState bef (ws ++ c :: r) []) Some = Some st
    ∧ caps st = [(1%nat, takeWhile isDot (c :: r))].
Proof.
  intros Hne Hws Hc. rewrite m_Seq. unfold Plus at 1. rewrite m_Rep.
  cbn [caps before after].
  assert (Hrun : (1 ≤ length (takeWhile isDot (c :: r)))%nat).
  { simpl. rewrite (notSpace_isDot _ Hc). simpl. lia. }
  assert (Hcount : rep_count isSpace None (ws ++ c :: r) = length ws).
  { unfold rep_count. rewrite takeWhile_app_stop by assumption. reflexivity. }
  rewrite rep_class_greedy_max; rewrite Hcount.
  - rewrite drop_app_length. rewrite m_heading_text by exact Hrun.
    eexists. split; reflexivity.
  - destruct ws; [congruence | simpl; lia].
  - rewrite drop_app_length. rewrite m_heading_text by exact Hrun.
    eexists. reflexivity.
Qed.

Lemma last_blank (ws : str) :
  ws ≠ [] → blank ws → ∃ c, last ws = Some c ∧ isSpace c = true.
Proof.
  intros Hne Hws. destruct (last ws) as [c|] eqn:Hl.
  - exists c. split; [reflexivity|].
    apply last_Some in Hl as [l' ->]. apply Forall_app in Hws as [_ Hws].
    apply Forall_cons in Hws as [Hc _]. exact Hc.
  - apply last_None in Hl. contradiction.
Qed.

(** On a text that does not end in white space, the heading pattern
    captures a text that is not blank. *)
Lemma heading_capture_nonblank bef aft mr :
  match_at true re_h1 bef aft = Some mr → noTrailingSpace aft →
  ∃ t, cap 1 mr = Some t ∧ ¬ blank t.
Proof.
  intros Hat Hnts. apply match_at_inv in Hat as (st & Hm & ->).
  unfold re_h1 in Hm. cbn [Seqs] in Hm.
  assert (Hm' : m true (Seq (Chr (isChar HASH))
                   (Seq (Plus isSpace) (Seq (Grp 1 (Plus isDot)) Eol)))
                  (MState bef aft []) Some = Some st).
  { rewrite m_Bol_seq in Hm. destruct (prevChar _) as [c0|]; [|exact Hm].
    destruct (true && isLineTerminator c0); [exact Hm | discriminate]. }
  clear Hm. rewrite m_Seq in Hm'.
  apply m_Chr_inv in Hm' as (c0 & rest & Ha & _ & Hm).
  cbn [after before caps] in Ha, Hm. subst aft.
  assert (Hws : takeWhile isSpace rest ≠ []).
  { pose proof Hm as Hm2. rewrite m_Seq in Hm2. unfold Plus at 1 in Hm2.
    apply m_Rep_inv in Hm2 as (n & Hn & _ & Hlen & Hall & _); [|discriminate].
    cbn [after] in Hlen, Hall. destruct rest as [|d rest]; [simpl in Hlen; lia|].
    destruct n as [|n]; [lia|]. simpl in Hall.
    apply Forall_cons in Hall as [Hd _]. simpl. rewrite Hd. discriminate. }
  pose proof (takeWhile_Forall isSpace rest) as Hblank.
  rewrite <- (takeWhile_dropWhile isSpace rest) in Hm, Hnts.
  destruct (dropWhile isSpace rest) as [|c r] eqn:Hd.
  - exfalso. rewrite app_nil_r in Hnts.
    destruct (last_blank _ Hws Hblank) as (d & Hl & Hsp).
    assert (last (c0 :: takeWhile isSpace rest) = Some d) as Hl'.
    { destruct (takeWhile isSpace rest); [congruence | exact Hl]. }
    specialize (Hnts d Hl'). congruence.
  - apply dropWhile_head in Hd.
    destruct (m_heading_tail (c0 :: bef) _ c r Hws Hblank Hd) as (st' & Hst & Hcaps).
    rewrite Hst in Hm. injection Hm as <-.
    exists (takeWhile isDot (c :: r)). unfold cap. cbn [m_caps].
    rewrite Hcaps. split; [reflexivity|].
    simpl. rewrite (notSpace_isDot _ Hd). intros Hb.
    apply Forall_cons in Hb as [Hb _]. congruence.
Qed.

Lemma noTrailingSpace_suffix (pre aft : str) :
  aft ≠ [] → noTrailingSpace (pre ++ aft) → noTrailingSpace aft.
Proof.
  intros Hne H c Hl. apply H. rewrite last_app, Hl. reflexivity.
Qed.

Lemma search_heading_nonblank (body : str) mr :
  search true re_h1 body = Some mr → noTrailingSpace body →
  ∃ t, cap 1 mr = Some t ∧ trim t ≠ [].
Proof.
  intros Hs Hnts. apply search_from_Some in Hs as (pre & aft & -> & Hat & _).
  assert (aft ≠ []) as Hne.
  { intros ->. apply match_at_inv in Hat as (st & Hm & _).
    unfold re_h1 in Hm. cbn [Seqs] in Hm. rewrite m_Bol_seq in Hm.
    cbn [m after] in Hm.
    destruct (prevChar _) as [c0|]; [destruct (true && isLineTerminator c0)|];
      discriminate. }
  apply noTrailingSpace_suffix in Hnts; [|exact Hne].
  destruct (heading_capture_nonblank _ _ _ Hat Hnts) as (t & Hc & Hb).
  exists t. split; [exact Hc|]. rewrite trim_nil. exact Hb.
Qed.

(** The bodies handed to [extractTitle] by [discoverFiles] are trimmed. *)
Lemma trim_noTrailingSpace (s : str) : noTrailingSpace (trim s).
Proof.
  intros c Hl. unfold trim in Hl.
  destruct (dropWhile isSpace (rev (dropWhile isSpace s))) as [|d t] eqn:Hd;
    [discriminate|].
  apply dropWhile_head in Hd. cbn [rev] in Hl. rewrite last_snoc in Hl.
  injection Hl as <-. exact Hd.
Qed.

Lemma processed_body_trimmed (text : str) :
  noTrailingSpace (content (processMDContent text))
  ∧ noTrailingSpace (content (processMDXContent text)).
Proof.
  split.
  - unfold processMDContent. destruct (frontmatterOf text);
      apply trim_noTrailingSpace.
  - unfold processMDXContent.
    destruct (match frontmatterOf text with Some _ => _ | None => _ end).
    apply trim_noTrailingSpace.
Qed.

(* ===================================================================== *)
(** * The block-header parser (lines 87-109 and 148-163) *)
(* ===================================================================== *)

Lemma dropLastQuote_cons c (s : str) :
  s ≠ [] → dropLastQuote (c :: s) = c :: dropLastQuote s.
Proof. destruct s; [congruence | reflexivity]. Qed.

Lemma match_at_outer_quote_inner b bef c aft :
  match_at false re_outer_quote (b :: bef) (c :: aft) =
    if isQuote c && bool_decide (aft = [])
    then Some (RMatch (rev (b :: bef)) [c] [] [])
    else None.
Proof.
  unfold match_at, re_outer_quote. cbn [m]. unfold prevChar, nextChar.
  cbn [before after head caps andb].
  destruct (isQuote c); [|reflexivity].
  destruct aft as [|d aft]; cbn [head andb].
  - rewrite bool_decide_eq_true_2 by done. reflexivity.
  - rewrite bool_decide_eq_false_2 by done. reflexivity.
Qed.

Lemma replace_outer_quote_inner b bef (s : str) :
  replace_all_from false re_outer_quote erase (b :: bef) s 0 = dropLastQuote s.
Proof.
  revert b bef. induction s as [|c s IH]; intros b bef.
  - reflexivity.
  - cbn [replace_all_from]. rewrite match_at_outer_quote_inner.
    destruct (isQuote c) eqn:Hq; cbn [andb].
    + destruct s as [|d s].
      * rewrite bool_decide_eq_true_2 by done. simpl. rewrite Hq. reflexivity.
      * rewrite bool_decide_eq_false_2 by done.
        rewrite IH. reflexivity.
    + rewrite IH. destruct s as [|d s]; [simpl; rewrite Hq|]; reflexivity.
Qed.

(** The removal of [^['\x22]|['\x22]$] takes away one leading quote and
    one trailing quote. *)
Lemma replace_outer_quote (s : str) :
  replaceAll false re_outer_quote erase s = stripOuterQuotes s.
Proof.
  unfold replaceAll. destruct s as [|c s]; [reflexivity|].
  cbn [replace_all_from stripOuterQuotes].
  unfold match_at, re_outer_quote. cbn [m]. unfold prevChar.
  cbn [before after head caps].
  destruct (isQuote c) eqn:Hq.
  - cbn [after m_text]. replace (length (c :: s) - length s)%nat with 1%nat by (simpl; lia).
    cbn [take length erase app]. apply replace_outer_quote_inner.
  - f_equal. apply replace_outer_quote_inner.
Qed.

Lemma unquote_spec (v : str) : unquote v = stripOuterQuotes (trim v).
Proof. apply replace_outer_quote. Qed.

Lemma isWord_notSpace c : isWord c = true → isSpace c = false.
Proof.
  intros Hw. destruct (isSpace c) eqn:Hs; [|reflexivity]. exfalso.
  assert (48 ≤ c ≤ 122) as Hrange.
  { unfold isWord, in_range in Hw.
    repeat (apply orb_true_iff in Hw as [Hw | Hw]);
      try (apply andb_true_iff in Hw as [H1 H2];
           apply N.leb_le in H1; apply N.leb_le in H2; lia).
    apply N.eqb_eq in Hw. lia. }
  unfold isSpace, in_range in Hs.
  repeat (apply orb_true_iff in Hs as [Hs | Hs]);
    try (apply andb_true_iff in Hs as [H1 H2];
         apply N.leb_le in H1; apply N.leb_le in H2; lia);
    apply N.eqb_eq in Hs; lia.
Qed.

Lemma dropWhile_id p (s : str) :
  (∀ c, head s = Some c → p c = false) → dropWhile p s = s.
Proof.
  destruct s as [|c s]; [reflexivity|]. intros H. simpl.
  rewrite (H c eq_refl). reflexivity.
Qed.

Lemma trim_words (s : str) : Forall (fun c => isWord c = true) s → trim s = s.
Proof.
  intros H. unfold trim.
  assert (Hns : Forall (fun c => isSpace c = false) s).
  { eapply Forall_impl; [exact H|]. intros c. apply isWord_notSpace. }
  rewrite (dropWhile_id isSpace s).
  - rewrite dropWhile_id; [apply rev_involutive|].
    intros c Hc. apply Forall_rev in Hns.
    destruct (rev s); [discriminate|]. injection Hc as ->.
    apply Forall_cons in Hns as [Hc _]. exact Hc.
  - intros c Hc. destruct s; [discriminate|]. injection Hc as ->.
    apply Forall_cons in Hns as [Hc _]. exact Hc.
Qed.

(** The key found on a line is a non-empty word. *)
Lemma lineMatch_key (line k v : str) :
  lineMatch line = Some (k, v) → k ≠ [] ∧ Forall (fun c => isWord c = true) k.
Proof.
  unfold lineMatch. destruct (search false re_line line) as [mr|] eqn:Hs;
    [|discriminate].
  destruct (cap 1 mr) as [k'|] eqn:Hk; [|discriminate].
  destruct (cap 2 mr) as [v'|] eqn:Hv; [|discriminate].
  intros [= -> ->].
  apply search_from_Some in Hs as (pre & rest & _ & Hat & _).
  apply match_at_inv in Hat as (st & Hm & ->).
  unfold re_line in Hm. cbn [Seqs] in Hm. rewrite m_Bol_seq in Hm.
  assert (Hm' : m false (Seq (Grp 1 (Plus isWord))
                   (Seq (Chr (isChar 58))
                      (Seq (Star isSpace) (Seq (Grp 2 (Plus isDot)) Eol))))
                  (MState (rev pre ++ []) rest []) Some = Some st).
  { destruct (prevChar _) as [c0|]; [|exact Hm].
    destruct (false && isLineTerminator c0); [exact Hm | discriminate]. }
  clear Hm. rewrite m_Seq, m_Grp in Hm'. unfold Plus at 1 in Hm'.
  apply m_Rep_inv in Hm' as (n & Hn & _ & Hlen & Hall & Hm); [|discriminate].
  cbn [after before caps] in Hlen, Hall, Hm.
  rewrite take_consumed in Hm by assumption.
  rewrite m_Seq in Hm. apply m_Chr_inv in Hm as (c1 & a1 & _ & _ & Hm).
  cbn [after before caps] in Hm. rewrite m_Seq in Hm. unfold Star in Hm.
  apply m_Rep_inv in Hm as (n1 & _ & _ & _ & _ & Hm); [|discriminate].
  cbn [after before caps] in Hm. rewrite m_Seq, m_Grp in Hm.
  unfold Plus in Hm.
  apply m_Rep_inv in Hm as (n2 & _ & _ & _ & _ & Hm); [|discriminate].
  cbn [after before caps] in Hm.
  cbn [m] in Hm. unfold nextChar in Hm. cbn [after] in Hm.
  assert (caps st = [(2%nat, take (length (drop n1 a1) - length (drop n2 (drop n1 a1))) (drop n1 a1));
                     (1%nat, take n rest)]) as Hcaps.
  { destruct (head (drop n2 (drop n1 a1))) as [d|].
    - destruct (false && isLineTerminator d); [|discriminate].
      injection Hm as <-. reflexivity.
    - injection Hm as <-. reflexivity. }
  unfold cap in Hk. cbn [m_caps] in Hk. rewrite Hcaps in Hk.
  cbn in Hk. injection Hk as <-. split; [|exact Hall].
  intros Hnil. apply (f_equal length) in Hnil.
  rewrite length_take in Hnil. simpl in Hnil. lia.
Qed.

Lemma parseLine_lineMatch (mk : str → value) (md : FileMetadata) (line : str) :
  parseLine mk md line =
    match lineMatch line with
    | Some (k, v) => setProperty k (mk v) md
    | None => md
    end.
Proof.
  unfold parseLine. destruct (lineMatch line) as [[k v]|] eqn:Hlm.
  - destruct (lineMatch_key _ _ _ Hlm) as [Hne Hw].
    unfold lineMatch in Hlm. destruct (search false re_line line) as [mr|];
      [|discriminate].
    destruct (cap 1 mr) as [k'|]; [|discriminate].
    destruct (cap 2 mr) as [v'|]; [|discriminate].
    injection Hlm as -> ->. rewrite (trim_words _ Hw).
    apply truthy_true in Hne. rewrite Hne. reflexivity.
  - unfold lineMatch in Hlm. destruct (search false re_line line) as [mr|];
      [|reflexivity].
    destruct (cap 1 mr) as [k'|]; [|reflexivity].
    destruct (cap 2 mr) as [v'|]; [discriminate|reflexivity].
Qed.

(** C4, as amended: on a line of the block header where the pattern finds
    the key [k] and the value text [v], both parsers store under [k] the
    trimmed value without one leading and one trailing quote; the
    extended-dialect parser alone turns a bracket-delimited value into the
    sequence of its comma-separated pieces, each trimmed and then freed of
    every quote character, empty pieces dropped, while the plain parser
    keeps the bracketed text as a string.  The key [__proto__] stores
    nothing, and other lines change nothing.  On the scenario of the
    specification, [tags: [a, b]] gives the sequence [a], [b] in
    [processMDXFile] and the string [[a, b]] in [processMDFile]. *)
Theorem C4_header_values (md : FileMetadata) (line : str) :
  match lineMatch line with
  | Some (k, v) =>
      let s := stripOuterQuotes (trim v) in
      if str_eqb k "__proto__"
      then parseLine mdValue md line = md ∧ parseLine mdxValue md line = md
      else
        parseLine mdValue md line = <[k := VStr s]> md
        ∧ parseLine mdxValue md line =
            <[k := if startsWith [LBRACKET] s && endsWith [RBRACKET] s
                   then VArr (filter (fun t => t ≠ [])
                                (map (fun t => dropQuotes (trim t))
                                     (split COMMA (slice s 1 (-1)))))
                   else VStr s]> md
  | None => parseLine mdValue md line = md ∧ parseLine mdxValue md line = md
  end
  ∧ metadata (processMDXContent headerScenario)
      = {[ k_title := VStr "Hello"; k_tags := VArr [of_string "a"; of_string "b"] ]}
  ∧ metadata (processMDContent headerScenario)
      = {[ k_title := VStr "Hello"; k_tags := VStr "[a, b]" ]}.
Proof.
  split; [|split; vm_compute; reflexivity].
  rewrite !parseLine_lineMatch. destruct (lineMatch line) as [[k v]|];
    [|split; reflexivity].
  cbn zeta. unfold setProperty.
  destruct (str_eqb k (of_string "__proto__")); [split; reflexivity|].
  unfold mdValue, mdxValue. rewrite unquote_spec.
  split; [reflexivity|].
  destruct (startsWith [LBRACKET] _ && endsWith [RBRACKET] _); [|reflexivity].
  rewrite listItems_spec. reflexivity.
Qed.

(** C4, as stated, fails for the plain dialect: on the scenario of the
    specification [processMDFile] stores the text [[a, b]] under [tags],
    not the sequence of [a] and [b]. *)
Lemma C4_plain_dialect_counterexample :
  metadata (processMDContent headerScenario) !! k_tags = Some (VStr "[a, b]")
  ∧ metadata (processMDContent headerScenario) !! k_tags
    ≠ Some (VArr [of_string "a"; of_string "b"]).
Proof. split; vm_compute; [reflexivity | discriminate]. Qed.

(* ===================================================================== *)
(** * The locale and extension rewrite (lines 248-250) *)
(* ===================================================================== *)

Lemma m_Alt ml r1 r2 st k :
  m ml (Alt r1 r2) st k =
    match m ml r1 st k with
    | Some res => Some res
    | None => m ml r2 st k
    end.
Proof. reflexivity. Qed.

Lemma m_Alt_inv ml r1 r2 st k r :
  m ml (Alt r1 r2) st k = Some r →
  m ml r1 st k = Some r ∨ m ml r2 st k = Some r.
Proof.
  rewrite m_Alt. destruct (m ml r1 st k); [intros [= <-]; left | right]; auto.
Qed.

Lemma m_Eol_inv st k r :
  m false Eol st k = Some r → after st = [] ∧ k st = Some r.
Proof.
  cbn [m]. unfold nextChar. destruct (after st); [auto | discriminate].
Qed.

(** The extension alternative [(mdx|md)] followed by the end of the text. *)
Lemma m_ext_inv i st (k : mstate → option mstate) r :
  m false (Seq (Grp i (Alt (Lit "mdx") (Lit "md"))) Eol) st k = Some r →
  ∃ ext, (ext = of_string "mdx" ∨ ext = of_string "md")
    ∧ after st = ext
    ∧ k (MState (rev ext ++ before st) [] ((i, ext) :: caps st)) = Some r.
Proof.
  rewrite m_Seq, m_Grp. intros H. apply m_Alt_inv in H as [H | H];
    apply m_Lit_inv in H as (a & Ha & H); cbn [before after caps] in H;
    apply m_Eol_inv in H as [Hnil H]; cbn [after] in Hnil; subst a;
    rewrite app_nil_r in Ha; rewrite Ha in H |- *;
    [exists (of_string "mdx") | exists (of_string "md")];
    (split; [auto|]); (split; [reflexivity|]); exact H.
Qed.

(** Where the locale pattern matches, the rest of the text is a locale
    suffix with its extension. *)
Lemma match_at_locale_inv bef aft mr :
  match_at false re_locale bef aft = Some mr →
  ∃ loc ext,
    (loc = of_string "en" ∨ loc = of_string "ru")
    ∧ (ext = of_string "mdx" ∨ ext = of_string "md")
    ∧ aft = DOT :: loc ++ DOT :: ext
    ∧ m_pre mr = rev bef ∧ m_post mr = [] ∧ cap 2 mr = Some ext.
Proof.
  intros H. apply match_at_inv in H as (st & Hm & ->).
  unfold re_locale in Hm. cbn [Seqs] in Hm. rewrite m_Seq in Hm.
  apply m_Chr_inv in Hm as (c & a1 & Ha & Hc & Hm).
  cbn [before after caps] in Ha, Hm. unfold isChar in Hc.
  apply N.eqb_eq in Hc. subst c aft.
  rewrite m_Seq, m_Grp in Hm.
  assert (∃ loc a2, (loc = of_string "en" ∨ loc = of_string "ru")
            ∧ a1 = loc ++ a2
            ∧ m false (Seq (Chr (isChar DOT))
                          (Seq (Grp 2 (Alt (Lit "mdx") (Lit "md"))) Eol))
                (MState (rev loc ++ DOT :: bef) a2 [(1%nat, loc)]) Some
              = Some st) as (loc & a2 & Hloc & -> & Hm2).
  { apply m_Alt_inv in Hm as [Hm | Hm];
      apply m_Lit_inv in Hm as (a2 & Ha & Hm);
      cbn [before after caps] in Ha, Hm; subst a1;
      [exists (of_string "en"), a2 | exists (of_string "ru"), a2];
      (split; [auto|]); (split; [reflexivity|]);
      rewrite length_app in Hm;
      replace (length (_ : str) + length a2 - length a2)%nat with 2%nat in Hm
        by (simpl; lia);
      exact Hm. }
  clear Hm. rewrite m_Seq in Hm2.
  apply m_Chr_inv in Hm2 as (c & a3 & Ha & Hc & Hm).
  cbn [before after caps] in Ha, Hm. unfold isChar in Hc.
  apply N.eqb_eq in Hc. subst c a2.
  apply m_ext_inv in Hm as (ext & Hext & Ha & Hm).
  cbn [before after caps] in Ha, Hm. subst a3. injection Hm as <-.
  exists loc, ext. cbn [m_pre m_post after]. unfold cap. cbn [m_caps caps lookup_cap].
  repeat split; try assumption. 
Qed.

Lemma match_at_md_ext_inv bef aft mr :
  match_at false re_md_ext bef aft = Some mr →
  ∃ ext, (ext = of_string "mdx" ∨ ext = of_string "md")
    ∧ aft = DOT :: ext ∧ m_pre mr = rev bef ∧ m_post mr = [].
Proof.
  intros H. apply match_at_inv in H as (st & Hm & ->).
  unfold re_md_ext in Hm. cbn [Seqs] in Hm. rewrite m_Seq in Hm.
  apply m_Chr_inv in Hm as (c & a1 & Ha & Hc & Hm).
  cbn [before after caps] in Ha, Hm. unfold isChar in Hc.
  apply N.eqb_eq in Hc. subst c aft.
  apply m_ext_inv in Hm as (ext & Hext & Ha & Hm).
  cbn [before after caps] in Ha, Hm. subst a1. injection Hm as <-.
  exists ext. cbn [m_pre m_post after]. repeat split; assumption.
Qed.

(** The first rewrite either turns a locale suffix with its extension into
    the extension alone, or leaves a text without such a suffix as it is. *)
Lemma replace_locale_cases (s : str) :
  (∃ pre loc ext,
      (loc = of_string "en" ∨ loc = of_string "ru")
      ∧ (ext = of_string "mdx" ∨ ext = of_string "md")
      ∧ s = pre ++ DOT :: loc ++ DOT :: ext
      ∧ replace1 false re_locale (fun mr => DOT :: capOr 2 mr) s
        = pre ++ DOT :: ext)
  ∨ ((∀ pre loc ext,
        (loc = of_string "en" ∨ loc = of_string "ru") →
        (ext = of_string "mdx" ∨ ext = of_string "md") →
        s ≠ pre ++ DOT :: loc ++ DOT :: ext)
     ∧ replace1 false re_locale (fun mr => DOT :: capOr 2 mr) s = s).
Proof.
  unfold replace1, search.
  destruct (search_from false re_locale [] s) as [mr|] eqn:Hs.
  - left. apply search_from_Some in Hs as (pre & rest & -> & Hat & _).
    apply match_at_locale_inv in Hat
      as (loc & ext & Hloc & Hext & -> & Hpre & Hpost & Hcap).
    exists pre, loc, ext. repeat split; try assumption.
    rewrite Hpre, Hpost. unfold capOr. rewrite Hcap.
    rewrite !app_nil_r, rev_involutive. reflexivity.
  - right. split; [|reflexivity].
    intros pre loc ext Hloc Hext ->.
    pose proof (proj1 (search_from_None _ _ _ _) Hs pre _ eq_refl) as Hnone.
    destruct Hloc as [-> | ->]; destruct Hext as [-> | ->];
      vm_compute in Hnone; discriminate.
Qed.

(** The second rewrite turns a final [.mdx] or [.md] into [.md]. *)
Lemma replace_md_ext_cases (s : str) :
  (∃ pre ext,
      (ext = of_string "mdx" ∨ ext = of_string "md")
      ∧ s = pre ++ DOT :: ext
      ∧ replace1 false re_md_ext (fun _ => of_string ".md") s
        = pre ++ of_string ".md")
  ∨ ((∀ pre ext, (ext = of_string "mdx" ∨ ext = of_string "md") →
        s ≠ pre ++ DOT :: ext)
     ∧ replace1 false re_md_ext (fun _ => of_string ".md") s = s).
Proof.
  unfold replace1, search.
  destruct (search_from false re_md_ext [] s) as [mr|] eqn:Hs.
  - left. apply search_from_Some in Hs as (pre & rest & -> & Hat & _).
    apply match_at_md_ext_inv in Hat as (ext & Hext & -> & Hpre & Hpost).
    exists pre, ext. repeat split; try assumption.
    rewrite Hpre, Hpost. rewrite !app_nil_r, rev_involutive. reflexivity.
  - right. split; [|reflexivity].
    intros pre ext Hext ->.
    pose proof (proj1 (search_from_None _ _ _ _) Hs pre _ eq_refl) as Hnone.
    destruct Hext as [-> | ->]; vm_compute in Hnone; discriminate.
Qed.

Lemma endsWith_app (pre lit : str) : endsWith lit (pre ++ lit) = true.
Proof.
  unfold endsWith, str_eqb. rewrite length_app.
  replace (length pre + length lit - length lit)%nat with (length pre) by lia.
  rewrite drop_app_length. rewrite bool_decide_eq_true_2 by reflexivity.
  apply Nat.leb_le. lia.
Qed.

Lemma last_char_neq (pre1 pre2 l1 l2 : str) c1 c2 :
  last l1 = Some c1 → last l2 = Some c2 → c1 ≠ c2 →
  pre1 ++ l1 ≠ pre2 ++ l2.
Proof.
  intros H1 H2 Hne Heq. apply (f_equal last) in Heq.
  rewrite !last_app, H1, H2 in Heq. congruence.
Qed.

(** The rewritten path never ends in [.mdx]. *)
Lemma rewriteExt_not_mdx (s pre : str) :
  rewriteExt s ≠ pre ++ DOT :: of_string "mdx".
Proof.
  unfold rewriteExt.
  destruct (replace_md_ext_cases
              (replace1 false re_locale (fun mr => DOT :: capOr 2 mr) s))
    as [(pre2 & ext & _ & _ & ->) | [Hno ->]].
  - apply (last_char_neq _ _ _ _ 100 120); [reflexivity | reflexivity | discriminate].
  - apply Hno. left. reflexivity.
Qed.

(** A path that ends neither in [.mdx] nor in a locale suffix followed by
    [.md] is left unchanged by the rewrite. *)
Lemma rewriteExt_fixed (r : str) :
  (∀ pre, r ≠ pre ++ DOT :: of_string "mdx") →
  endsWithLocale r = false →
  rewriteExt r = r.
Proof.
  intros Hmdx Hloc. unfold rewriteExt.
  assert (Hstep : replace1 false re_locale (fun mr => DOT :: capOr 2 mr) r = r).
  { destruct (replace_locale_cases r)
      as [(pre & loc & ext & Hl & He & Hr & _) | [_ H]]; [|exact H].
    exfalso. destruct He as [-> | ->].
    - apply (Hmdx (pre ++ DOT :: loc)). rewrite Hr, <- app_assoc. reflexivity.
    - unfold endsWithLocale in Hloc. apply orb_false_iff in Hloc as [H1 H2].
      destruct Hl as [-> | ->].
      + change (pre ++ DOT :: of_string "en" ++ DOT :: of_string "md")
          with (pre ++ of_string ".en.md") in Hr.
        rewrite Hr, endsWith_app in H1. discriminate.
      + change (pre ++ DOT :: of_string "ru" ++ DOT :: of_string "md")
          with (pre ++ of_string ".ru.md") in Hr.
        rewrite Hr, endsWith_app in H2. discriminate. }
  rewrite Hstep.
  destruct (replace_md_ext_cases r) as [(pre & ext & He & Hr & ->) | [_ H]];
    [|exact H].
  destruct He as [-> | ->].
  - exfalso. exact (Hmdx pre Hr).
  - symmetry. exact Hr.
Qed.

(** The rewrite only changes a separator-free end of the path, and puts a
    separator-free text in its place. *)
Lemma rewriteExt_suffix (s : str) :
  ∃ pre sfx sfx',
    s = pre ++ sfx ∧ rewriteExt s = pre ++ sfx'
    ∧ Forall (fun c => c ≠ SLASH) sfx ∧ Forall (fun c => c ≠ SLASH) sfx'
    ∧ (sfx' = [] → sfx = []).
Proof.
  assert (Hext : ∀ ext : str, ext = of_string "mdx" ∨ ext = of_string "md" →
                 Forall (fun c => c ≠ SLASH) (DOT :: ext)).
  { intros ext [-> | ->]; repeat constructor; discriminate. }
  assert (Hloc : ∀ loc ext : str,
            loc = of_string "en" ∨ loc = of_string "ru" →
            ext = of_string "mdx" ∨ ext = of_string "md" →
            Forall (fun c => c ≠ SLASH) (DOT :: loc ++ DOT :: ext)).
  { intros loc ext [-> | ->] [-> | ->]; repeat constructor; discriminate. }
  assert (Hmd : Forall (fun c => c ≠ SLASH) (of_string ".md")).
  { repeat constructor; discriminate. }
  unfold rewriteExt.
  destruct (replace_locale_cases s)
    as [(pre & loc & ext & Hl & He & Hs & ->) | [_ ->]].
  - destruct (replace_md_ext_cases (pre ++ DOT :: ext))
      as [(pre2 & ext2 & He2 & Ht & ->) | [Hno _]].
    + assert (pre2 = pre ∧ ext2 = ext) as [-> ->].
      { destruct He as [-> | ->]; destruct He2 as [-> | ->].
        - apply app_inj_2 in Ht as [-> _]; [split; reflexivity | reflexivity].
        - exfalso. revert Ht.
          apply (last_char_neq _ _ _ _ 120 100); [reflexivity | reflexivity | discriminate].
        - exfalso. revert Ht.
          apply (last_char_neq _ _ _ _ 100 120); [reflexivity | reflexivity | discriminate].
        - apply app_inj_2 in Ht as [-> _]; [split; reflexivity | reflexivity]. }
      exists pre, (DOT :: loc ++ DOT :: ext), (of_string ".md").
      split; [exact Hs|]. split; [reflexivity|].
      split; [apply Hloc; assumption|]. split; [exact Hmd | discriminate].
    + exfalso. exact (Hno pre ext He eq_refl).
  - destruct (replace_md_ext_cases s) as [(pre & ext & He & Hs & ->) | [_ ->]].
    + exists pre, (DOT :: ext), (of_string ".md").
      split; [exact Hs|]. split; [reflexivity|].
      split; [apply Hext; assumption|]. split; [exact Hmd | discriminate].
    + exists s, [], []. rewrite app_nil_r. repeat split; constructor.
Qed.

(* ===================================================================== *)
(** * Node's [path] functions on relative paths of proper segments *)
(* ===================================================================== *)

Lemma isSep_false c : c ≠ SLASH → path.isSep c = false.
Proof. intros H. unfold path.isSep. apply N.eqb_neq. exact H. Qed.

Lemma notSep_true c : c ≠ SLASH → path.notSep c = true.
Proof. intros H. unfold path.notSep. rewrite isSep_false by exact H. reflexivity. Qed.

Lemma sepFree_notSep (n : str) :
  Forall (fun c => c ≠ SLASH) n → Forall (fun c => path.notSep c = true) n.
Proof. intros H. eapply Forall_impl; [exact H|]. intros c. apply notSep_true. Qed.

Lemma dropWhile_app_all p (l1 l2 : str) :
  Forall (fun c => p c = true) l1 → dropWhile p (l1 ++ l2) = dropWhile p l2.
Proof.
  induction 1 as [|c l1 Hc _ IH]; simpl; [reflexivity|]. rewrite Hc. exact IH.
Qed.

Lemma takeWhile_app_all p (l1 l2 : str) :
  Forall (fun c => p c = true) l1 → takeWhile p (l1 ++ l2) = l1 ++ takeWhile p l2.
Proof.
  induction 1 as [|c l1 Hc _ IH]; simpl; [reflexivity|]. rewrite Hc, IH. reflexivity.
Qed.

Lemma dropWhile_isSep_rev (n rest : str) :
  n ≠ [] → Forall (fun c => c ≠ SLASH) n →
  dropWhile path.isSep (rev n ++ rest) = rev n ++ rest.
Proof.
  intros Hne Hn. apply dropWhile_id. intros c Hc.
  apply Forall_rev in Hn. destruct (rev n) as [|d t] eqn:Hr.
  - apply (f_equal (@rev N)) in Hr. rewrite rev_involutive in Hr. contradiction.
  - injection Hc as ->. apply Forall_cons in Hn as [Hd _]. apply isSep_false, Hd.
Qed.

(** The last component of a path that ends in a separator-free name. *)
Lemma lastComponent_name (P n : str) :
  n ≠ [] → Forall (fun c => c ≠ SLASH) n →
  (P = [] ∨ ∃ P', P = P' ++ [SLASH]) →
  path.lastComponent (P ++ n) = n.
Proof.
  intros Hne Hn HP. unfold path.lastComponent. rewrite rev_app_distr.
  rewrite dropWhile_isSep_rev by assumption.
  rewrite takeWhile_app_all by (apply sepFree_notSep, Forall_rev, Hn).
  assert (takeWhile path.notSep (rev P) = []) as ->.
  { destruct HP as [-> | [P' ->]]; [reflexivity|].
    rewrite rev_app_distr. reflexivity. }
  rewrite app_nil_r. apply rev_involutive.
Qed.

Lemma trailing_name (P n : str) :
  n ≠ [] → Forall (fun c => c ≠ SLASH) n → path.trailing (P ++ n) = [].
Proof.
  intros Hne Hn. unfold path.trailing. rewrite rev_app_distr.
  apply Forall_rev in Hn. destruct (rev n) as [|d t] eqn:Hr.
  - apply (f_equal (@rev N)) in Hr. rewrite rev_involutive in Hr. contradiction.
  - apply Forall_cons in Hn as [Hd _]. simpl. rewrite isSep_false by exact Hd.
    reflexivity.
Qed.

(** [dirname] of a bare file name. *)
Lemma dirname_name (n : str) :
  n ≠ [] → Forall (fun c => c ≠ SLASH) n → path.dirname n = [DOT].
Proof.
  intros Hne Hn. destruct n as [|c0 t]; [contradiction|].
  apply Forall_cons in Hn as [Hc Ht]. unfold path.dirname.
  rewrite (isSep_false _ Hc).
  assert (dropWhile path.notSep (dropWhile path.isSep (rev t)) = []) as ->;
    [|reflexivity].
  apply dropWhile_nil, dropWhile_Forall, sepFree_notSep, Forall_rev, Ht.
Qed.

(** [dirname] of a directory path followed by a file name. *)
Lemma dirname_dir_name (D n : str) c D' :
  D = c :: D' → c ≠ SLASH →
  n ≠ [] → Forall (fun c => c ≠ SLASH) n →
  path.dirname (D ++ SLASH :: n) = D.
Proof.
  intros -> Hc Hne Hn. cbn [app]. unfold path.dirname.
  rewrite (isSep_false _ Hc). rewrite rev_app_distr. cbn [rev].
  rewrite <- app_assoc. rewrite dropWhile_isSep_rev by assumption.
  rewrite dropWhile_app_all by (apply sepFree_notSep, Forall_rev, Hn).
  cbn [app dropWhile]. replace (path.notSep SLASH) with false by reflexivity.
  cbn [length andb]. rewrite length_rev.
  change (c :: D' ++ SLASH :: n) with ((c :: D') ++ SLASH :: n).
  rewrite take_app_length'; [reflexivity | reflexivity].
Qed.

(** [basename] without the [.md] suffix. *)
Lemma basename_ext_md (P stem : str) :
  stem ≠ [] → Forall (fun c => c ≠ SLASH) stem →
  (P = [] ∨ ∃ P', P = P' ++ [SLASH]) →
  path.basename_ext (P ++ stem ++ of_string ".md") ".md" = stem.
Proof.
  intros Hne Hstem HP. unfold path.basename_ext.
  assert (Hn : Forall (fun c => c ≠ SLASH) (stem ++ of_string ".md")).
  { apply Forall_app. split; [exact Hstem|]. repeat constructor; discriminate. }
  assert (Hnn : stem ++ of_string ".md" ≠ []) by (destruct stem; discriminate).
  rewrite (lastComponent_name P _ Hnn Hn HP).
  assert (Hlen : (1 ≤ length stem)%nat) by (destruct stem; [contradiction | simpl; lia]).
  assert ((length (of_string ".md") =? 0)%nat
          || (length (P ++ stem ++ of_string ".md") <? length (of_string ".md"))%nat
          = false) as ->.
  { rewrite !length_app. apply orb_false_iff. split; [reflexivity|].
    apply Nat.ltb_ge. simpl. lia. }
  assert (str_eqb (of_string ".md") (P ++ stem ++ of_string ".md") = false) as ->.
  { apply str_eqb_neq. intros H. apply (f_equal length) in H.
    rewrite !length_app in H. simpl in H. lia. }
  rewrite endsWith_app.
  assert (str_eqb (stem ++ of_string ".md") (of_string ".md") = false) as ->.
  { apply str_eqb_neq. intros H. apply (f_equal length) in H.
    rewrite !length_app in H. simpl in H. lia. }
  rewrite length_app.
  replace (length stem + length (of_string ".md") - length (of_string ".md"))%nat
    with (length stem) by lia.
  apply take_app_length.
Qed.

(** ** Joined segments *)

Lemma join_snoc (sep : str) (segs : list str) (n : str) :
  segs ≠ [] → join sep (segs ++ [n]) = join sep segs ++ sep ++ n.
Proof.
  induction segs as [|a segs IH]; [contradiction|]. intros _.
  destruct segs as [|b segs]; [reflexivity|].
  change (join sep ((a :: b :: segs) ++ [n]))
    with (a ++ sep ++ join sep ((b :: segs) ++ [n])).
  rewrite IH by discriminate.
  change (join sep (a :: b :: segs)) with (a ++ sep ++ join sep (b :: segs)).
  rewrite <- !app_assoc. reflexivity.
Qed.

Lemma split_sepFree (n : str) :
  Forall (fun c => c ≠ SLASH) n → split SLASH n = [n].
Proof.
  induction 1 as [|c n Hc _ IH]; [reflexivity|]. simpl.
  destruct (N.eqb_spec c SLASH); [contradiction|]. rewrite IH. reflexivity.
Qed.

Lemma split_app_sep (n rest : str) :
  Forall (fun c => c ≠ SLASH) n →
  split SLASH (n ++ SLASH :: rest) = n :: split SLASH rest.
Proof.
  induction 1 as [|c n Hc _ IH]; [reflexivity|]. simpl.
  destruct (N.eqb_spec c SLASH); [contradiction|]. rewrite IH. reflexivity.
Qed.

Lemma split_join (segs : list str) :
  segs ≠ [] → Forall properSegment segs →
  split SLASH (join [SLASH] segs) = segs.
Proof.
  induction segs as [|a segs IH]; [contradiction|]. intros _ Hp.
  apply Forall_cons in Hp as [(_ & Ha & _) Hp].
  destruct segs as [|b segs]; [apply split_sepFree, Ha|].
  change (join [SLASH] (a :: b :: segs))
    with (a ++ SLASH :: join [SLASH] (b :: segs)).
  rewrite split_app_sep by exact Ha. f_equal. apply IH; [discriminate | exact Hp].
Qed.

Lemma normalizeSegments_proper allow (segs stack : list str) :
  Forall properSegment segs →
  path.normalizeSegments allow segs stack = rev stack ++ segs.
Proof.
  intros Hp. revert stack. induction Hp as [|sg segs (Hne & _ & Hd & Hdd) _ IH];
    intros stack; cbn [path.normalizeSegments]; [rewrite app_nil_r; reflexivity|].
  apply str_eqb_neq in Hne, Hd, Hdd. rewrite Hne, Hd, Hdd. cbn [orb].
  rewrite IH. cbn [rev]. rewrite <- app_assoc. reflexivity.
Qed.

Lemma join_head (segs : list str) :
  segs ≠ [] → Forall properSegment segs →
  ∃ c D', join [SLASH] segs = c :: D' ∧ c ≠ SLASH.
Proof.
  destruct segs as [|a segs]; [contradiction|]. intros _ Hp.
  apply Forall_cons in Hp as [(Hne & Ha & _) _].
  destruct a as [|c a]; [contradiction|]. apply Forall_cons in Ha as [Hc _].
  destruct segs as [|b segs].
  - exists c, a. split; [reflexivity | exact Hc].
  - exists c, (a ++ SLASH :: join [SLASH] (b :: segs)).
    split; [reflexivity | exact Hc].
Qed.

(** A relative path of proper segments is already normal. *)
Lemma normalize_proper (segs : list str) (n : str) :
  Forall properSegment segs → properSegment n →
  path.normalize (join [SLASH] (segs ++ [n])) = join [SLASH] (segs ++ [n]).
Proof.
  intros Hsegs Hn.
  assert (Hall : Forall properSegment (segs ++ [n]))
    by (apply Forall_app; split; [exact Hsegs | apply Forall_singleton; exact Hn]).
  assert (Hne : segs ++ [n] ≠ []) by (destruct segs; discriminate).
  destruct (join_head _ Hne Hall) as (c & D' & Hj & Hc).
  destruct Hn as (Hnn & Hnsep & _).
  assert (Hform : ∃ P, join [SLASH] (segs ++ [n]) = P ++ n).
  { destruct segs as [|a segs]; [exists []; reflexivity|].
    rewrite join_snoc by discriminate.
    exists (join [SLASH] (a :: segs) ++ [SLASH]). rewrite <- app_assoc. reflexivity. }
  destruct Hform as [P HP].
  unfold path.normalize. rewrite Hj at 1.
  assert (optb path.isSep (head (rev (join [SLASH] (segs ++ [n])))) = false) as ->.
  { rewrite HP, rev_app_distr. apply Forall_rev in Hnsep.
    destruct (rev n) as [|d t] eqn:Hr.
    - apply (f_equal (@rev N)) in Hr. rewrite rev_involutive in Hr. contradiction.
    - apply Forall_cons in Hnsep as [Hd _]. simpl. apply isSep_false, Hd. }
  assert (path.isAbsolute (join [SLASH] (segs ++ [n])) = false) as ->.
  { unfold path.isAbsolute. rewrite Hj. simpl. apply isSep_false, Hc. }
  cbn [negb]. unfold path.normalizeString.
  rewrite split_join by assumption.
  rewrite normalizeSegments_proper by assumption. cbn [rev app].
  rewrite Hj. reflexivity.
Qed.

Lemma path_join_proper (segs : list str) (n : str) :
  segs ≠ [] → Forall properSegment segs → properSegment n →
  path.join [join [SLASH] segs; n] = join [SLASH] segs ++ SLASH :: n.
Proof.
  intros Hne Hsegs Hn. unfold path.join.
  destruct (join_head _ Hne Hsegs) as (c & D' & Hj & _).
  assert (Hnn : n ≠ []) by apply Hn.
  rewrite filter_cons_True by (rewrite Hj; discriminate).
  rewrite filter_cons_True by exact Hnn. rewrite filter_nil.
  change (path.normalize (join [SLASH] segs ++ [SLASH] ++ n)
          = join [SLASH] segs ++ [SLASH] ++ n).
  rewrite <- (join_snoc [SLASH] segs n Hne).
  apply normalize_proper; assumption.
Qed.

(* ===================================================================== *)
(** * Applying the path normalization twice (lines 248-260) *)
(* ===================================================================== *)

Lemma app_slash_split (D name pre sfx : str) :
  D ++ SLASH :: name = pre ++ sfx → Forall (fun c => c ≠ SLASH) sfx →
  ∃ pre', pre = D ++ SLASH :: pre' ∧ name = pre' ++ sfx.
Proof.
  intros Heq Hsfx. apply app_eq_inv in Heq as [(k & _ & Hk) | (k & Hpre & Hk)].
  - exfalso. rewrite Hk in Hsfx. apply Forall_app in Hsfx as [_ Hsfx].
    apply Forall_cons in Hsfx as [Hs _]. congruence.
  - destruct k as [|c k].
    + exfalso. simpl in Hk. rewrite <- Hk in Hsfx.
      apply Forall_cons in Hsfx as [Hs _]. congruence.
    + injection Hk as <- ->. exists k. split; [exact Hpre | reflexivity].
Qed.

(** The rewrite keeps a bare file name a bare file name. *)
Lemma rewriteExt_name (name : str) :
  name ≠ [] → Forall (fun c => c ≠ SLASH) name →
  rewriteExt name ≠ [] ∧ Forall (fun c => c ≠ SLASH) (rewriteExt name).
Proof.
  intros Hne Hn.
  destruct (rewriteExt_suffix name) as (pre & sfx & sfx' & Hs & -> & _ & Hs' & Himp).
  rewrite Hs in Hn. apply Forall_app in Hn as [Hpre _]. split.
  - intros Hnil. apply app_eq_nil in Hnil as [-> ->].
    rewrite (Himp eq_refl) in Hs. contradiction.
  - apply Forall_app. split; assumption.
Qed.

(** The rewrite only touches the file name of a path. *)
Lemma rewriteExt_dir_name (D name : str) :
  name ≠ [] → Forall (fun c => c ≠ SLASH) name →
  ∃ name', rewriteExt (D ++ SLASH :: name) = D ++ SLASH :: name'
           ∧ name' ≠ [] ∧ Forall (fun c => c ≠ SLASH) name'.
Proof.
  intros Hne Hn.
  destruct (rewriteExt_suffix (D ++ SLASH :: name))
    as (pre & sfx & sfx' & Hs & -> & Hsfx & Hsfx' & Himp).
  destruct (app_slash_split _ _ _ _ Hs Hsfx) as (pre' & -> & Hname).
  exists (pre' ++ sfx'). split; [rewrite <- app_assoc; reflexivity|].
  rewrite Hname in Hn. apply Forall_app in Hn as [Hpre _]. split.
  - intros Hnil. apply app_eq_nil in Hnil as [-> ->].
    rewrite (Himp eq_refl) in Hname. contradiction.
  - apply Forall_app. split; assumption.
Qed.

Lemma md_name_proper (d : str) :
  properSegment d → properSegment (d ++ of_string ".md").
Proof.
  intros (Hne & Hsep & _). repeat split.
  - destruct d; discriminate.
  - apply Forall_app. split; [exact Hsep|]. repeat constructor; discriminate.
  - intros H. apply (f_equal length) in H. rewrite length_app in H. simpl in H. lia.
  - intros H. apply (f_equal length) in H. rewrite length_app in H. simpl in H. lia.
Qed.

(** An index file inside a directory: the alias is a fixed point. *)
Lemma indexAlias_alias (ds : list str) (d : str) :
  Forall properSegment ds → properSegment d →
  let D := join [SLASH] (ds ++ [d]) in
  path.basename D = d
  ∧ path.join [D; d ++ of_string ".md"] = D ++ SLASH :: d ++ of_string ".md"
  ∧ indexAlias (D ++ SLASH :: d ++ of_string ".md")
    = D ++ SLASH :: d ++ of_string ".md".
Proof.
  intros Hds Hd D.
  assert (Hall : Forall properSegment (ds ++ [d]))
    by (apply Forall_app; split; [exact Hds | apply Forall_singleton; exact Hd]).
  assert (Hne : ds ++ [d] ≠ []) by (destruct ds; discriminate).
  destruct (join_head _ Hne Hall) as (c & D' & HD & Hc). fold D in HD.
  pose proof Hd as (Hdne & Hdsep & _).
  pose proof (md_name_proper d Hd) as Hmd.
  pose proof Hmd as (Hmne & Hmsep & _).
  assert (Hbase : path.basename D = d).
  { unfold path.basename, D. destruct ds as [|a ds'].
    - apply (lastComponent_name [] d); [assumption | assumption | left; reflexivity].
    - rewrite join_snoc by discriminate. rewrite app_assoc.
      apply lastComponent_name; [assumption | assumption |].
      right. eexists. reflexivity. }
  assert (Hjoin : path.join [D; d ++ of_string ".md"]
                  = D ++ SLASH :: d ++ of_string ".md").
  { apply path_join_proper; assumption. }
  split; [exact Hbase|]. split; [exact Hjoin|].
  unfold indexAlias.
  rewrite (dirname_dir_name D (d ++ of_string ".md") c D' HD Hc Hmne Hmsep).
  rewrite Hbase, Hjoin.
  replace (path.basename_ext (D ++ SLASH :: d ++ of_string ".md") (of_string ".md"))
    with d.
  - apply truthy_true in Hdne. rewrite Hdne.
    destruct (str_eqb d (of_string "index") || str_eqb d (of_string "_index"));
      reflexivity.
  - symmetry.
    change (D ++ SLASH :: d ++ of_string ".md")
      with (D ++ [SLASH] ++ d ++ of_string ".md").
    rewrite app_assoc. apply basename_ext_md; [assumption | assumption |].
    right. eexists. reflexivity.
Qed.

(** What lines 252-260 do to a bare file name: the directory is [.], its
    name is [.], and an index file is renamed [..md]. *)
Lemma indexAlias_at_root (r : str) :
  r ≠ [] → Forall (fun c => c ≠ SLASH) r →
  indexAlias r =
    if str_eqb (path.basename_ext r ".md") "index"
       || str_eqb (path.basename_ext r ".md") "_index"
    then of_string "..md" else r.
Proof.
  intros Hne Hsep. unfold indexAlias. rewrite (dirname_name _ Hne Hsep).
  destruct (str_eqb _ (of_string "index") || str_eqb _ (of_string "_index"));
    [vm_compute|]; reflexivity.
Qed.

(** What lines 252-260 do to a file in the directory [d]: an index file
    takes the name of [d]. *)
Lemma indexAlias_in_dir (ds : list str) (d name : str) :
  Forall properSegment ds → properSegment d →
  name ≠ [] → Forall (fun c => c ≠ SLASH) name →
  let D := join [SLASH] (ds ++ [d]) in
  indexAlias (D ++ SLASH :: name) =
    if str_eqb (path.basename_ext (D ++ SLASH :: name) ".md") "index"
       || str_eqb (path.basename_ext (D ++ SLASH :: name) ".md") "_index"
    then D ++ SLASH :: d ++ of_string ".md" else D ++ SLASH :: name.
Proof.
  intros Hds Hd Hne Hsep D.
  destruct (indexAlias_alias ds d Hds Hd) as (Hbase & Hjoin & _).
  fold D in Hbase, Hjoin.
  assert (Hall : Forall properSegment (ds ++ [d]))
    by (apply Forall_app; split; [exact Hds | apply Forall_singleton; exact Hd]).
  assert (Hnil : ds ++ [d] ≠ []) by (destruct ds; discriminate).
  destruct (join_head _ Hnil Hall) as (c & D' & HD & Hc). fold D in HD.
  unfold indexAlias.
  rewrite (dirname_dir_name D name c D' HD Hc Hne Hsep), Hbase, Hjoin.
  destruct Hd as (Hdne & _). apply truthy_true in Hdne. rewrite Hdne.
  reflexivity.
Qed.

(** C7, as amended: for every relative path made of proper segments whose
    normalized form does not itself end in a locale suffix followed by
    [.md], normalizing the normalized form changes nothing. *)
Theorem C7_urlPath_idempotent (dirs : list str) (name : str) :
  Forall properSegment dirs → properSegment name →
  endsWithLocale (urlPathOf (join [SLASH] (dirs ++ [name]))) = false →
  urlPathOf (urlPathOf (join [SLASH] (dirs ++ [name])))
    = urlPathOf (join [SLASH] (dirs ++ [name])).
Proof.
  intros Hdirs Hname Hloc. set (p := join [SLASH] (dirs ++ [name])) in *.
  pose proof Hname as (Hnne & Hnsep & _).
  assert (Hplain : indexAlias (rewriteExt p) = rewriteExt p →
                   urlPathOf (urlPathOf p) = urlPathOf p).
  { intros Heq. unfold urlPathOf in *. rewrite Heq in Hloc |- *.
    rewrite (rewriteExt_fixed (rewriteExt p));
      [exact Heq | intros pre; apply rewriteExt_not_mdx | exact Hloc]. }
  destruct dirs as [|d ds _] using rev_ind.
  - (* a file at the root *)
    assert (p = name) as Hp by reflexivity.
    destruct (rewriteExt_name name Hnne Hnsep) as [Hrne Hrsep].
    assert (Hq : indexAlias (rewriteExt p) = of_string "..md"
                 ∨ indexAlias (rewriteExt p) = rewriteExt p).
    { rewrite Hp, (indexAlias_at_root _ Hrne Hrsep).
      destruct (str_eqb _ (of_string "index") || str_eqb _ (of_string "_index"));
        [left | right]; reflexivity. }
    destruct Hq as [Hq | Hq]; [|exact (Hplain Hq)].
    unfold urlPathOf at 2 3. rewrite Hq. vm_compute. reflexivity.
  - (* a file in the directory [d] *)
    apply Forall_app in Hdirs as [Hds Hd]. rewrite Forall_singleton in Hd.
    set (D := join [SLASH] (ds ++ [d])) in *.
    assert (Hp : p = D ++ SLASH :: name).
    { unfold p, D. rewrite join_snoc by (destruct ds; discriminate). reflexivity. }
    destruct (rewriteExt_dir_name D name Hnne Hnsep) as (name' & Hr & Hne' & Hsep').
    destruct (indexAlias_alias ds d Hds Hd) as (_ & _ & Hfix).
    fold D in Hfix.
    assert (Hq : indexAlias (rewriteExt p) = D ++ SLASH :: d ++ of_string ".md"
                 ∨ indexAlias (rewriteExt p) = rewriteExt p).
    { rewrite Hp, Hr. unfold D.
      rewrite (indexAlias_in_dir ds d name' Hds Hd Hne' Hsep').
      destruct (str_eqb _ (of_string "index") || str_eqb _ (of_string "_index"));
        [left | right]; reflexivity. }
    destruct Hq as [Hq | Hq]; [|exact (Hplain Hq)].
    unfold urlPathOf in *. rewrite Hq in Hloc |- *.
    rewrite rewriteExt_fixed; [exact Hfix | | exact Hloc].
    intros pre.
    change (D ++ SLASH :: d ++ of_string ".md")
      with (D ++ [SLASH] ++ d ++ of_string ".md").
    rewrite !app_assoc.
    change (pre ++ DOT :: of_string "mdx") with (pre ++ of_string ".mdx").
    apply (last_char_neq _ _ _ _ 100 120); [reflexivity | reflexivity | discriminate].
Qed.

Lemma C7_urlPath_idempotent_witness :
  let dirs : list str := [of_string "posts"; of_string "my-article"] in
  let name : str := "index.en.mdx" in
  urlPathOf (urlPathOf (join [SLASH] (dirs ++ [name])))
    = urlPathOf (join [SLASH] (dirs ++ [name])).
Proof.
  intros dirs name. apply (C7_urlPath_idempotent dirs name).
  - repeat constructor; try discriminate.
  - repeat constructor; try discriminate.
  - vm_compute. reflexivity.
Defined.

(** C7, as stated, fails: a doubled locale suffix loses one suffix per
    application, and an index file in a directory named like a locale
    suffix gets a name that the next application rewrites. *)
Lemma C7_not_idempotent_counterexample :
  urlPathOf "guide.en.en.md" = "guide.en.md"
  ∧ urlPathOf (urlPathOf "guide.en.en.md") = "guide.md"
  ∧ urlPathOf "notes.en/index.md" = "notes.en/notes.en.md"
  ∧ urlPathOf (urlPathOf "notes.en/index.md") = "notes.en/notes.md".
Proof. repeat split; vm_compute; reflexivity. Qed.

(* ===================================================================== *)
(** * The title of a file *)
(* ===================================================================== *)

Lemma m_Chr_false ml p bef c aft cs k :
  p c = false → m ml (Chr p) (MState bef (c :: aft) cs) k = None.
Proof. intros H. simpl. rewrite H. reflexivity. Qed.

Lemma m_Chr_true ml p bef c aft cs k :
  p c = true →
  m ml (Chr p) (MState bef (c :: aft) cs) k = k (MState (c :: bef) aft cs).
Proof. intros H. simpl. rewrite H. reflexivity. Qed.

Lemma trim_drop_blank (ws s : str) : blank ws → trim (ws ++ s) = trim s.
Proof.
  intros H. unfold trim. do 3 f_equal.
  induction H as [|c ws Hc _ IH]; [reflexivity|]. cbn [app dropWhile].
  rewrite Hc. exact IH.
Qed.








(* ===================================================================== *)
(** * Further properties: processed bodies, categories, file-name titles *)
(* ===================================================================== *)

Lemma dropWhile_snoc_stop p (l : str) c :
  p c = false → dropWhile p (l ++ [c]) = dropWhile p l ++ [c].
Proof.
  intros Hc. induction l as [|d l IH]; simpl; [rewrite Hc; reflexivity|].
  destruct (p d); [exact IH | reflexivity].
Qed.

Lemma trim_noLeadingSpace (s : str) : noLeadingSpace (trim s).
Proof.
  intros c Hh. unfold trim in Hh.
  destruct (dropWhile isSpace s) as [|d u] eqn:Hd; [discriminate|].
  apply dropWhile_head in Hd. cbn [rev] in Hh.
  rewrite dropWhile_snoc_stop, rev_app_distr in Hh by exact Hd.
  simpl in Hh. injection Hh as <-. exact Hd.
Qed.

(** [trim] leaves a text alone that neither starts nor ends in white space. *)
Lemma trim_fixed (s : str) :
  noLeadingSpace s → noTrailingSpace s → trim s = s.
Proof.
  intros Hl Ht. unfold trim. rewrite (dropWhile_id isSpace s Hl).
  rewrite dropWhile_id; [apply rev_involutive|].
  intros c Hc. apply Ht. rewrite <- (rev_involutive s).
  destruct (rev s) as [|d t]; [discriminate|]. injection Hc as ->.
  cbn [rev]. apply last_snoc.
Qed.

Lemma body_trim_fixed (text : str) :
  trim (content (processMDContent text)) = content (processMDContent text)
  ∧ trim (content (processMDXContent text)) = content (processMDXContent text).
Proof.
  assert (Ht : ∀ s : str, trim (trim s) = trim s).
  { intros s. apply trim_fixed; [apply trim_noLeadingSpace | apply trim_noTrailingSpace]. }
  split.
  - unfold processMDContent. destruct (frontmatterOf text); apply Ht.
  - unfold processMDXContent.
    destruct (match frontmatterOf text with Some _ => _ | None => _ end).
    apply Ht.
Qed.

(** X1: the body returned by either processor has no white space at
    either end, so trimming it again changes nothing. *)
Theorem X1_body_trimmed (text : str) :
  (noLeadingSpace (content (processMDContent text))
   ∧ noTrailingSpace (content (processMDContent text))
   ∧ trim (content (processMDContent text)) = content (processMDContent text))
  ∧ (noLeadingSpace (content (processMDXContent text))
     ∧ noTrailingSpace (content (processMDXContent text))
     ∧ trim (content (processMDXContent text)) = content (processMDXContent text)).
Proof.
  destruct (body_trim_fixed text) as [H1 H2].
  split.
  - rewrite <- H1. split; [apply trim_noLeadingSpace|].
    split; [apply trim_noTrailingSpace | rewrite H1; exact H1].
  - rewrite <- H2. split; [apply trim_noLeadingSpace|].
    split; [apply trim_noTrailingSpace | rewrite H2; exact H2].
Qed.

(** X2: the category of a file is never empty and never contains a path
    separator. *)
Theorem X2_category_shape (file : str) :
  categoryOf file ≠ [] ∧ Forall (fun c => c ≠ SLASH) (categoryOf file).
Proof.
  rewrite categoryOf_first_segment.
  pose proof (takeWhile_Forall path.notSep file) as Hall.
  destruct (takeWhile path.notSep file) as [|c seg].
  - split; [discriminate | repeat constructor; discriminate].
  - split; [discriminate|]. eapply Forall_impl; [exact Hall|].
    intros d Hd ->. discriminate Hd.
Qed.

Lemma upperWordChar_cases c :
  upperWordChar c = c ∨ (65 ≤ upperWordChar c ≤ 90).
Proof.
  unfold upperWordChar, in_range.
  destruct ((97 <=? c) && (c <=? 122)) eqn:H; [right | left; reflexivity].
  apply andb_true_iff in H as [H1 H2].
  apply N.leb_le in H1. apply N.leb_le in H2. lia.
Qed.

Lemma capitalizeWords_Forall (P : N → Prop) b (s : str) :
  (∀ c, P c → P (upperWordChar c)) → Forall P s → Forall P (capitalizeWords b s).
Proof.
  intros HP Hs. revert b. induction Hs as [|c s Hc _ IH]; intros b; simpl;
    constructor; [|apply IH].
  destruct (negb b && isWord c); [apply HP|]; exact Hc.
Qed.

(** X3: the title made from a file name has as many characters as the name
    without its extension and contains neither [-] nor [_]. *)
Theorem X3_filename_title (filePath : str) :
  length (titleFromPath filePath)
    = length (path.basename_ext filePath (path.extname filePath))
  ∧ Forall (fun c => c ≠ 45 ∧ c ≠ 95) (titleFromPath filePath).
Proof.
  rewrite titleFromPath_words. split.
  - rewrite capitalizeWords_length, length_map. reflexivity.
  - apply capitalizeWords_Forall.
    + intros c [H1 H2]. destruct (upperWordChar_cases c) as [-> | Hr];
        [split; assumption | lia].
    + apply Forall_forall. intros c Hc.
      apply list_elem_of_fmap in Hc as (d & -> & _). unfold dashToSpace.
      destruct (N.eqb_spec d 45) as [->|H1]; [simpl; lia|].
      destruct (N.eqb_spec d 95) as [->|H2]; [simpl; lia|].
      simpl. split; assumption.
Qed.

(** ** Categories appear in the order in which they are first met *)

Lemma firstSeen_snoc (seen l : list str) (x : str) :
  firstSeen seen (l ++ [x])
    = firstSeen seen l ++ (if bool_decide (x ∈ seen ++ l) then [] else [x]).
Proof.
  revert seen. induction l as [|y l IH]; intros seen.
  - simpl. rewrite app_nil_r. destruct (bool_decide (x ∈ seen)); reflexivity.
  - simpl. destruct (bool_decide (y ∈ seen)) eqn:Hy.
    + rewrite IH. apply bool_decide_eq_true in Hy.
      assert (Hiff : x ∈ seen ++ l ↔ x ∈ seen ++ y :: l).
      { rewrite !elem_of_app, elem_of_cons.
        split; [tauto|]. intros [H | [-> | H]]; tauto. }
      rewrite (bool_decide_ext _ _ Hiff). reflexivity.
    + rewrite IH. simpl.
      assert (Hiff : x ∈ (y :: seen) ++ l ↔ x ∈ seen ++ y :: l).
      { rewrite !elem_of_app, !elem_of_cons. tauto. }
      rewrite (bool_decide_ext _ _ Hiff). reflexivity.
Qed.

Lemma groupByCategory_keys_iff (fs : list ProcessedFile) (k : str) :
  k ∈ (groupByCategory fs).*1 ↔ k ∈ category <$> fs.
Proof.
  destruct (groupByCategory_groups fs) as (_ & Hgrp & Hcov). split.
  - intros Hk. apply list_elem_of_fmap in Hk as ([k' l] & -> & Hin).
    destruct (Hgrp _ _ Hin) as [Hl Hne]. simpl.
    destruct l as [|f l]; [contradiction|].
    assert (f ∈ filter (λ f0, category f0 = k') fs) as Hf by (rewrite <- Hl; left).
    apply list_elem_of_filter in Hf as [Hc Hf].
    apply list_elem_of_fmap. exists f. split; [symmetry; exact Hc | exact Hf].
  - intros Hk. apply list_elem_of_fmap in Hk as (f & -> & Hf). apply Hcov, Hf.
Qed.

Lemma table_of_keys {V} (g : str → V) (mp : JsMap V) :
  (∀ k l, (k, l) ∈ mp → l = g k) → mp = (fun k => (k, g k)) <$> mp.*1.
Proof.
  induction mp as [|[k l] mp IH]; intros H; [reflexivity|].
  cbn [fmap list_fmap fst]. rewrite <- IH.
  - rewrite (H k l) by left. reflexivity.
  - intros k' l' Hin. apply H. right. exact Hin.
Qed.

Lemma groupByCategory_keys (fs : list ProcessedFile) :
  (groupByCategory fs).*1 = firstSeen [] (category <$> fs).
Proof.
  induction fs as [|f fs IH] using rev_ind; [reflexivity|].
  rewrite groupByCategory_snoc, fmap_app.
  change (category <$> [f]) with [category f].
  rewrite firstSeen_snoc. cbn [app]. rewrite <- IH.
  destruct (groupStep_cases (groupByCategory fs) f)
    as [[Hnew ->] | (m1 & m2 & l & Heq & Hn1 & ->)].
  - rewrite fmap_app. cbn [fmap list_fmap fst]. f_equal.
    rewrite bool_decide_eq_false_2; [reflexivity|].
    rewrite <- groupByCategory_keys_iff. exact Hnew.
  - rewrite bool_decide_eq_true_2.
    + rewrite app_nil_r, Heq, !fmap_app. reflexivity.
    + rewrite <- groupByCategory_keys_iff, Heq, fmap_app.
      apply elem_of_app. right. left.
Qed.

Lemma groupByCategory_table (fs : list ProcessedFile) :
  groupByCategory fs
    = (fun cat => (cat, filter (fun f => category f = cat) fs))
        <$> firstSeen [] (category <$> fs).
Proof.
  rewrite <- groupByCategory_keys. apply table_of_keys.
  intros k l Hin. destruct (groupByCategory_groups fs) as (_ & Hgrp & _).
  apply (Hgrp k l Hin).
Qed.


(** X4: the groups are keyed by the distinct categories of the manifest,
    in the order in which the categories first appear in it, and each
    group holds the files of its category in manifest order. *)
Theorem X4_category_order (fs : list ProcessedFile) :
  (groupByCategory fs).*1 = firstSeen [] (category <$> fs)
  ∧ groupByCategory fs
    = (fun cat => (cat, filter (fun f => category f = cat) fs))
        <$> firstSeen [] (category <$> fs).
Proof.
  split; [apply groupByCategory_keys | apply groupByCategory_table].
Qed.

(* ===================================================================== *)
(** * Further properties: the block header and its lines *)
(* ===================================================================== *)

Lemma takeWhile_all p (s : str) :
  Forall (fun c => p c = true) s → takeWhile p s = s.
Proof.
  intros H. rewrite <- (app_nil_r s) at 1.
  rewrite takeWhile_app_all by exact H. simpl. apply app_nil_r.
Qed.

Lemma search_from_here ml r bef aft mr :
  match_at ml r bef aft = Some mr → search_from ml r bef aft = Some mr.
Proof. intros H. destruct aft; simpl; rewrite H; reflexivity. Qed.

Lemma foldl_fixed {A B} (f : A → B → A) (a : A) (l : list B) :
  Forall (fun x => ∀ a, f a x = a) l → foldl f a l = a.
Proof.
  intros H. induction H as [|x l Hx _ IH]; [reflexivity|].
  simpl. rewrite Hx. exact IH.
Qed.

(** Without the [m] flag, a pattern that starts with [^] matches at the
    start of the text or nowhere. *)
Lemma search_anchored (r : regex) (s : str) mr :
  search false (Seq Bol r) s = Some mr →
  match_at false (Seq Bol r) [] s = Some mr.
Proof.
  intros H. apply search_from_Some in H as (pre & rest & -> & Hat & _).
  destruct (rev pre) as [|c t] eqn:Hrev.
  - apply (f_equal (@rev N)) in Hrev. rewrite rev_involutive in Hrev.
    subst pre. exact Hat.
  - exfalso. apply match_at_inv in Hat as (st & Hm & _).
    rewrite m_Bol_seq in Hm. unfold prevChar in Hm. cbn in Hm. discriminate.
Qed.

Lemma frontmatter_dashes (text : str) mr :
  search false re_frontmatter text = Some mr → startsWith "---" text = true.
Proof.
  unfold re_frontmatter. cbn [Seqs]. intros H. apply search_anchored in H.
  apply match_at_inv in H as (st & Hm & _).
  rewrite m_Bol_seq in Hm. unfold prevChar in Hm. cbn [before head] in Hm.
  rewrite m_Seq in Hm. apply m_Lit_inv in Hm as (aft' & Ha & _).
  cbn [after] in Ha. subst text. unfold startsWith. apply str_eqb_eq. reflexivity.
Qed.

(** X5: the block header is recognised only at the very start of the text.
    A text that does not begin with [---] has no header: no metadata is
    read and the whole text, trimmed, is the body. *)
Theorem X5_header_only_at_start (text : str) :
  startsWith "---" text = false →
  frontmatterOf text = None
  ∧ processMDContent text = {| metadata := ∅; content := trim text |}.
Proof.
  intros Hs.
  assert (Hfm : frontmatterOf text = None).
  { unfold frontmatterOf.
    destruct (search false re_frontmatter text) as [mr|] eqn:Hm; [|reflexivity].
    apply frontmatter_dashes in Hm. congruence. }
  split; [exact Hfm|]. unfold processMDContent. rewrite Hfm. reflexivity.
Qed.

Lemma X5_header_only_at_start_witness :
  let text : str := [LF] ++ of_string "---" ++ [LF] ++ of_string "title: T" ++ [LF]
                    ++ of_string "---" ++ [LF] ++ of_string "Body" in
  frontmatterOf text = None
  ∧ processMDContent text = {| metadata := ∅; content := trim text |}.
Proof. intros text. apply (X5_header_only_at_start text). reflexivity. Defined.

(** The shape of a line on which the pattern [key: value] succeeds: a
    non-empty word, a colon, white space, and a non-empty value free of
    line terminators that runs to the end of the line. *)
Lemma lineMatch_shape (line k v : str) :
  lineMatch line = Some (k, v) →
  ∃ ws, line = k ++ 58 :: ws ++ v
        ∧ k ≠ [] ∧ Forall (fun c => isWord c = true) k
        ∧ blank ws
        ∧ v ≠ [] ∧ Forall (fun c => isDot c = true) v.
Proof.
  unfold lineMatch. destruct (search false re_line line) as [mr|] eqn:Hs;
    [|discriminate].
  destruct (cap 1 mr) as [k'|] eqn:Hk; [|discriminate].
  destruct (cap 2 mr) as [v'|] eqn:Hv; [|discriminate].
  intros [= -> ->].
  unfold re_line in Hs. cbn [Seqs] in Hs. apply search_anchored in Hs.
  apply match_at_inv in Hs as (st & Hm & ->).
  rewrite m_Bol_seq in Hm. unfold prevChar in Hm. cbn [before head] in Hm.
  rewrite m_Seq, m_Grp in Hm. unfold Plus at 1 in Hm.
  apply m_Rep_inv in Hm as (n & Hn & _ & Hlen & Hall & Hm); [|discriminate].
  cbn [after before caps] in Hlen, Hall, Hm.
  rewrite take_consumed in Hm by assumption.
  rewrite m_Seq in Hm. apply m_Chr_inv in Hm as (c1 & a1 & Ha1 & Hc1 & Hm).
  cbn [after before caps] in Ha1, Hm. apply N.eqb_eq in Hc1. subst c1.
  rewrite m_Seq in Hm. unfold Star in Hm.
  apply m_Rep_inv in Hm as (n1 & _ & _ & Hlen1 & Hall1 & Hm); [|discriminate].
  cbn [after before caps] in Hlen1, Hall1, Hm. rewrite m_Seq, m_Grp in Hm.
  unfold Plus in Hm.
  apply m_Rep_inv in Hm as (n2 & Hn2 & _ & Hlen2 & Hall2 & Hm); [|discriminate].
  cbn [after before caps] in Hlen2, Hall2, Hm.
  apply m_Eol_inv in Hm as [Hend Hm]. cbn [after] in Hend.
  cbn [after before caps] in Hm. injection Hm as <-.
  unfold cap in Hk, Hv. cbn in Hk, Hv.
  injection Hk as <-. injection Hv as <-.
  rewrite Hend. cbn [length]. rewrite Nat.sub_0_r, firstn_all.
  assert (Hv2 : take n2 (drop n1 a1) = drop n1 a1).
  { rewrite <- (take_drop n2 (drop n1 a1)) at 2. rewrite Hend, app_nil_r.
    reflexivity. }
  rewrite Hv2 in Hall2.
  exists (take n1 a1). split; [|split; [|split; [|split; [|split]]]].
  - rewrite (take_drop n1 a1), <- Ha1. symmetry. apply take_drop.
  - intros Hnil. apply (f_equal length) in Hnil.
    rewrite length_take in Hnil. simpl in Hnil. lia.
  - exact Hall.
  - exact Hall1.
  - intros Hnil. rewrite Hnil in Hlen2. simpl in Hlen2. lia.
  - exact Hall2.
Qed.

Lemma lineMatch_terminated (line : str) c :
  last line = Some c → isLineTerminator c = true → lineMatch line = None.
Proof.
  intros Hl Hc. destruct (lineMatch line) as [[k v]|] eqn:Hm; [|reflexivity].
  exfalso. apply lineMatch_shape in Hm as (ws & -> & _ & _ & _ & Hv & Hdot).
  change (k ++ 58 :: ws ++ v) with (k ++ (58 :: ws) ++ v) in Hl.
  rewrite !app_assoc in Hl.
  destruct v as [|d v] using rev_ind; [congruence|].
  rewrite app_assoc, last_snoc in Hl. injection Hl as ->.
  apply Forall_app in Hdot as [_ Hdot]. rewrite Forall_singleton in Hdot.
  unfold isDot in Hdot. rewrite Hc in Hdot. discriminate.
Qed.

(** X6: a header line that ends in a line terminator, such as the carriage
    return left on every line of a file with Windows line endings, stores
    nothing.  A block header made of such lines yields no metadata in
    either processor. *)
Theorem X6_terminated_lines_ignored (text fm : str) :
  frontmatterOf text = Some fm →
  Forall (fun line => ∃ c, last line = Some c ∧ isLineTerminator c = true)
         (split LF fm) →
  metadata (processMDContent text) = ∅
  ∧ metadata (processMDXContent text) = ∅.
Proof.
  intros Hfm Hlines.
  assert (Hp : ∀ mk, parseFrontmatter mk fm = ∅).
  { intros mk. unfold parseFrontmatter. apply foldl_fixed.
    eapply Forall_impl; [exact Hlines|].
    intros line (c & Hl & Hc) md. rewrite parseLine_lineMatch.
    rewrite (lineMatch_terminated _ _ Hl Hc). reflexivity. }
  split.
  - unfold processMDContent. rewrite Hfm. apply Hp.
  - unfold processMDXContent. rewrite Hfm. apply Hp.
Qed.

Lemma X6_terminated_lines_ignored_witness :
  let text : str :=
    of_string "---" ++ [13; LF] ++ of_string "title: Hello" ++ [13; LF]
    ++ of_string "draft: yes" ++ [13; LF]
    ++ of_string "---" ++ [13; LF] ++ of_string "Body" in
  metadata (processMDContent text) = ∅
  ∧ metadata (processMDXContent text) = ∅.
Proof.
  intros text.
  apply (X6_terminated_lines_ignored text
           (of_string "title: Hello" ++ [13; LF] ++ of_string "draft: yes" ++ [13])).
  - vm_compute. reflexivity.
  - vm_compute. repeat constructor; eexists; split; reflexivity.
Defined.

(** The value of a line: a non-empty run of characters up to the end. *)
Lemma m_value_text bef (v : str) cs :
  v ≠ [] → Forall (fun c => isDot c = true) v →
  m false (Seq (Grp 2 (Plus isDot)) Eol) (MState bef v cs) Some
    = Some (MState (rev v ++ bef) [] ((2%nat, v) :: cs)).
Proof.
  intros Hne Hdot. rewrite m_Seq, m_Grp. unfold Plus at 1. rewrite m_Rep.
  cbn [caps before after].
  assert (Hcount : rep_count isDot None v = length v).
  { unfold rep_count. rewrite takeWhile_all by assumption. reflexivity. }
  rewrite rep_class_greedy_max; rewrite Hcount.
  - rewrite drop_all, firstn_all. cbn [m nextChar after head before caps length].
    rewrite Nat.sub_0_r, firstn_all. reflexivity.
  - destruct v; [congruence | simpl; lia].
  - rewrite drop_all. cbn [m nextChar after head]. eexists. reflexivity.
Qed.

(** After the colon: white space [ws], then the value [v]. *)
Lemma m_value_tail bef (ws v : str) cs :
  blank ws → v ≠ [] → Forall (fun c => isDot c = true) v → noLeadingSpace v →
  m false (Seq (Star isSpace) (Seq (Grp 2 (Plus isDot)) Eol))
    (MState bef (ws ++ v) cs) Some
    = Some (MState (rev v ++ rev ws ++ bef) [] ((2%nat, v) :: cs)).
Proof.
  intros Hws Hne Hdot Hlead. rewrite m_Seq. unfold Star at 1. rewrite m_Rep.
  cbn [caps before after].
  assert (Hcount : rep_count isSpace None (ws ++ v) = length ws).
  { unfold rep_count. destruct v as [|c r]; [congruence|].
    rewrite takeWhile_app_stop; [reflexivity | exact Hws | apply Hlead; reflexivity]. }
  rewrite rep_class_greedy_max; rewrite Hcount.
  - rewrite drop_app_length, take_app_length.
    apply m_value_text; assumption.
  - lia.
  - rewrite drop_app_length, take_app_length.
    rewrite m_value_text by assumption. eexists. reflexivity.
Qed.

Lemma lineMatch_complete (k ws v : str) :
  k ≠ [] → Forall (fun c => isWord c = true) k →
  blank ws →
  v ≠ [] → Forall (fun c => isDot c = true) v → noLeadingSpace v →
  lineMatch (k ++ 58 :: ws ++ v) = Some (k, v).
Proof.
  intros Hk Hword Hws Hv Hdot Hlead.
  assert (Hat : match_at false re_line [] (k ++ 58 :: ws ++ v)
                = Some (RMatch [] (k ++ 58 :: ws ++ v) [] [(2%nat, v); (1%nat, k)])).
  { unfold match_at, re_line. cbn [Seqs]. rewrite m_Bol_seq.
    unfold prevChar. cbn [before head].
    rewrite m_Seq, m_Grp. unfold Plus at 1. rewrite m_Rep.
    cbn [caps before after].
    assert (Hcount : rep_count isWord None (k ++ 58 :: ws ++ v) = length k).
    { unfold rep_count. rewrite takeWhile_app_stop;
        [reflexivity | exact Hword | reflexivity]. }
    assert (Hcont :
      m false (Seq (Chr (isChar 58)) (Seq (Star isSpace) (Seq (Grp 2 (Plus isDot)) Eol)))
        (MState (rev k ++ []) (58 :: ws ++ v) [(1%nat, k)]) Some
      = Some (MState (rev v ++ rev ws ++ 58 :: rev k ++ []) []
                [(2%nat, v); (1%nat, k)])).
    { rewrite m_Seq, m_Chr_true by reflexivity.
      apply m_value_tail; assumption. }
    assert (Hcap : take (length (k ++ 58 :: ws ++ v) - length (58 :: ws ++ v))
                     (k ++ 58 :: ws ++ v) = k).
    { rewrite length_app, Nat.add_sub. apply take_app_length. }
    rewrite rep_class_greedy_max; rewrite Hcount.
    - rewrite drop_app_length, take_app_length. cbn [before after caps].
      rewrite Hcap, Hcont. cbn [after caps length].
      rewrite Nat.sub_0_r, firstn_all. reflexivity.
    - destruct k; [congruence | simpl; lia].
    - rewrite drop_app_length, take_app_length. cbn [before after caps].
      rewrite Hcap, Hcont. eexists. reflexivity. }
  unfold lineMatch, search. rewrite (search_from_here _ _ _ _ _ Hat).
  reflexivity.
Qed.

(** X7: a well-formed header line is read back.  A line made of a key of
    word characters, a colon, any white space and a non-empty value that
    holds no line terminator and does not start with white space stores,
    under that key, the value without surrounding white space and without
    one leading and one trailing quote; a later line with the same key
    replaces the value. *)
Theorem X7_header_line_stored (md : FileMetadata) (k ws v : str) :
  k ≠ [] → Forall (fun c => isWord c = true) k →
  blank ws →
  v ≠ [] → Forall (fun c => isDot c = true) v → noLeadingSpace v →
  k ≠ of_string "__proto__" →
  lineMatch (k ++ 58 :: ws ++ v) = Some (k, v)
  ∧ parseLine mdValue md (k ++ 58 :: ws ++ v)
      = <[k := VStr (stripOuterQuotes (trim v))]> md
  ∧ ∀ v', parseLine mdValue (<[k := v']> md) (k ++ 58 :: ws ++ v)
          = parseLine mdValue md (k ++ 58 :: ws ++ v).
Proof.
  intros Hk Hword Hws Hv Hdot Hlead Hproto.
  pose proof (lineMatch_complete k ws v Hk Hword Hws Hv Hdot Hlead) as Hlm.
  assert (Hp : ∀ md0, parseLine mdValue md0 (k ++ 58 :: ws ++ v)
                      = <[k := VStr (stripOuterQuotes (trim v))]> md0).
  { intros md0. rewrite parseLine_lineMatch, Hlm. unfold setProperty.
    apply str_eqb_neq in Hproto. rewrite Hproto.
    unfold mdValue. rewrite unquote_spec. reflexivity. }
  split; [exact Hlm|]. split; [apply Hp|].
  intros v'. rewrite !Hp. apply insert_insert_eq.
Qed.

Lemma X7_header_line_stored_witness :
  let md : FileMetadata := ∅ in
  let k : str := "title" in
  let ws : str := " " in
  let v : str := [DQ] ++ of_string "Hello World" ++ [DQ] in
  lineMatch (k ++ 58 :: ws ++ v) = Some (k, v)
  ∧ parseLine mdValue md (k ++ 58 :: ws ++ v)
      = <[k := VStr (stripOuterQuotes (trim v))]> md
  ∧ ∀ v', parseLine mdValue (<[k := v']> md) (k ++ 58 :: ws ++ v)
          = parseLine mdValue md (k ++ 58 :: ws ++ v).
Proof.
  intros md k ws v. apply (X7_header_line_stored md k ws v).
  - discriminate.
  - vm_compute. repeat constructor.
  - vm_compute. repeat constructor.
  - discriminate.
  - vm_compute. repeat constructor.
  - intros c Hc. vm_compute in Hc. injection Hc as <-. reflexivity.
  - discriminate.
Defined.

(* ===================================================================== *)
(** * Further properties: bracketed lists and the embedded object *)
(* ===================================================================== *)

Lemma split_free sep (n : str) :
  Forall (fun c => c ≠ sep) n → split sep n = [n].
Proof.
  induction 1 as [|c n Hc _ IH]; [reflexivity|].
  simpl. apply N.eqb_neq in Hc. rewrite Hc, IH. reflexivity.
Qed.

Lemma split_app_free sep (n rest : str) :
  Forall (fun c => c ≠ sep) n →
  split sep (n ++ sep :: rest) = n :: split sep rest.
Proof.
  induction 1 as [|c n Hc _ IH].
  - simpl. rewrite N.eqb_refl. reflexivity.
  - simpl. apply N.eqb_neq in Hc. rewrite Hc, IH. reflexivity.
Qed.

Lemma split_join_free sep (segs : list str) :
  segs ≠ [] → Forall (Forall (fun c => c ≠ sep)) segs →
  split sep (join [sep] segs) = segs.
Proof.
  intros Hne Hall. induction Hall as [|sg segs Hsg Hall IH]; [congruence|].
  destruct segs as [|sg' segs].
  - simpl. apply split_free, Hsg.
  - change (join [sep] (sg :: sg' :: segs))
      with (sg ++ sep :: join [sep] (sg' :: segs)).
    rewrite split_app_free by exact Hsg. rewrite IH by discriminate. reflexivity.
Qed.

Lemma isQuote_notSpace c : isQuote c = true → isSpace c = false.
Proof.
  unfold isQuote. intros H. apply orb_true_iff in H as [H | H];
    apply N.eqb_eq in H; subst c; reflexivity.
Qed.

Lemma blank_rev (s : str) : blank s → blank (rev s).
Proof.
  unfold blank. induction 1 as [|c s Hc _ IH]; [constructor|].
  cbn [rev]. apply Forall_app. split; [exact IH | repeat constructor; exact Hc].
Qed.

(** Trimming removes exactly the white space around a text that has none
    at its own ends. *)
Lemma trim_padded (l t r : str) :
  blank l → blank r → t ≠ [] → noLeadingSpace t → noTrailingSpace t →
  trim (l ++ t ++ r) = t.
Proof.
  intros Hl Hr Hne Hlead Htrail. unfold trim.
  rewrite dropWhile_app_all by exact Hl.
  rewrite (dropWhile_id isSpace (t ++ r)).
  - rewrite rev_app_distr, dropWhile_app_all by (apply blank_rev, Hr).
    rewrite dropWhile_id; [apply rev_involutive|].
    intros c Hc. apply Htrail. rewrite <- (rev_involutive t).
    destruct (rev t) as [|d u]; [discriminate|]. injection Hc as ->.
    cbn [rev]. apply last_snoc.
  - intros c Hc. apply Hlead. destruct t; [congruence | exact Hc].
Qed.

Lemma dropQuotes_wrapped (ql t qr : str) :
  Forall (fun c => isQuote c = true) ql → Forall (fun c => isQuote c = true) qr →
  quoteFree t → dropQuotes (ql ++ t ++ qr) = t.
Proof.
  intros Hql Hqr Ht. unfold dropQuotes. rewrite !filter_app.
  assert (Hq : ∀ q : str, Forall (fun c => isQuote c = true) q →
                 filter (fun c => isQuote c = false) q = []).
  { intros q Hq. induction Hq as [|c q Hc _ IH]; [reflexivity|].
    rewrite filter_cons_False by congruence. exact IH. }
  rewrite (Hq _ Hql), (Hq _ Hqr), app_nil_r. simpl.
  induction Ht as [|c t Hc _ IH]; [reflexivity|].
  rewrite filter_cons_True by exact Hc. rewrite IH. reflexivity.
Qed.

Lemma padded_item (p t : str) :
  padded p t → cleanItem t →
  Forall (fun c => c ≠ COMMA) p ∧ dropQuotes (trim p) = t.
Proof.
  intros (l & ql & qr & r & Hl & Hr & Hql & Hqr & ->)
         (Hne & Hqf & Hcf & Hlead & Htrail).
  assert (Hsp : ∀ s : str, blank s → Forall (fun c => c ≠ COMMA) s).
  { intros s Hs. eapply Forall_impl; [exact Hs|]. intros c Hc ->. discriminate Hc. }
  assert (Hqc : ∀ s : str, Forall (fun c => isQuote c = true) s →
                  Forall (fun c => c ≠ COMMA) s).
  { intros s Hs. eapply Forall_impl; [exact Hs|]. intros c Hc ->. discriminate Hc. }
  split.
  - rewrite !Forall_app. repeat split; auto.
  - assert (Hcore : ql ++ t ++ qr ≠ []).
    { intros H. apply app_eq_nil in H as [_ H]. apply app_eq_nil in H as [H _].
      contradiction. }
    replace (l ++ ql ++ t ++ qr ++ r) with (l ++ (ql ++ t ++ qr) ++ r)
      by (rewrite <- !app_assoc; reflexivity).
    rewrite trim_padded; [apply dropQuotes_wrapped; assumption | exact Hl | exact Hr
                         | exact Hcore | |].
    + intros c Hc. destruct ql as [|q ql].
      * apply Hlead. destruct t; [congruence | exact Hc].
      * injection Hc as <-. apply Forall_cons in Hql as [Hq _].
        apply isQuote_notSpace, Hq.
    + intros c Hc. destruct qr as [|q qr _] using rev_ind.
      * rewrite app_nil_r in Hc. apply Htrail.
        rewrite last_app in Hc. destruct (last t) as [d|] eqn:Hd; [exact Hc|].
        apply last_None in Hd. contradiction.
      * rewrite !app_assoc, last_snoc in Hc. injection Hc as <-.
        apply Forall_app in Hqr as [_ Hq]. rewrite Forall_singleton in Hq.
        apply isQuote_notSpace, Hq.
Qed.

Lemma listItems_padded (ps items : list str) :
  Forall2 padded ps items → Forall cleanItem items →
  listItems (join [COMMA] ps) = items.
Proof.
  intros Hpad Hclean. rewrite listItems_spec.
  assert (Hboth : Forall2 (fun p t => Forall (fun c => c ≠ COMMA) p
                                      ∧ dropQuotes (trim p) = t ∧ t ≠ []) ps items).
  { clear -Hpad Hclean. induction Hpad as [|p t ps items Hp _ IH]; [constructor|].
    apply Forall_cons in Hclean as [Ht Hclean].
    constructor; [|apply IH, Hclean].
    destruct (padded_item p t Hp Ht) as [H1 H2].
    split; [exact H1|]. split; [exact H2 | apply Ht]. }
  clear Hpad Hclean.
  assert (Hmap : filter (fun t : str => t ≠ [])
                   (map (fun t => dropQuotes (trim t)) ps) = items).
  { induction Hboth as [|p t ps items (_ & Hp & Hne) _ IH]; [reflexivity|].
    cbn [map]. rewrite Hp, filter_cons_True by exact Hne. rewrite IH. reflexivity. }
  destruct ps as [|p0 ps0]; [exact Hmap|].
  rewrite split_join_free; [exact Hmap | discriminate |].
  clear Hmap. induction Hboth as [|p t ps items (Hp & _) _ IH];
    constructor; assumption.
Qed.

Lemma dropLastQuote_snoc (s : str) c :
  isQuote c = false → dropLastQuote (s ++ [c]) = s ++ [c].
Proof.
  intros Hc. induction s as [|d s IH]; [simpl; rewrite Hc; reflexivity|].
  change ((d :: s) ++ [c]) with (d :: (s ++ [c])).
  rewrite dropLastQuote_cons by (destruct s; discriminate).
  rewrite IH. reflexivity.
Qed.

Lemma slice_inner c (inner : str) d : slice (c :: inner ++ [d]) 1 (-1) = inner.
Proof.
  unfold slice. cbv beta zeta.
  change (1 <? 0)%Z with false. change (-1 <? 0)%Z with true. cbv iota.
  assert (Hlen : Z.of_nat (length (c :: inner ++ [d]))
                 = (Z.of_nat (length inner) + 2)%Z).
  { cbn [length]. rewrite length_app. cbn [length]. lia. }
  rewrite Hlen.
  replace (Z.min 1 (Z.of_nat (length inner) + 2))%Z with 1%Z by lia.
  replace (Z.max (Z.of_nat (length inner) + 2 + -1) 0)%Z
    with (Z.of_nat (length inner) + 1)%Z by lia.
  replace (Z.to_nat (Z.of_nat (length inner) + 1 - 1)) with (length inner) by lia.
  change (Z.to_nat 1) with 1%nat. cbn [drop]. apply take_app_length.
Qed.

(** The extended-dialect value of a bracketed list of padded items. *)
Lemma mdxValue_bracket (ps items : list str) :
  Forall2 padded ps items → Forall cleanItem items →
  mdxValue (LBRACKET :: join [COMMA] ps ++ [RBRACKET]) = VArr items.
Proof.
  intros Hpad Hclean.
  pose proof (listItems_padded ps items Hpad Hclean) as Hitems.
  unfold mdxValue. rewrite unquote_spec.
  set (inner := join [COMMA] ps) in *.
  assert (Htrim : trim (LBRACKET :: inner ++ [RBRACKET])
                  = LBRACKET :: inner ++ [RBRACKET]).
  { apply trim_fixed.
    - intros c Hc. injection Hc as <-. reflexivity.
    - intros c Hc. change (LBRACKET :: inner ++ [RBRACKET])
        with ((LBRACKET :: inner) ++ [RBRACKET]) in Hc.
      rewrite last_snoc in Hc. injection Hc as <-. reflexivity. }
  rewrite Htrim. cbn [stripOuterQuotes].
  change (isQuote LBRACKET) with false. cbv iota.
  rewrite dropLastQuote_snoc by reflexivity.
  assert (Hs : startsWith [LBRACKET] (LBRACKET :: inner ++ [RBRACKET]) = true).
  { unfold startsWith. apply str_eqb_eq. reflexivity. }
  assert (He : endsWith [RBRACKET] (LBRACKET :: inner ++ [RBRACKET]) = true).
  { apply (endsWith_app (LBRACKET :: inner) [RBRACKET]). }
  rewrite Hs, He. cbn [andb]. rewrite slice_inner, Hitems. reflexivity.
Qed.

(* ===================================================================== *)
(** * Further properties: the fields of the embedded object *)
(* ===================================================================== *)

Lemma m_Lit_exact ml (s : str) bef aft cs k :
  m ml (Lit s) (MState bef (s ++ aft) cs) k = k (MState (rev s ++ bef) aft cs).
Proof.
  revert bef. induction s as [|c s IH]; intros bef; [reflexivity|].
  destruct s as [|d s].
  - simpl. unfold isChar. rewrite N.eqb_refl. reflexivity.
  - change (Lit (c :: d :: s)) with (Seq (Chr (isChar c)) (Lit (d :: s))).
    rewrite m_Seq. change ((c :: d :: s) ++ aft) with (c :: (d :: s) ++ aft).
    rewrite m_Chr_true by apply N.eqb_refl. rewrite IH.
    cbn [rev]. rewrite <- !app_assoc. reflexivity.
Qed.

(** The leftmost position at which the matcher succeeds is the one found. *)
Lemma search_from_found ml r bef (pre rest : str) mr :
  (∀ p1 p2, pre = p1 ++ p2 → p2 ≠ [] →
     match_at ml r (rev p1 ++ bef) (p2 ++ rest) = None) →
  match_at ml r (rev pre ++ bef) rest = Some mr →
  search_from ml r bef (pre ++ rest) = Some mr.
Proof.
  revert bef. induction pre as [|c pre IH]; intros bef Hno Hat.
  - apply search_from_here. exact Hat.
  - pose proof (Hno [] (c :: pre) eq_refl ltac:(discriminate)) as H0.
    cbn [rev app] in H0. cbn [app search_from]. rewrite H0.
    apply IH.
    + intros p1 p2 Hp Hne. specialize (Hno (c :: p1) p2).
      cbn [rev] in Hno. rewrite <- app_assoc in Hno. apply Hno; [|exact Hne].
      rewrite Hp. reflexivity.
    + cbn [rev] in Hat. rewrite <- app_assoc in Hat. exact Hat.
Qed.

(** The quoted text of a field. *)
Lemma m_field_text (bef t : str) (q : N) (rest : str) cs :
  t ≠ [] → quoteFree t → isQuote q = true →
  m false (Seq (Grp 1 (Plus (isNot isQuote))) (Chr isQuote))
    (MState bef (t ++ q :: rest) cs) Some
    = Some (MState (q :: rev t ++ bef) rest ((1%nat, t) :: cs)).
Proof.
  intros Hne Hqf Hq. rewrite m_Seq, m_Grp. unfold Plus at 1. rewrite m_Rep.
  cbn [caps before after].
  assert (Hcount : rep_count (isNot isQuote) None (t ++ q :: rest) = length t).
  { unfold rep_count. rewrite takeWhile_app_stop; [reflexivity | |].
    - eapply Forall_impl; [exact Hqf|]. intros c Hc. apply isNot_true, Hc.
    - unfold isNot. rewrite Hq. reflexivity. }
  assert (Hcap : take (length (t ++ q :: rest) - length (q :: rest)) (t ++ q :: rest) = t).
  { rewrite length_app, Nat.add_sub. apply take_app_length. }
  rewrite rep_class_greedy_max; rewrite Hcount.
  - rewrite drop_app_length, take_app_length. cbn [before after caps].
    rewrite Hcap, m_Chr_true by exact Hq. reflexivity.
  - destruct t; [congruence | simpl; lia].
  - rewrite drop_app_length, take_app_length. cbn [before after caps].
    rewrite Hcap, m_Chr_true by exact Hq. eexists. reflexivity.
Qed.

Lemma match_at_field (key : str) (bef ws t rest : str) (q1 q2 : N) :
  blank ws → isQuote q1 = true → isQuote q2 = true → t ≠ [] → quoteFree t →
  ∃ mr, match_at false (re_field key) bef (key ++ 58 :: ws ++ q1 :: t ++ q2 :: rest)
          = Some mr
        ∧ cap 1 mr = Some t.
Proof.
  intros Hws Hq1 Hq2 Hne Hqf. unfold match_at, re_field. cbn [Seqs].
  rewrite m_Seq, m_Lit_exact, m_Seq, m_Chr_true by reflexivity.
  rewrite m_Seq. unfold Star at 1. rewrite m_Rep. cbn [caps before after].
  assert (Hcount : rep_count isSpace None (ws ++ q1 :: t ++ q2 :: rest) = length ws).
  { unfold rep_count. rewrite takeWhile_app_stop;
      [reflexivity | exact Hws | apply isQuote_notSpace, Hq1]. }
  assert (Hcont : ∀ b,
    m false (Seq (Chr isQuote) (Seq (Grp 1 (Plus (isNot isQuote))) (Chr isQuote)))
      (MState b (q1 :: t ++ q2 :: rest) []) Some
    = Some (MState (q2 :: rev t ++ q1 :: b) rest [(1%nat, t)])).
  { intros b. rewrite m_Seq, m_Chr_true by exact Hq1.
    apply m_field_text; assumption. }
  rewrite rep_class_greedy_max; rewrite Hcount.
  - rewrite drop_app_length, take_app_length, Hcont.
    eexists. split; reflexivity.
  - lia.
  - rewrite drop_app_length, take_app_length, Hcont. eexists. reflexivity.
Qed.

(** Before the first colon of the text no field pattern can match. *)
Lemma colon_position (p2 key R a : str) :
  p2 ≠ [] → Forall (fun c => c ≠ 58) p2 → Forall (fun c => c ≠ 58) key →
  p2 ++ key ++ 58 :: R ≠ key ++ 58 :: a.
Proof.
  intros Hne Hp2 Hkey Heq.
  assert (Hr : (key ++ 58 :: a) !! length key = Some 58)
    by apply list_lookup_middle, eq_refl.
  rewrite <- Heq, app_assoc in Hr.
  rewrite lookup_app_l in Hr.
  - apply list_elem_of_lookup_2 in Hr. apply elem_of_app in Hr as [Hr | Hr].
    + rewrite Forall_forall in Hp2. exact (Hp2 _ Hr eq_refl).
    + rewrite Forall_forall in Hkey. exact (Hkey _ Hr eq_refl).
  - rewrite length_app. destruct p2; [congruence | simpl; lia].
Qed.

Lemma match_at_field_inv (key : str) bef aft mr :
  match_at false (re_field key) bef aft = Some mr →
  ∃ a, aft = key ++ 58 :: a.
Proof.
  intros Hat. apply match_at_inv in Hat as (st & Hm & _).
  unfold re_field in Hm. cbn [Seqs] in Hm. rewrite m_Seq in Hm.
  apply m_Lit_inv in Hm as (a1 & Ha & Hm). cbn [after before caps] in Ha, Hm.
  rewrite m_Seq in Hm. apply m_Chr_inv in Hm as (c & a & Ha1 & Hc & _).
  cbn [after] in Ha1. apply N.eqb_eq in Hc. subst. exists a. reflexivity.
Qed.

Lemma setField_found (key pre ws t rest : str) (q1 q2 : N) (md : FileMetadata) :
  Forall (fun c => c ≠ 58) pre → Forall (fun c => c ≠ 58) key →
  blank ws → isQuote q1 = true → isQuote q2 = true → t ≠ [] → quoteFree t →
  setField key (pre ++ key ++ 58 :: ws ++ q1 :: t ++ q2 :: rest) md
    = <[key := VStr t]> md.
Proof.
  intros Hpre Hkey Hws Hq1 Hq2 Hne Hqf.
  destruct (match_at_field key (rev pre ++ []) ws t rest q1 q2 Hws Hq1 Hq2 Hne Hqf)
    as (mr & Hat & Hcap).
  unfold setField, search. rewrite (search_from_found _ _ _ _ _ mr); [| |exact Hat].
  - rewrite Hcap. reflexivity.
  - intros p1 p2 -> Hp2.
    destruct (match_at false (re_field key) (rev p1 ++ []) _) as [mr'|] eqn:Hm;
      [|reflexivity].
    exfalso. apply match_at_field_inv in Hm as (a & Ha).
    apply Forall_app in Hpre as [_ Hpre].
    exact (colon_position _ _ _ _ Hp2 Hpre Hkey Ha).
Qed.

Lemma setField_other (key key' s : str) (md : FileMetadata) :
  key' ≠ key → setField key s md !! key' = md !! key'.
Proof.
  intros Hne. unfold setField. destruct (search false (re_field key) s) as [mr|];
    [|reflexivity].
  destruct (cap 1 mr); [|reflexivity]. apply lookup_insert_ne. congruence.
Qed.

Lemma tags_other (s key : str) (md : FileMetadata) :
  key ≠ k_tags →
  match search false re_tags s with
  | Some mr =>
      match cap 1 mr with
      | Some tagsStr =>
          if truthy tagsStr then
            let tags := listItems tagsStr in
            if (0 <? length tags)%nat then <[k_tags := VArr tags]> md else md
          else md
      | None => md
      end
  | None => md
  end !! key = md !! key.
Proof.
  intros Hne. destruct (search false re_tags s) as [mr|]; [|reflexivity].
  destruct (cap 1 mr) as [tagsStr|]; [|reflexivity].
  destruct (truthy tagsStr); [|reflexivity]. cbv zeta.
  destruct (0 <? length (listItems tagsStr))%nat; [|reflexivity].
  apply lookup_insert_ne. congruence.
Qed.

(** X9: a quoted field of the embedded object is read back.  When the
    first colon of the text is the one that follows the field name, and
    the name is followed by white space and a non-empty text between two
    quote characters (the two need not be the same), the field holds that
    text. *)
Theorem X9_field_read_back (key pre ws t rest : str) (q1 q2 : N) :
  key ∈ [k_title; k_description; k_slug] →
  Forall (fun c => c ≠ 58) pre →
  blank ws → isQuote q1 = true → isQuote q2 = true → t ≠ [] → quoteFree t →
  extractMetadataValues (pre ++ key ++ 58 :: ws ++ q1 :: t ++ q2 :: rest) !! key
    = Some (VStr t).
Proof.
  intros Hkey Hpre Hws Hq1 Hq2 Hne Hqf.
  set (s := pre ++ key ++ 58 :: ws ++ q1 :: t ++ q2 :: rest).
  assert (Hcolon : Forall (fun c => c ≠ 58) key).
  { rewrite !elem_of_cons, elem_of_nil in Hkey.
    destruct Hkey as [-> | [-> | [-> | []]]]; vm_compute; repeat constructor;
      discriminate. }
  assert (Hset : ∀ md, setField key s md !! key = Some (VStr t)).
  { intros md. unfold s. rewrite setField_found by assumption.
    apply lookup_insert_eq. }
  assert (Htags : key ≠ k_tags).
  { rewrite !elem_of_cons, elem_of_nil in Hkey.
    destruct Hkey as [-> | [-> | [-> | []]]]; discriminate. }
  unfold extractMetadataValues. cbv zeta. rewrite tags_other by exact Htags.
  rewrite !elem_of_cons, elem_of_nil in Hkey.
  destruct Hkey as [-> | [-> | [-> | []]]].
  - rewrite !setField_other by discriminate. apply Hset.
  - rewrite setField_other by discriminate. apply Hset.
  - apply Hset.
Qed.

Lemma X9_field_read_back_witness :
  let pre : str := "{ " in
  let rest : str := ", draft" in
  extractMetadataValues
    (pre ++ k_description ++ 58 :: of_string "  " ++ SQ :: of_string "About me"
         ++ DQ :: rest) !! k_description
    = Some (VStr "About me").
Proof.
  intros pre rest.
  apply (X9_field_read_back k_description pre (of_string "  ")
           (of_string "About me") rest SQ DQ).
  - vm_compute. right. left.
  - vm_compute. repeat constructor; discriminate.
  - vm_compute. repeat constructor.
  - reflexivity.
  - reflexivity.
  - discriminate.
  - vm_compute. repeat constructor.
Defined.

Lemma setField_occurs (key key' s : str) (md : FileMetadata) (v : value) :
  setField key s md !! key' = Some v →
  md !! key' = Some v ∨ (key' = key ∧ ∃ pre post, s = pre ++ key ++ 58 :: post).
Proof.
  unfold setField. destruct (search false (re_field key) s) as [mr|] eqn:Hs;
    [|left; assumption].
  destruct (cap 1 mr) as [t|]; [|left; assumption].
  destruct (decide (key' = key)) as [->|Hne].
  - intros _. right. split; [reflexivity|].
    apply search_from_Some in Hs as (pre & aft & -> & Hat & _).
    apply match_at_field_inv in Hat as (a & ->). exists pre, a. reflexivity.
  - rewrite lookup_insert_ne by congruence. left. assumption.
Qed.

(** X10: a field is stored only when its name, directly followed by a
    colon, occurs in the text of the embedded object. *)
Theorem X10_field_needs_name (metadataStr key : str) (v : value) :
  extractMetadataValues metadataStr !! key = Some v →
  ∃ pre post, metadataStr = pre ++ key ++ 58 :: post.
Proof.
  unfold extractMetadataValues. cbv zeta. intros H.
  assert (Hfields :
    setField k_slug metadataStr
      (setField k_description metadataStr (setField k_title metadataStr ∅)) !! key
      = Some v →
    ∃ pre post, metadataStr = pre ++ key ++ 58 :: post).
  { intros H1.
    apply setField_occurs in H1 as [H1 | [-> H1]]; [|exact H1].
    apply setField_occurs in H1 as [H1 | [-> H1]]; [|exact H1].
    apply setField_occurs in H1 as [H1 | [-> H1]]; [|exact H1].
    rewrite lookup_empty in H1. discriminate. }
  destruct (search false re_tags metadataStr) as [mr|] eqn:Hs; [|exact (Hfields H)].
  destruct (cap 1 mr) as [tagsStr|]; [|exact (Hfields H)].
  destruct (truthy tagsStr); [|exact (Hfields H)].
  destruct (0 <? length (listItems tagsStr))%nat; [|exact (Hfields H)].
  destruct (decide (key = k_tags)) as [->|Hne].
  - apply search_from_Some in Hs as (pre & aft & -> & Hat & _).
    apply match_at_inv in Hat as (st & Hm & _).
    unfold re_tags in Hm. cbn [Seqs] in Hm. rewrite m_Seq in Hm.
    apply m_Lit_inv in Hm as (a1 & Ha & _). cbn [after] in Ha. subst aft.
    exists pre, a1. reflexivity.
  - rewrite lookup_insert_ne in H by congruence. exact (Hfields H).
Qed.

Lemma X10_field_needs_name_witness :
  ∃ pre post, of_string "{slug: 'x'}" = pre ++ k_slug ++ 58 :: post.
Proof.
  apply (X10_field_needs_name (of_string "{slug: 'x'}") k_slug (VStr (of_string "x"))).
  vm_compute. reflexivity.
Defined.

(* ===================================================================== *)
(** * Further properties: plain text in the extended processor; titles of
      processed files *)
(* ===================================================================== *)

Lemma replace_all_no_match ml r f bef (aft : str) :
  (∀ pre rest, aft = pre ++ rest → match_at ml r (rev pre ++ bef) rest = None) →
  replace_all_from ml r f bef aft 0 = aft.
Proof.
  revert bef. induction aft as [|c aft IH]; intros bef Hno.
  - pose proof (Hno [] [] eq_refl) as H0. cbn [rev app] in H0.
    cbn [replace_all_from]. rewrite H0. reflexivity.
  - pose proof (Hno [] (c :: aft) eq_refl) as H0. cbn [rev app] in H0.
    cbn [replace_all_from]. rewrite H0.
    f_equal. apply IH. intros pre rest ->.
    specialize (Hno (c :: pre) rest eq_refl). cbn [rev] in Hno.
    rewrite <- app_assoc in Hno. exact Hno.
Qed.

Lemma match_at_first_char ml p r bef aft mr :
  match_at ml (Seq (Chr p) r) bef aft = Some mr →
  ∃ c aft', aft = c :: aft' ∧ p c = true.
Proof.
  intros H. apply match_at_inv in H as (st & Hm & _). rewrite m_Seq in Hm.
  apply m_Chr_inv in Hm as (c & aft' & Ha & Hc & _). eauto.
Qed.

Lemma match_at_first_lit ml (lit : str) r bef aft mr :
  match_at ml (Seq (Lit lit) r) bef aft = Some mr →
  ∃ aft', aft = lit ++ aft'.
Proof.
  intros H. apply match_at_inv in H as (st & Hm & _). rewrite m_Seq in Hm.
  apply m_Lit_inv in Hm as (aft' & Ha & _). eauto.
Qed.

(** A text without [<] and without the word [import] is left alone by the
    three removals. *)
Lemma stripMarkup_plain (s : str) :
  Forall (fun c => c ≠ 60) s → ¬ occurs "import" s → stripMarkup s = s.
Proof.
  intros Hlt Himp. unfold stripMarkup, replaceAll.
  assert (Hpair : replace_all_from false re_jsx_pair erase [] s 0 = s).
  { apply replace_all_no_match. intros pre rest ->.
    destruct (match_at false re_jsx_pair _ rest) as [mr|] eqn:Hm; [|reflexivity].
    exfalso. unfold re_jsx_pair in Hm. cbn [Seqs] in Hm.
    apply match_at_first_char in Hm as (c & aft' & -> & Hc).
    apply N.eqb_eq in Hc. subst c.
    apply Forall_app in Hlt as [_ Hlt]. apply Forall_cons in Hlt as [Hlt _].
    congruence. }
  rewrite Hpair.
  assert (Hself : replace_all_from false re_jsx_self erase [] s 0 = s).
  { apply replace_all_no_match. intros pre rest ->.
    destruct (match_at false re_jsx_self _ rest) as [mr|] eqn:Hm; [|reflexivity].
    exfalso. unfold re_jsx_self in Hm. cbn [Seqs] in Hm.
    apply match_at_first_char in Hm as (c & aft' & -> & Hc).
    apply N.eqb_eq in Hc. subst c.
    apply Forall_app in Hlt as [_ Hlt]. apply Forall_cons in Hlt as [Hlt _].
    congruence. }
  rewrite Hself.
  apply replace_all_no_match. intros pre rest ->.
  destruct (match_at false re_import _ rest) as [mr|] eqn:Hm; [|reflexivity].
  exfalso. unfold re_import in Hm. cbn [Seqs] in Hm.
  apply match_at_first_lit in Hm as (aft' & ->).
  apply Himp. exists pre, aft'. reflexivity.
Qed.

Lemma search_export_occurs (last : regex) (text : str) mr :
  search true (re_export last) text = Some mr → occurs "export" text.
Proof.
  intros Hs. apply search_from_Some in Hs as (pre & rest & -> & Hat & _).
  apply match_at_inv in Hat as (st & Hm & _).
  unfold re_export in Hm. cbn [Seqs] in Hm. rewrite m_Bol_seq in Hm.
  assert (Hm' : ∃ r k, m true (Seq (Lit "export") r)
                         (MState (rev pre ++ []) rest []) k = Some st).
  { destruct (prevChar _) as [c0|]; [|eauto].
    destruct (true && isLineTerminator c0); [eauto | discriminate]. }
  destruct Hm' as (r & k & Hm'). rewrite m_Seq in Hm'.
  apply m_Lit_inv in Hm' as (aft' & Ha & _). cbn [after] in Ha. subst rest.
  exists pre, aft'. reflexivity.
Qed.

(** X11: plain Markdown passes through the extended processor untouched.
    A text that does not begin with [---] and contains neither [<] nor the
    words [import] and [export] comes back trimmed and without metadata,
    exactly as from the plain processor. *)
Theorem X11_plain_text_passes (text : str) :
  startsWith "---" text = false →
  Forall (fun c => c ≠ 60) text →
  ¬ occurs "import" text → ¬ occurs "export" text →
  processMDXContent text = {| metadata := ∅; content := trim text |}
  ∧ processMDXContent text = processMDContent text.
Proof.
  intros Hs Hlt Himp Hexp.
  assert (Hfm : frontmatterOf text = None).
  { unfold frontmatterOf.
    destruct (search false re_frontmatter text) as [mr|] eqn:Hm; [|reflexivity].
    apply frontmatter_dashes in Hm. congruence. }
  assert (Hx : processMDXContent text = {| metadata := ∅; content := trim text |}).
  { unfold processMDXContent. rewrite Hfm.
    destruct (search true (re_export (Chr (isChar LF))) text) as [mr|] eqn:Hm.
    - exfalso. apply Hexp. eapply search_export_occurs, Hm.
    - rewrite stripMarkup_plain by assumption. reflexivity. }
  split; [exact Hx|]. rewrite Hx. unfold processMDContent. rewrite Hfm. reflexivity.
Qed.

Lemma occurs_dec_false (lit s : str) :
  forallb (fun i => negb (str_eqb (take (length lit) (drop i s)) lit))
          (seq 0 (S (length s))) = true →
  ¬ occurs lit s.
Proof.
  intros Hall (pre & post & ->). rewrite forallb_forall in Hall.
  specialize (Hall (length pre)). rewrite drop_app_length, take_app_length in Hall.
  assert (Hin : In (length pre) (seq 0 (S (length (pre ++ lit ++ post))))).
  { apply in_seq. rewrite length_app. lia. }
  apply Hall in Hin. apply negb_true_iff, str_eqb_neq in Hin. congruence.
Qed.

Lemma X11_plain_text_passes_witness :
  let text : str := of_string "# Notes" ++ [LF; LF] ++ of_string "Some text. " ++ [LF] in
  processMDXContent text = {| metadata := ∅; content := trim text |}
  ∧ processMDXContent text = processMDContent text.
Proof.
  intros text. apply (X11_plain_text_passes text).
  - reflexivity.
  - vm_compute. repeat constructor; discriminate.
  - apply occurs_dec_false. vm_compute. reflexivity.
  - apply occurs_dec_false. vm_compute. reflexivity.
Defined.

(** Without a truthy metadata title, the title is a non-empty string
    when the body does not end in white space and the path has a last
    component. *)
Lemma extractTitle_fallback (filePath : str) (md : FileMetadata) (body : str) :
  truthyValue (md !! k_title) = false →
  path.basename filePath ≠ [] → noTrailingSpace body →
  ∃ t, extractTitle filePath md body = VStr t ∧ t ≠ [].
Proof.
  intros Ht Hbase Hnts. unfold extractTitle. rewrite Ht.
  destruct (search true re_h1 body) as [mr|] eqn:Hs.
  - destruct (search_heading_nonblank _ _ Hs Hnts) as (t & -> & Hne).
    apply truthy_true in Hne as Hne'. rewrite Hne'. eauto.
  - exists (titleFromPath filePath). split; [reflexivity|].
    apply titleFromPath_nonempty, Hbase.
Qed.

Lemma extractTitle_metadata (filePath : str) (md : FileMetadata) (body : str) :
  truthyValue (md !! k_title) = true →
  md !! k_title = Some (extractTitle filePath md body).
Proof.
  intros Ht. unfold extractTitle. rewrite Ht.
  destruct (md !! k_title); [reflexivity | discriminate].
Qed.

(** Every value stored by the line parser is a value built by [mk]. *)
Lemma parseLines_values (P : value → Prop) (mk : str → value)
    (lines : list str) (md0 : FileMetadata) :
  (∀ v, P (mk v)) →
  (∀ key v, md0 !! key = Some v → P v) →
  ∀ key v, foldl (parseLine mk) md0 lines !! key = Some v → P v.
Proof.
  intros Hmk. revert md0. induction lines as [|line lines IH]; intros md0 H0.
  - exact H0.
  - cbn [foldl]. apply IH. intros key v. rewrite parseLine_lineMatch.
    destruct (lineMatch line) as [[k x]|]; [|apply H0].
    unfold setProperty. destruct (str_eqb k "__proto__"); [apply H0|].
    destruct (decide (key = k)) as [->|Hne].
    + rewrite lookup_insert_eq. intros [= <-]. apply Hmk.
    + rewrite lookup_insert_ne by congruence. apply H0.
Qed.

(** The values of the metadata of a processed file: the plain processor
    stores strings only; the extended processor stores strings and
    sequences of non-empty strings. *)
Lemma processMDContent_values (text key : str) (v : value) :
  metadata (processMDContent text) !! key = Some v → ∃ s, v = VStr s.
Proof.
  unfold processMDContent. destruct (frontmatterOf text) as [fm|]; cbn [metadata].
  - unfold parseFrontmatter.
    apply (parseLines_values (fun v => ∃ s, v = VStr s)).
    + intros x. unfold mdValue. eauto.
    + intros k x Hk. rewrite lookup_empty in Hk. discriminate.
  - rewrite lookup_empty. discriminate.
Qed.

Lemma processMDXContent_values (text key : str) (v : value) :
  metadata (processMDXContent text) !! key = Some v →
  (∃ s, v = VStr s) ∨ (∃ l, v = VArr l ∧ Forall (fun t : str => t ≠ []) l).
Proof.
  unfold processMDXContent. destruct (frontmatterOf text) as [fm|]; cbn [metadata].
  - unfold parseFrontmatter.
    apply (parseLines_values
             (fun v => (∃ s, v = VStr s)
                       ∨ (∃ l, v = VArr l ∧ Forall (fun t : str => t ≠ []) l))).
    + intros x. unfold mdxValue. destruct (_ && _); [right | left; eauto].
      eexists. split; [reflexivity|].
      eapply Forall_impl; [apply listItems_shape|]. intros t [Ht _]. exact Ht.
    + intros k x Hk. rewrite lookup_empty in Hk. discriminate.
  - destruct (search true (re_export (Chr (isChar LF))) text) as [mr|];
      [|cbn [metadata]; rewrite lookup_empty; discriminate].
    destruct (cap 1 mr) as [metadataStr|];
      [|cbn [metadata]; rewrite lookup_empty; discriminate].
    destruct (truthy metadataStr);
      [|cbn [metadata]; rewrite lookup_empty; discriminate].
    cbn [metadata]. intros Hv.
    apply extractMetadataValues_lookup in Hv
      as [(_ & t & -> & _) | (_ & l & -> & _ & Hl)]; [left; eauto | right].
    eexists. split; [reflexivity|].
    eapply Forall_impl; [exact Hl|]. intros t [Ht _]. exact Ht.
Qed.

Lemma join_items_nil (l : list str) :
  Forall (fun t : str => t ≠ []) l → join [COMMA] l = [] → l = [].
Proof.
  intros Hl Hj. destruct l as [|t l]; [reflexivity|]. exfalso.
  apply Forall_cons in Hl as [Ht _]. destruct l as [|t' l].
  - exact (Ht Hj).
  - change (join [COMMA] (t :: t' :: l)) with (t ++ [COMMA] ++ join [COMMA] (t' :: l)) in Hj.
    apply app_eq_nil in Hj as [Hj _]. exact (Ht Hj).
Qed.

(** X12: the title of a processed file.  For a path with a last
    component, the title computed for a file of the plain processor is
    always a non-empty string.  For a file of the extended processor the
    text of the title is empty in exactly one case: the block header sets
    [title] to a bracketed list without items, which is stored as an empty
    sequence and returned as the title. *)
Theorem X12_processed_title_text (filePath text : str) :
  path.basename filePath ≠ [] →
  (∃ t, extractTitle filePath (metadata (processMDContent text))
                              (content (processMDContent text)) = VStr t
        ∧ t ≠ [])
  ∧ (valueToString
       (extractTitle filePath (metadata (processMDXContent text))
                              (content (processMDXContent text))) = []
     ↔ metadata (processMDXContent text) !! k_title = Some (VArr [])).
Proof.
  intros Hbase. destruct (processed_body_trimmed text) as [H1 H2]. split.
  - destruct (truthyValue (metadata (processMDContent text) !! k_title)) eqn:Ht.
    + pose proof (extractTitle_metadata filePath _
                    (content (processMDContent text)) Ht) as Hv.
      destruct (processMDContent_values _ _ _ Hv) as [s Hs].
      exists s. split; [exact Hs|]. rewrite Hv, Hs in Ht. cbn in Ht.
      apply truthy_true, Ht.
    + apply extractTitle_fallback; assumption.
  - destruct (truthyValue (metadata (processMDXContent text) !! k_title)) eqn:Ht.
    + pose proof (extractTitle_metadata filePath _
                    (content (processMDXContent text)) Ht) as Hv.
      rewrite Hv. split.
      * intros Hnil.
        destruct (processMDXContent_values _ _ _ Hv) as [[s Hs] | (l & Hl & Hitems)].
        -- exfalso. rewrite Hv, Hs in Ht. cbn in Ht. rewrite Hs in Hnil.
           cbn in Hnil. rewrite Hnil in Ht. discriminate.
        -- rewrite Hl in Hnil |- *. cbn [valueToString] in Hnil.
           rewrite (join_items_nil l Hitems Hnil). reflexivity.
      * intros [= ->]. reflexivity.
    + destruct (extractTitle_fallback filePath _ _ Ht Hbase H2) as (t & Hv & Hne).
      rewrite Hv. cbn [valueToString]. split; [intros; contradiction|].
      intros Harr. rewrite Harr in Ht. discriminate.
Qed.

Lemma X12_processed_title_text_witness :
  let filePath : str := "/site/content/notes.mdx" in
  let text : str := of_string "---" ++ [LF] ++ of_string "title: []" ++ [LF]
                    ++ of_string "---" ++ [LF] ++ of_string "#  " ++ [LF] in
  (∃ t, extractTitle filePath (metadata (processMDContent text))
                              (content (processMDContent text)) = VStr t
        ∧ t ≠ [])
  ∧ (valueToString
       (extractTitle filePath (metadata (processMDXContent text))
                              (content (processMDXContent text))) = []
     ↔ metadata (processMDXContent text) !! k_title = Some (VArr [])).
Proof.
  intros filePath text. apply (X12_processed_title_text filePath text).
  vm_compute. discriminate.
Defined.

(* ===================================================================== *)
(** * Further properties: URL paths *)
(* ===================================================================== *)

Lemma ext_decomposition (p pre ext ext0 : str) :
  isMdExt ext → isMdExt ext0 →
  p ++ DOT :: ext = pre ++ DOT :: ext0 → pre = p ∧ ext0 = ext.
Proof.
  intros He He0 Heq.
  destruct He as [-> | ->]; destruct He0 as [-> | ->].
  - apply app_inj_2 in Heq as [-> _]; [split; reflexivity | reflexivity].
  - exfalso. revert Heq.
    apply (last_char_neq _ _ _ _ 120 100); [reflexivity | reflexivity | discriminate].
  - exfalso. revert Heq.
    apply (last_char_neq _ _ _ _ 100 120); [reflexivity | reflexivity | discriminate].
  - apply app_inj_2 in Heq as [-> _]; [split; reflexivity | reflexivity].
Qed.

Lemma locale_decomposition (p pre loc loc0 ext ext0 : str) :
  isLocale loc → isLocale loc0 → isMdExt ext → isMdExt ext0 →
  p ++ DOT :: loc ++ DOT :: ext = pre ++ DOT :: loc0 ++ DOT :: ext0 →
  pre = p ∧ ext0 = ext.
Proof.
  intros Hl Hl0 He He0 Heq.
  assert (Heq' : (p ++ DOT :: loc) ++ DOT :: ext = (pre ++ DOT :: loc0) ++ DOT :: ext0).
  { rewrite <- !app_assoc. exact Heq. }
  apply ext_decomposition in Heq' as [Hp ->]; [|assumption..].
  split; [|reflexivity].
  destruct Hl as [-> | ->]; destruct Hl0 as [-> | ->];
    apply app_inj_2 in Hp as [-> _]; reflexivity.
Qed.

(** The rewrite of a path that ends in a locale and an extension. *)
Lemma rewriteExt_locale (p loc ext : str) :
  isLocale loc → isMdExt ext →
  rewriteExt (p ++ DOT :: loc ++ DOT :: ext) = p ++ of_string ".md".
Proof.
  intros Hl He. unfold rewriteExt.
  destruct (replace_locale_cases (p ++ DOT :: loc ++ DOT :: ext))
    as [(pre & loc0 & ext0 & Hl0 & He0 & Hs & ->) | [Hno _]].
  - apply locale_decomposition in Hs as [-> ->]; [|assumption..].
    destruct (replace_md_ext_cases (p ++ DOT :: ext))
      as [(pre2 & ext2 & He2 & Ht & ->) | [Hno _]].
    + apply ext_decomposition in Ht as [-> _]; [reflexivity | assumption..].
    + exfalso. exact (Hno p ext He eq_refl).
  - exfalso. exact (Hno p loc ext Hl He eq_refl).
Qed.

(** The rewrite does not depend on which of the two extensions is used. *)
Lemma rewriteExt_ext (p ext : str) :
  isMdExt ext → rewriteExt (p ++ DOT :: ext) = rewriteExt (p ++ of_string ".md").
Proof.
  intros He.
  assert (Hmd : isMdExt (of_string "md")) by (right; reflexivity).
  assert (Hplain : ∀ e : str, isMdExt e →
            (∀ pre loc ext0, isLocale loc → isMdExt ext0 →
               p ++ DOT :: e ≠ pre ++ DOT :: loc ++ DOT :: ext0) →
            rewriteExt (p ++ DOT :: e) = p ++ of_string ".md").
  { intros e Hext Hno. unfold rewriteExt.
    destruct (replace_locale_cases (p ++ DOT :: e))
      as [(pre & loc0 & ext0 & Hl0 & He0 & Hs & _) | [_ ->]].
    - exfalso. exact (Hno pre loc0 ext0 Hl0 He0 Hs).
    - destruct (replace_md_ext_cases (p ++ DOT :: e))
        as [(pre2 & ext2 & He2 & Ht & ->) | [Hno2 _]].
      + apply ext_decomposition in Ht as [-> _]; [reflexivity | assumption..].
      + exfalso. exact (Hno2 p e Hext eq_refl). }
  destruct (replace_locale_cases (p ++ DOT :: ext))
    as [(pre & loc0 & ext0 & Hl0 & He0 & Hs & _) | [Hno _]].
  - assert (Hs' : p ++ DOT :: ext = (pre ++ DOT :: loc0) ++ DOT :: ext0)
      by (rewrite <- app_assoc; exact Hs).
    apply ext_decomposition in Hs' as [Hp _]; [|assumption..].
    rewrite <- Hp, <- !app_assoc.
    change ((DOT :: loc0) ++ DOT :: ext) with (DOT :: loc0 ++ DOT :: ext).
    change ((DOT :: loc0) ++ of_string ".md")
      with (DOT :: loc0 ++ DOT :: of_string "md").
    rewrite !rewriteExt_locale by assumption. reflexivity.
  - rewrite (Hplain ext He) by exact Hno.
    change (p ++ of_string ".md") with (p ++ DOT :: of_string "md").
    rewrite (Hplain _ Hmd); [reflexivity|].
    intros pre loc0 ext0 Hl0 He0 Hs.
    assert (Hs' : p ++ DOT :: of_string "md" = (pre ++ DOT :: loc0) ++ DOT :: ext0)
      by (rewrite <- app_assoc; exact Hs).
    apply ext_decomposition in Hs' as [Hp _]; [|assumption..].
    apply (Hno pre loc0 ext Hl0 He). rewrite <- Hp, <- app_assoc. reflexivity.
Qed.

(** X13: files that differ only in their locale or in the choice between
    the two extensions are given the same URL path, so that for one
    directory the file written last replaces the others. *)
Theorem X13_variants_share_url (p loc loc' ext ext' : str) :
  isLocale loc → isLocale loc' → isMdExt ext → isMdExt ext' →
  urlPathOf (p ++ DOT :: loc ++ DOT :: ext) = indexAlias (p ++ of_string ".md")
  ∧ urlPathOf (p ++ DOT :: loc ++ DOT :: ext)
    = urlPathOf (p ++ DOT :: loc' ++ DOT :: ext')
  ∧ urlPathOf (p ++ DOT :: ext) = urlPathOf (p ++ DOT :: ext').
Proof.
  intros Hl Hl' He He'. unfold urlPathOf.
  rewrite !rewriteExt_locale by assumption.
  rewrite (rewriteExt_ext p ext He), (rewriteExt_ext p ext' He').
  repeat split; reflexivity.
Qed.

Lemma X13_variants_share_url_witness :
  let p : str := "blog/post" in
  urlPathOf (p ++ DOT :: of_string "en" ++ DOT :: of_string "mdx")
    = indexAlias (p ++ of_string ".md")
  ∧ urlPathOf (p ++ DOT :: of_string "en" ++ DOT :: of_string "mdx")
    = urlPathOf (p ++ DOT :: of_string "ru" ++ DOT :: of_string "md")
  ∧ urlPathOf (p ++ DOT :: of_string "mdx") = urlPathOf (p ++ DOT :: of_string "md").
Proof.
  intros p.
  apply (X13_variants_share_url p (of_string "en") (of_string "ru")
           (of_string "mdx") (of_string "md")).
  - left. reflexivity.
  - right. reflexivity.
  - left. reflexivity.
  - right. reflexivity.
Defined.

(** ** The URL path ends in [.md] *)

Lemma endsWith_inv (lit s : str) : endsWith lit s = true → ∃ pre, s = pre ++ lit.
Proof.
  unfold endsWith. intros H. apply andb_true_iff in H as [H _].
  apply str_eqb_eq in H. exists (take (length s - length lit) s).
  transitivity (take (length s - length lit) s ++ drop (length s - length lit) s);
    [symmetry; apply take_drop | f_equal; exact H].
Qed.

Lemma rewriteExt_md (file : str) :
  endsWith ".md" file || endsWith ".mdx" file = true →
  ∃ pre, rewriteExt file = pre ++ of_string ".md".
Proof.
  intros H.
  assert (Hfile : ∃ p ext, isMdExt ext ∧ file = p ++ DOT :: ext).
  { apply orb_true_iff in H as [H | H]; apply endsWith_inv in H as (p & ->).
    - exists p, (of_string "md"). split; [right|]; reflexivity.
    - exists p, (of_string "mdx"). split; [left|]; reflexivity. }
  destruct Hfile as (p & ext & He & ->). unfold rewriteExt.
  assert (Hstep : ∃ q ext0, isMdExt ext0 ∧
            replace1 false re_locale (fun mr => DOT :: capOr 2 mr) (p ++ DOT :: ext)
              = q ++ DOT :: ext0).
  { destruct (replace_locale_cases (p ++ DOT :: ext))
      as [(pre & loc0 & ext0 & _ & He0 & _ & ->) | [_ ->]]; eauto. }
  destruct Hstep as (q & ext0 & He0 & ->).
  destruct (replace_md_ext_cases (q ++ DOT :: ext0))
    as [(pre2 & ext2 & _ & _ & ->) | [Hno _]]; [eauto|].
  exfalso. exact (Hno q ext0 He0 eq_refl).
Qed.

Lemma split_app sep (a b : str) :
  split sep (a ++ sep :: b) = split sep a ++ split sep b.
Proof.
  induction a as [|c a IH].
  - simpl. rewrite N.eqb_refl. reflexivity.
  - cbn [app split]. destruct (c =? sep); [rewrite IH; reflexivity|].
    rewrite IH. pose proof (split_head_nonempty sep a) as Hne.
    destruct (split sep a) as [|h t]; [contradiction | reflexivity].
Qed.

Lemma normalizeSegments_last allow (segs stack : list str) (n : str) :
  properSegment n →
  path.normalizeSegments allow (segs ++ [n]) stack
    = path.normalizeSegments allow segs stack ++ [n].
Proof.
  intros (Hne & _ & Hdot & Hdots). revert stack.
  induction segs as [|sg segs IH]; intros stack.
  - cbn [app path.normalizeSegments].
    apply str_eqb_neq in Hne, Hdot, Hdots. rewrite Hne, Hdot, Hdots. reflexivity.
  - cbn [app path.normalizeSegments].
    destruct (str_eqb sg [] || str_eqb sg [DOT]); [apply IH|].
    destruct (str_eqb sg [DOT; DOT]); [|apply IH].
    destruct stack as [|top rest]; [apply IH|].
    destruct (str_eqb top [DOT; DOT]); apply IH.
Qed.

(** Joining a directory and a proper name gives a path that ends in the name. *)
Lemma path_join_last (dir n : str) :
  properSegment n → ∃ Q, path.join [dir; n] = Q ++ n.
Proof.
  intros Hn. pose proof Hn as (Hne & Hfree & _ & _).
  assert (Hnorm : ∀ P : str, (P = [] ∨ ∃ P', P = P' ++ [SLASH]) →
            ∃ Q, path.normalize (P ++ n) = Q ++ n).
  { intros P HP.
    assert (Hsplit : ∃ segs, split SLASH (P ++ n) = segs ++ [n]).
    { destruct HP as [-> | (P' & ->)].
      - exists []. apply split_free, Hfree.
      - rewrite <- app_assoc. cbn [app]. rewrite split_app, (split_free _ _ Hfree).
        eauto. }
    destruct Hsplit as (segs & Hsplit).
    assert (Hq : ∃ Q, path.normalizeString (P ++ n) (negb (path.isAbsolute (P ++ n)))
                      = Q ++ n).
    { unfold path.normalizeString. rewrite Hsplit, normalizeSegments_last by exact Hn.
      destruct (path.normalizeSegments _ segs []) as [|x xs] eqn:Hx.
      - exists []. reflexivity.
      - rewrite join_snoc by discriminate. rewrite app_assoc. eauto. }
    destruct Hq as (Q & Hq).
    assert (Htrail : optb path.isSep (head (rev (P ++ n))) = false).
    { rewrite rev_app_distr. destruct n as [|c n _] using rev_ind; [congruence|].
      rewrite rev_app_distr. cbn. apply isSep_false.
      apply Forall_app in Hfree as [_ Hc]. rewrite Forall_singleton in Hc. exact Hc. }
    unfold path.normalize. destruct (P ++ n) as [|c0 t] eqn:HPn.
    { apply app_eq_nil in HPn as [_ ->]. congruence. }
    rewrite Htrail, Hq.
    destruct (Q ++ n) as [|y ys] eqn:HQ.
    { apply app_eq_nil in HQ as [_ ->]. congruence. }
    rewrite <- HQ. destruct (path.isAbsolute (c0 :: t)).
    - exists (SLASH :: Q). reflexivity.
    - exists Q. reflexivity. }
  unfold path.join. destruct dir as [|d0 dir].
  - rewrite filter_cons_False by (intros H; apply H; reflexivity).
    rewrite filter_cons_True by exact Hne. cbn [filter list_filter join].
    apply (Hnorm []). left. reflexivity.
  - rewrite filter_cons_True by discriminate.
    rewrite filter_cons_True by exact Hne. cbn [filter list_filter].
    replace (join [SLASH] [d0 :: dir; n]) with (((d0 :: dir) ++ [SLASH]) ++ n)
      by (cbn [join]; rewrite <- app_assoc; reflexivity).
    apply Hnorm. right. eauto.
Qed.

Lemma lastComponent_free (p : str) :
  Forall (fun c => c ≠ SLASH) (path.lastComponent p).
Proof.
  unfold path.lastComponent.
  pose proof (takeWhile_Forall path.notSep (dropWhile path.isSep (rev p))) as H.
  apply Forall_forall. intros c Hc. rewrite Forall_forall in H.
  assert (Hin : c ∈ takeWhile path.notSep (dropWhile path.isSep (rev p))).
  { apply list_elem_of_In. apply in_rev. apply list_elem_of_In. exact Hc. }
  specialize (H c Hin). intros ->. discriminate H.
Qed.

Lemma indexAlias_md (r pre : str) :
  r = pre ++ of_string ".md" → ∃ pre', indexAlias r = pre' ++ of_string ".md".
Proof.
  intros Hr. unfold indexAlias.
  destruct (str_eqb (path.basename_ext r ".md") "index"
            || str_eqb (path.basename_ext r ".md") "_index"); [|eauto].
  destruct (truthy (path.basename (path.dirname r))) eqn:Ht; [|eauto].
  apply truthy_true in Ht.
  assert (Hn : properSegment (path.basename (path.dirname r) ++ of_string ".md")).
  { pose proof (lastComponent_free (path.dirname r)) as Hfree.
    unfold path.basename in *. set (d := path.lastComponent (path.dirname r)) in *.
    split; [|split; [|split]].
    - destruct d; discriminate.
    - apply Forall_app. split; [exact Hfree | repeat constructor; discriminate].
    - intros H. apply (f_equal length) in H. rewrite length_app in H.
      simpl in H. lia.
    - intros H. apply (f_equal length) in H. rewrite length_app in H.
      simpl in H. lia. }
  destruct (path_join_last (path.dirname r) _ Hn) as (Q & ->).
  exists (Q ++ path.basename (path.dirname r)). rewrite <- app_assoc. reflexivity.
Qed.

(** X14: the URL path of a Markdown file ends in [.md].  For every path
    that ends in [.md] or [.mdx], whatever its directories, the computed
    URL path ends in [.md] and never in [.mdx]. *)
Theorem X14_url_ends_in_md (file : str) :
  endsWith ".md" file || endsWith ".mdx" file = true →
  endsWith ".md" (urlPathOf file) = true
  ∧ endsWith ".mdx" (urlPathOf file) = false.
Proof.
  intros H. apply rewriteExt_md in H as (pre & Hr).
  unfold urlPathOf. destruct (indexAlias_md _ _ Hr) as (pre' & ->).
  split; [apply endsWith_app|].
  destruct (endsWith ".mdx" (pre' ++ of_string ".md")) eqn:He; [|reflexivity].
  exfalso. apply endsWith_inv in He as (q & He). revert He.
  apply (last_char_neq _ _ _ _ 100 120); [reflexivity | reflexivity | discriminate].
Qed.

Lemma X14_url_ends_in_md_witness :
  endsWith ".md" (urlPathOf "docs//guide/../index.ru.mdx") = true
  ∧ endsWith ".mdx" (urlPathOf "docs//guide/../index.ru.mdx") = false.
Proof. apply (X14_url_ends_in_md "docs//guide/../index.ru.mdx"). reflexivity. Defined.

(** ** The URL path stays in the directory of the file *)

Lemma takeWhile_stop_any p (a b : str) c :
  p c = false → takeWhile p (a ++ c :: b) = takeWhile p a.
Proof.
  intros Hc. induction a as [|d a IH]; simpl; [rewrite Hc; reflexivity|].
  destruct (p d); [rewrite IH|]; reflexivity.
Qed.

(** X15: the URL path keeps the directory of the file.  For a file in a
    directory, the URL path lies in the same directory and yields the same
    category; only the file name changes. *)
Theorem X15_url_keeps_directory (ds : list str) (d name : str) :
  Forall properSegment ds → properSegment d →
  name ≠ [] → Forall (fun c => c ≠ SLASH) name →
  let D := join [SLASH] (ds ++ [d]) in
  path.dirname (urlPathOf (D ++ SLASH :: name)) = D
  ∧ categoryOf (urlPathOf (D ++ SLASH :: name)) = categoryOf (D ++ SLASH :: name)
  ∧ ∃ name', urlPathOf (D ++ SLASH :: name) = D ++ SLASH :: name'
             ∧ name' ≠ [] ∧ Forall (fun c => c ≠ SLASH) name'.
Proof.
  intros Hds Hd Hne Hfree D.
  destruct (rewriteExt_dir_name D name Hne Hfree) as (name1 & Hr & Hne1 & Hfree1).
  assert (Hurl : ∃ name', urlPathOf (D ++ SLASH :: name) = D ++ SLASH :: name'
                          ∧ name' ≠ [] ∧ Forall (fun c => c ≠ SLASH) name').
  { unfold urlPathOf. rewrite Hr.
    pose proof (indexAlias_in_dir ds d name1 Hds Hd Hne1 Hfree1) as Hal.
    cbv zeta in Hal. fold D in Hal. rewrite Hal.
    destruct (str_eqb _ _ || str_eqb _ _).
    - exists (d ++ of_string ".md"). split; [reflexivity|].
      destruct (md_name_proper d Hd) as (H1 & H2 & _). split; assumption.
    - exists name1. split; [reflexivity|]. split; assumption. }
  destruct Hurl as (name' & Hu & Hne' & Hfree').
  assert (Hhead : ∃ c D', D = c :: D' ∧ c ≠ SLASH).
  { apply join_head.
    - destruct ds; discriminate.
    - apply Forall_app. split; [exact Hds | constructor; [exact Hd | constructor]]. }
  destruct Hhead as (c & D' & HD & Hc).
  split; [|split].
  - rewrite Hu. exact (dirname_dir_name D name' c D' HD Hc Hne' Hfree').
  - rewrite Hu, !categoryOf_first_segment.
    rewrite !(takeWhile_stop_any path.notSep D) by reflexivity. reflexivity.
  - exists name'. split; [exact Hu|]. split; assumption.
Qed.

Lemma X15_url_keeps_directory_witness :
  let ds : list str := [of_string "posts"] in
  let d : str := "my-article" in
  let name : str := "index.en.mdx" in
  let D := join [SLASH] (ds ++ [d]) in
  path.dirname (urlPathOf (D ++ SLASH :: name)) = D
  ∧ categoryOf (urlPathOf (D ++ SLASH :: name)) = categoryOf (D ++ SLASH :: name)
  ∧ ∃ name', urlPathOf (D ++ SLASH :: name) = D ++ SLASH :: name'
             ∧ name' ≠ [] ∧ Forall (fun c => c ≠ SLASH) name'.
Proof.
  intros ds d name.
  apply (X15_url_keeps_directory ds d name).
  - repeat constructor; try discriminate.
  - repeat constructor; try discriminate.
  - discriminate.
  - vm_compute. repeat constructor; discriminate.
Defined.

(* ===================================================================== *)
(** * Further properties: the effects on the file system *)
(* ===================================================================== *)

Lemma mbind_Ok {A B} (c : IO A) (f : A → IO B) (w : world) (b : B) (w' : world) :
  (c ≫= f) w = (Ok b, w') → ∃ a w1, c w = (Ok a, w1) ∧ f a w1 = (Ok b, w').
Proof.
  unfold mbind, IO_MBind, io_bind.
  destruct (c w) as [[a|e] w1]; [eauto | discriminate].
Qed.

Lemma mret_Ok {A} (a b : A) (w w' : world) :
  (mret a : IO A) w = (Ok b, w') → b = a ∧ w' = w.
Proof. intros [= -> ->]. split; reflexivity. Qed.

Lemma readFileSync_Ok (p text : str) (w w' : world) :
  readFileSync p w = (Ok text, w') →
  files w !! p = Some text
  ∧ files w' = files w ∧ dirs w' = dirs w ∧ cwd w' = cwd w.
Proof.
  unfold readFileSync. destruct (bool_decide (p ∈ dirs w)); [discriminate|].
  destruct (files w !! p) as [t|]; [|discriminate].
  intros [= -> <-]. repeat split; reflexivity.
Qed.

Lemma writeFileSync_Ok (p data : str) (u : unit) (w w' : world) :
  writeFileSync p data w = (Ok u, w') →
  files w' = <[p := data]> (files w)
  ∧ dirs w' = dirs w ∧ cwd w' = cwd w ∧ path.dirname p ∈ dirs w.
Proof.
  unfold writeFileSync.
  destruct (bool_decide (path.dirname p ∈ dirs w)) eqn:Hd; [|discriminate].
  destruct (bool_decide (p ∈ dirs w)); [discriminate|].
  intros [= _ <-]. apply bool_decide_eq_true in Hd.
  repeat split; try reflexivity. exact Hd.
Qed.

Lemma ensureDir_Ok (ex : bool) (p : str) (u : unit) (w w' : world) :
  (if negb ex then mkdirSync p else mret tt) w = (Ok u, w') →
  files w' = files w ∧ dirs w ⊆ dirs w' ∧ cwd w' = cwd w.
Proof.
  destruct ex; cbn [negb].
  - intros [= _ <-]. repeat split; reflexivity.
  - unfold mkdirSync. destruct (forallb _ _); [|discriminate].
    intros [= _ <-]. cbn. repeat split; try reflexivity.
    apply union_subseteq_l.
Qed.

Lemma processFile_Ok (file filePath : str) (r : ProcessedContent) (w w' : world) :
  (if str_eqb (path.extname file) ".mdx" then processMDXFile filePath
   else processMDFile filePath) w = (Ok r, w') →
  ∃ text, files w !! filePath = Some text
    ∧ r = (if str_eqb (path.extname file) ".mdx" then processMDXContent text
           else processMDContent text)
    ∧ files w' = files w ∧ dirs w' = dirs w ∧ cwd w' = cwd w.
Proof.
  destruct (str_eqb (path.extname file) ".mdx"); intros H;
    [unfold processMDXFile in H | unfold processMDFile in H];
    apply mbind_Ok in H as (text & w1 & Hr & Hret);
    apply readFileSync_Ok in Hr as (Hf & H1 & H2 & H3);
    apply mret_Ok in Hret as [-> ->]; exists text; repeat split; assumption.
Qed.

(** One iteration of the loop of [discoverFiles] that does not throw. *)
Lemma discoverOne_Ok (cd od file : str) (e : ProcessedFile) (w w' : world) :
  discoverOne cd od file w = (Ok e, w') →
  ∃ text,
    files w !! path.join [cd; file] = Some text
    ∧ let r := if str_eqb (path.extname file) ".mdx" then processMDXContent text
               else processMDContent text in
      let out := path.join [od; of_string "md"; urlPathOf file] in
      files w' = <[out := content r]> (files w)
      ∧ dirs w ⊆ dirs w' ∧ path.dirname out ∈ dirs w' ∧ cwd w' = cwd w
      ∧ e = {| relativePath := file;
               url := of_string "/md/" ++ urlPathOf file;
               title := extractTitle (path.join [cd; file]) (metadata r) (content r);
               description := extractDescription (metadata r) (content r);
               category := categoryOf file |}.
Proof.
  unfold discoverOne. intros H.
  apply mbind_Ok in H as (r & w1 & Hread & H).
  apply processFile_Ok in Hread as (text & Htext & -> & Hf1 & Hd1 & Hc1).
  apply mbind_Ok in H as (ex & w2 & Hex & H).
  unfold existsSync in Hex. injection Hex as <- <-.
  apply mbind_Ok in H as (u & w3 & Hmk & H).
  apply ensureDir_Ok in Hmk as (Hf3 & Hd3 & Hc3). cbn in Hf3, Hd3, Hc3.
  apply mbind_Ok in H as (u' & w4 & Hwr & H).
  apply writeFileSync_Ok in Hwr as (Hf4 & Hd4 & Hc4 & Hin).
  apply mret_Ok in H as [-> ->].
  exists text. split; [exact Htext|]. cbv zeta.
  split; [rewrite Hf4, Hf3, Hf1; reflexivity|].
  split; [rewrite Hd4, <- Hd1; exact Hd3|].
  split; [rewrite Hd4; exact Hin|].
  split; [rewrite Hc4, Hc3, Hc1; reflexivity | reflexivity].
Qed.

(** X16: an iteration of the discovery loop that succeeds has read the
    source file, and the only change to the files is the output file
    [md/<URL path>] under the output directory, which holds the trimmed
    body of the source and whose directory exists afterwards. *)
Theorem X16_one_file_written (cd od file : str) (e : ProcessedFile) (w : world) :
  (discoverOne cd od file w).1 = Ok e →
  let w' := (discoverOne cd od file w).2 in
  let out := path.join [od; of_string "md"; urlPathOf file] in
  ∃ text body,
    files w !! path.join [cd; file] = Some text
    ∧ body = content (if str_eqb (path.extname file) ".mdx"
                      then processMDXContent text else processMDContent text)
    ∧ trim body = body
    ∧ files w' = <[out := body]> (files w)
    ∧ path.dirname out ∈ dirs w'
    ∧ entryOf file e.
Proof.
  intros H. destruct (discoverOne cd od file w) as [res w'] eqn:Hrun.
  cbn [fst snd] in *. subst res.
  apply discoverOne_Ok in Hrun as (text & Htext & Hrun). cbv zeta in Hrun.
  destruct Hrun as (Hf & _ & Hd & _ & He).
  exists text. eexists. split; [exact Htext|]. split; [reflexivity|].
  split; [|split; [exact Hf|split; [exact Hd|]]].
  - destruct (body_trim_fixed text) as [H1 H2].
    destruct (str_eqb (path.extname file) ".mdx"); assumption.
  - rewrite He. repeat split.
Qed.

Lemma X16_one_file_written_witness :
  let w := World {[ of_string "/site/content/blog/post.en.mdx"
                      := of_string "# Hi" ++ [LF; LF] ++ of_string "Body" ++ [LF] ]}
                 (list_to_set [of_string "/site"; of_string "/site/content";
                               of_string "/site/content/blog";
                               of_string "/site/public"; of_string "/site/public/md"])
                 "/site" [] in
  let cd : str := "/site/content" in
  let od : str := "/site/public" in
  let file : str := "blog/post.en.mdx" in
  let e := {| relativePath := file; url := "/md/blog/post.md"; title := VStr "Hi";
              description := None; category := "blog" |} in
  let w' := (discoverOne cd od file w).2 in
  let out := path.join [od; of_string "md"; urlPathOf file] in
  ∃ text body,
    files w !! path.join [cd; file] = Some text
    ∧ body = content (if str_eqb (path.extname file) ".mdx"
                      then processMDXContent text else processMDContent text)
    ∧ trim body = body
    ∧ files w' = <[out := body]> (files w)
    ∧ path.dirname out ∈ dirs w'
    ∧ entryOf file e.
Proof.
  intros w cd od file e. apply (X16_one_file_written cd od file e w).
  vm_compute. reflexivity.
Defined.

Lemma discoverLoop_Ok (cd od : str) (fl : list str) (acc entries : list ProcessedFile)
    (w w' : world) :
  discoverLoop cd od fl acc w = (Ok entries, w') →
  ∃ new, entries = acc ++ new ∧ Forall2 entryOf fl new.
Proof.
  revert acc w. induction fl as [|file rest IH]; intros acc w H.
  - apply mret_Ok in H as [-> _]. exists []. rewrite app_nil_r.
    split; [reflexivity | constructor].
  - cbn [discoverLoop] in H. apply mbind_Ok in H as (e & w1 & Hone & H).
    apply IH in H as (new & -> & Hnew).
    apply discoverOne_Ok in Hone as (text & _ & Hone). cbv zeta in Hone.
    destruct Hone as (_ & _ & _ & _ & He).
    exists (e :: new). rewrite <- app_assoc. split; [reflexivity|].
    constructor; [|exact Hnew]. rewrite He. repeat split.
Qed.

(** X17: the manifest follows the enumeration.  When [discoverFiles]
    returns, the manifest has one entry for each enumerated file, in the
    order of the enumeration, with the relative path, the URL and the
    category that the path of the file determines. *)
Theorem X17_manifest_follows_enumeration
    (glob : world → str → list str) (cd od : str)
    (entries : list ProcessedFile) (w : world) :
  (discoverFiles glob cd od w).1 = Ok entries →
  Forall2 entryOf (glob w cd) entries
  ∧ relativePath <$> entries = glob w cd.
Proof.
  intros H. destruct (discoverFiles glob cd od w) as [res w'] eqn:Hrun.
  cbn [fst] in H. subst res. unfold discoverFiles in Hrun.
  apply discoverLoop_Ok in Hrun as (new & -> & Hnew). cbn [app].
  split; [exact Hnew|].
  induction Hnew as [|file e fl new (Hp & _) _ IH]; [reflexivity|].
  cbn [fmap list_fmap]. rewrite Hp. f_equal. exact IH.
Qed.

Lemma X17_manifest_follows_enumeration_witness :
  let w := World {[ of_string "/site/content/blog/post.en.mdx"
                      := of_string "# Hi" ++ [LF; LF] ++ of_string "Body" ++ [LF];
                    of_string "/site/content/README.md" := of_string "Hello" ]}
                 (list_to_set [of_string "/site"; of_string "/site/content";
                               of_string "/site/content/blog";
                               of_string "/site/public"; of_string "/site/public/md"])
                 "/site" [] in
  let glob : world → str → list str :=
    fun _ _ => [of_string "blog/post.en.mdx"; of_string "README.md"] in
  let cd : str := "/site/content" in
  let od : str := "/site/public" in
  let entries :=
    [ {| relativePath := "blog/post.en.mdx"; url := "/md/blog/post.md";
         title := VStr "Hi"; description := None; category := "blog" |};
      {| relativePath := "README.md"; url := "/md/README.md";
         title := VStr "README"; description := None; category := "README.md" |} ] in
  Forall2 entryOf (glob w cd) entries
  ∧ relativePath <$> entries = glob w cd.
Proof.
  intros w glob cd od entries.
  apply (X17_manifest_follows_enumeration glob cd od entries w).
  vm_compute. reflexivity.
Defined.

(** ** Nothing is ever removed *)

Lemma worldGrows_refl (w : world) : worldGrows w w.
Proof. repeat split; reflexivity. Qed.

Lemma worldGrows_trans (w1 w2 w3 : world) :
  worldGrows w1 w2 → worldGrows w2 w3 → worldGrows w1 w3.
Proof.
  intros (H1 & H2 & H3) (H4 & H5 & H6). split; [|split].
  - etransitivity; eassumption.
  - etransitivity; eassumption.
  - congruence.
Qed.

Lemma worldGrows_record (ev : event) (w : world) : worldGrows w (record ev w).
Proof. repeat split; reflexivity. Qed.

Lemma keeps_ret {A} (a : A) : keeps (mret a : IO A).
Proof. intros w. apply worldGrows_refl. Qed.

Lemma keeps_throw {A} (msg : str) : keeps (throw msg : IO A).
Proof. intros w. apply worldGrows_refl. Qed.

Lemma keeps_bind {A B} (c : IO A) (f : A → IO B) :
  keeps c → (∀ a, keeps (f a)) → keeps (c ≫= f).
Proof.
  intros Hc Hf w. unfold mbind, IO_MBind, io_bind. specialize (Hc w).
  destruct (c w) as [[a|e] w1]; cbn [snd] in *; [|exact Hc].
  eapply worldGrows_trans; [exact Hc | apply Hf].
Qed.

Lemma keeps_existsSync (p : str) : keeps (existsSync p).
Proof. intros w. apply worldGrows_record. Qed.

Lemma keeps_readFileSync (p : str) : keeps (readFileSync p).
Proof.
  intros w. unfold readFileSync.
  destruct (bool_decide (p ∈ dirs w)); [apply worldGrows_record|].
  destruct (files w !! p); apply worldGrows_record.
Qed.

Lemma keeps_mkdirSync (p : str) : keeps (mkdirSync p).
Proof.
  intros w. unfold mkdirSync. destruct (forallb _ _); [|apply worldGrows_record].
  cbn. split; [apply union_subseteq_l | split; reflexivity].
Qed.

Lemma keeps_writeFileSync (p data : str) : keeps (writeFileSync p data).
Proof.
  intros w. unfold writeFileSync.
  destruct (bool_decide (path.dirname p ∈ dirs w) && negb (bool_decide (p ∈ dirs w)));
    [|apply worldGrows_record].
  cbn. split; [reflexivity | split; [apply dom_insert_subseteq | reflexivity]].
Qed.

Lemma keeps_ensureDir (ex : bool) (p : str) :
  keeps (if negb ex then mkdirSync p else mret tt).
Proof. destruct ex; [apply keeps_ret | apply keeps_mkdirSync]. Qed.

Lemma keeps_discoverOne (cd od file : str) : keeps (discoverOne cd od file).
Proof.
  unfold discoverOne. apply keeps_bind.
  - destruct (str_eqb _ _); [unfold processMDXFile | unfold processMDFile];
      (apply keeps_bind; [apply keeps_readFileSync | intros; apply keeps_ret]).
  - intros r. apply keeps_bind; [apply keeps_existsSync|].
    intros ex. apply keeps_bind; [apply keeps_ensureDir|].
    intros _. apply keeps_bind; [apply keeps_writeFileSync|].
    intros _. apply keeps_ret.
Qed.

Lemma keeps_discoverLoop (cd od : str) (fl : list str) (acc : list ProcessedFile) :
  keeps (discoverLoop cd od fl acc).
Proof.
  revert acc. induction fl as [|file rest IH]; intros acc.
  - apply keeps_ret.
  - cbn [discoverLoop]. apply keeps_bind; [apply keeps_discoverOne|].
    intros e. apply IH.
Qed.

Lemma keeps_generateLLMsTxt
    (sortByTitle : list ProcessedFile → result (list ProcessedFile))
    (toUpperCase : str → str)
    (fs : list ProcessedFile) (od : str) (pn pd bu : option str) :
  keeps (generateLLMsTxt sortByTitle toUpperCase fs od pn pd bu).
Proof.
  unfold generateLLMsTxt. cbv zeta.
  destruct (renderCategories _ _ _ _ _); [apply keeps_writeFileSync | apply keeps_throw].
Qed.

(** X18: a run never removes anything.  Whether [generateLlmsFiles]
    returns or throws, every directory and every file that existed before
    the run exists after it, and the working directory is unchanged. *)
Theorem X18_nothing_removed
    (glob : world → str → list str)
    (sortByTitle : list ProcessedFile → result (list ProcessedFile))
    (toUpperCase : str → str)
    (options : GenerateOptions) (w : world) :
  worldGrows w (generateLlmsFiles glob sortByTitle toUpperCase options w).2.
Proof.
  unfold generateLlmsFiles. cbv zeta.
  revert w. 
  assert (Hk : ∀ cd od : str, keeps (
     e ← existsSync cd;
     if negb e then throw (of_string "Content directory not found: " ++ cd)
     else
       e1 ← existsSync od;
       _ ← (if negb e1 then mkdirSync od else mret tt);
       e2 ← existsSync (path.join [od; of_string "md"]);
       _ ← (if negb e2 then mkdirSync (path.join [od; of_string "md"]) else mret tt);
       fs ← discoverFiles glob cd od;
       generateLLMsTxt sortByTitle toUpperCase fs od (projectName options)
         (projectDescription options) (baseUrl options))).
  { intros cd od. apply keeps_bind; [apply keeps_existsSync|].
    intros e. destruct (negb e); [apply keeps_throw|].
    apply keeps_bind; [apply keeps_existsSync|].
    intros e1. apply keeps_bind; [apply keeps_ensureDir|].
    intros _. apply keeps_bind; [apply keeps_existsSync|].
    intros e2. apply keeps_bind; [apply keeps_ensureDir|].
    intros _. apply keeps_bind.
    - intros w. unfold discoverFiles.
      eapply worldGrows_trans; [apply worldGrows_record | apply keeps_discoverLoop].
    - intros fs. apply keeps_generateLLMsTxt. }
  intros w. apply Hk.
Qed.

(** ** The index file *)




(* ===================================================================== *)
(** * Further properties: reading a well-formed block header *)
(* ===================================================================== *)

(** A lazy repetition stops at the first count at which the rest of the
    pattern succeeds. *)
Lemma rep_class_lazy_first p cs (bef aft : str) (k : mstate → option mstate) (n : nat) :
  (n ≤ length (takeWhile p aft))%nat →
  (∀ j, (j < n)%nat → k (MState (rev (take j aft) ++ bef) (drop j aft) cs) = None) →
  is_Some (k (MState (rev (take n aft) ++ bef) (drop n aft) cs)) →
  rep_class p 0 None false cs bef aft k
    = k (MState (rev (take n aft) ++ bef) (drop n aft) cs).
Proof.
  revert bef aft. induction n as [|n IH]; intros bef aft Hn Hfail [r Hr].
  - rewrite take_0, drop_0 in Hr |- *. cbn [rev app] in Hr |- *.
    destruct aft; cbn [rep_class]; rewrite Hr; reflexivity.
  - destruct aft as [|c aft]; [simpl in Hn; lia|].
    cbn [takeWhile] in Hn. destruct (p c) eqn:Hc; [|simpl in Hn; lia].
    cbn [length] in Hn.
    pose proof (Hfail 0%nat ltac:(lia)) as H0.
    rewrite take_0, drop_0 in H0. cbn [rev app] in H0.
    cbn [rep_class]. rewrite H0, Hc. cbn [fmap option_fmap option_map].
    cbn [firstn skipn rev]. rewrite <- app_assoc. cbn [app].
    rewrite <- (IH (c :: bef) aft); [reflexivity | lia | |].
    + intros j Hj. specialize (Hfail (S j) ltac:(lia)).
      cbn [firstn skipn rev] in Hfail. rewrite <- app_assoc in Hfail. exact Hfail.
    + exists r. cbn [firstn skipn rev] in Hr. rewrite <- app_assoc in Hr. exact Hr.
Qed.

(** A greedy repetition finds a match whenever some count allows one. *)
Lemma rep_class_greedy_some p cs (bef aft : str) (k : mstate → option mstate) (j : nat) :
  (j ≤ length (takeWhile p aft))%nat →
  is_Some (k (MState (rev (take j aft) ++ bef) (drop j aft) cs)) →
  is_Some (rep_class p 0 None true cs bef aft k).
Proof.
  revert bef j. induction aft as [|c aft IH]; intros bef j Hj Hk.
  - simpl in Hj. assert (j = 0)%nat as -> by lia. exact Hk.
  - cbn [rep_class]. cbn [takeWhile] in Hj. destruct (p c) eqn:Hc.
    + cbn [fmap option_fmap option_map]. destruct j as [|j].
      * destruct (rep_class p 0 None true cs (c :: bef) aft k); [eexists; reflexivity|].
        rewrite take_0, drop_0 in Hk. exact Hk.
      * cbn [length] in Hj. cbn [firstn skipn rev] in Hk. rewrite <- app_assoc in Hk.
        destruct (IH (c :: bef) j ltac:(lia) Hk) as [r ->]. eexists. reflexivity.
    + simpl in Hj. assert (j = 0)%nat as -> by lia.
      rewrite take_0, drop_0 in Hk. exact Hk.
Qed.

(** A greedy repetition gives everything back when no positive count
    allows a match. *)
Lemma rep_class_greedy_none p cs (bef aft : str) (k : mstate → option mstate) :
  (∀ j, (j ≤ length (takeWhile p aft))%nat →
        k (MState (rev (take j aft) ++ bef) (drop j aft) cs) = None) →
  rep_class p 0 None true cs bef aft k = None.
Proof.
  revert bef. induction aft as [|c aft IH]; intros bef Hfail.
  - exact (Hfail 0%nat ltac:(simpl; lia)).
  - pose proof (Hfail 0%nat ltac:(lia)) as H0.
    rewrite take_0, drop_0 in H0. cbn [rev app] in H0.
    cbn [rep_class]. cbn [takeWhile] in Hfail. destruct (p c) eqn:Hc; [|exact H0].
    cbn [fmap option_fmap option_map]. rewrite IH; [exact H0|].
    intros j Hj. specialize (Hfail (S j) ltac:(simpl; lia)).
    cbn [firstn skipn rev] in Hfail. rewrite <- app_assoc in Hfail. exact Hfail.
Qed.

Lemma rep_class_greedy_zero p cs (bef aft : str) (k : mstate → option mstate) :
  (∀ j, (0 < j ≤ length (takeWhile p aft))%nat →
        k (MState (rev (take j aft) ++ bef) (drop j aft) cs) = None) →
  rep_class p 0 None true cs bef aft k = k (MState bef aft cs).
Proof.
  intros Hfail. destruct aft as [|c aft]; [reflexivity|].
  cbn [rep_class]. cbn [takeWhile] in Hfail. destruct (p c) eqn:Hc; [|reflexivity].
  cbn [fmap option_fmap option_map]. rewrite rep_class_greedy_none; [reflexivity|].
  intros j Hj. specialize (Hfail (S j) ltac:(simpl; lia)).
  cbn [firstn skipn rev] in Hfail. rewrite <- app_assoc in Hfail. exact Hfail.
Qed.

(** The closing line of the header: a line feed, [---], white space up to
    a last line feed. *)
Lemma m_frontmatter_close (bef body : str) cs :
  ∃ st ws post,
    m false (Seq (Chr (isChar LF)) (Seq (Lit "---") (Seq (Star isSpace) (Chr (isChar LF)))))
      (MState bef (LF :: of_string "---" ++ LF :: body) cs) Some = Some st
    ∧ after st = post ∧ caps st = cs
    ∧ LF :: body = ws ++ LF :: post ∧ blank ws.
Proof.
  rewrite m_Seq, m_Chr_true by reflexivity. rewrite m_Seq, m_Lit_exact, m_Seq.
  unfold Star. rewrite m_Rep. cbn [caps before after].
  set (b := rev (of_string "---") ++ LF :: bef).
  set (k := fun st1 : mstate => m false (Chr (isChar LF)) st1 Some).
  assert (Hsome : is_Some (rep_class isSpace 0 None true cs b (LF :: body) k)).
  { apply (rep_class_greedy_some _ _ _ _ _ 0%nat); [lia|].
    rewrite take_0, drop_0. cbn [rev app]. unfold k. rewrite m_Chr_true by reflexivity.
    eexists. reflexivity. }
  destruct Hsome as [st Hst]. exists st.
  pose proof Hst as Hinv.
  apply rep_class_inv in Hinv as (n & _ & _ & Hlen & Hall & Hk); [|discriminate].
  unfold k in Hk. apply m_Chr_inv in Hk as (c & post & Hd & Hc & Hk).
  cbn [after before caps] in Hd, Hk. apply N.eqb_eq in Hc. subst c.
  injection Hk as <-. exists (take n (LF :: body)), post.
  split; [exact Hst|]. split; [reflexivity|]. split; [reflexivity|].
  split; [|exact Hall]. rewrite <- Hd. symmetry. apply take_drop.
Qed.

Lemma frontmatter_close_inv (bef aft : str) cs st :
  m false (Seq (Chr (isChar LF)) (Seq (Lit "---") (Seq (Star isSpace) (Chr (isChar LF)))))
    (MState bef aft cs) Some = Some st →
  ∃ a, aft = LF :: of_string "---" ++ a.
Proof.
  intros H. rewrite m_Seq in H. apply m_Chr_inv in H as (c & a1 & Ha & Hc & H).
  cbn [after before caps] in Ha, H. apply N.eqb_eq in Hc. subst c aft.
  rewrite m_Seq in H. apply m_Lit_inv in H as (a & Ha & _).
  cbn [after] in Ha. subst a1. exists a. reflexivity.
Qed.

(** No closing line can start inside a header text that holds no line
    starting with [---]. *)
Lemma no_early_close (fm tail : str) (j : nat) (a : str) :
  ¬ occurs (LF :: of_string "---") fm →
  (j < length fm)%nat →
  drop j (fm ++ LF :: tail) ≠ LF :: of_string "---" ++ a.
Proof.
  intros Hno Hj Heq. unfold occurs in Hno.
  change (of_string "---") with [45; 45; 45] in Hno, Heq.
  rewrite drop_app_le in Heq by lia.
  pose proof (take_drop j fm) as Hfm.
  destruct (drop j fm) as [|c0 r1] eqn:Hd.
  { apply (f_equal length) in Hd. rewrite length_drop in Hd. simpl in Hd. lia. }
  injection Heq as -> Heq.
  destruct r1 as [|x [|y [|z r]]]; try discriminate.
  injection Heq as -> -> -> _.
  apply Hno. exists (take j fm), r. symmetry. exact Hfm.
Qed.

Lemma match_at_frontmatter (fm body : str) :
  fm ≠ [] → noLeadingSpace fm → ¬ occurs (LF :: of_string "---") fm →
  ∃ mr ws post,
    match_at false re_frontmatter []
      (of_string "---" ++ LF :: fm ++ LF :: of_string "---" ++ LF :: body) = Some mr
    ∧ cap 1 mr = Some fm ∧ m_pre mr = [] ∧ m_post mr = post
    ∧ LF :: body = ws ++ LF :: post ∧ blank ws.
Proof.
  intros Hne Hlead Hno.
  set (T := LF :: of_string "---" ++ LF :: body).
  set (TAIL := Seq (Chr (isChar LF))
                 (Seq (Lit "---") (Seq (Star isSpace) (Chr (isChar LF))))).
  set (b0 := LF :: rev (of_string "---") ++ []).
  (* the captured text and what follows it *)
  assert (Hgroup : ∃ st ws post,
    m false (Seq (Grp 1 (StarLazy anyChar)) TAIL) (MState b0 (fm ++ T) []) Some = Some st
    ∧ after st = post ∧ caps st = [(1%nat, fm)]
    ∧ LF :: body = ws ++ LF :: post ∧ blank ws).
  { rewrite m_Seq, m_Grp. unfold StarLazy. rewrite m_Rep. cbn [caps before after].
    destruct (m_frontmatter_close (rev fm ++ b0) body [(1%nat, fm)])
      as (st & ws & post & Hst & Hafter & Hcaps & Hbody & Hws).
    exists st, ws, post.
    assert (Hcap : take (length (fm ++ T) - length T) (fm ++ T) = fm).
    { rewrite length_app, Nat.add_sub. apply take_app_length. }
    rewrite (rep_class_lazy_first _ _ _ _ _ (length fm)).
    - rewrite drop_app_length, take_app_length. cbn [before after caps].
      rewrite Hcap. fold TAIL in Hst. unfold T. rewrite Hst. auto.
    - rewrite takeWhile_all; [rewrite length_app; lia|].
      apply Forall_forall. reflexivity.
    - intros j Hj. cbn [before after caps].
      destruct (m false TAIL _ Some) as [st'|] eqn:Hm; [|reflexivity].
      exfalso. apply frontmatter_close_inv in Hm as (a & Ha).
      exact (no_early_close fm _ j a Hno Hj Ha).
    - rewrite drop_app_length, take_app_length. cbn [before after caps].
      rewrite Hcap. fold TAIL in Hst. unfold T. rewrite Hst. eexists. reflexivity. }
  destruct Hgroup as (st & ws & post & Hst & Hafter & Hcaps & Hbody & Hws).
  destruct fm as [|c0 fm0] eqn:Hfm; [congruence|]. rewrite <- Hfm in *.
  assert (Hc0 : isSpace c0 = false) by (apply Hlead; rewrite Hfm; reflexivity).
  assert (Hm : m false re_frontmatter
                 (MState [] (of_string "---" ++ LF :: fm ++ T) []) Some = Some st).
  { unfold re_frontmatter. cbn [Seqs]. rewrite m_Bol_seq.
    unfold prevChar. cbn [before head].
    rewrite m_Seq, m_Lit_exact, m_Seq. unfold Star at 1. rewrite m_Rep.
    cbn [caps before after].
    rewrite rep_class_greedy_zero.
    - rewrite m_Seq, m_Chr_true by reflexivity. fold TAIL. fold b0. exact Hst.
    - intros j Hj.
      assert (Hcount : length (takeWhile isSpace (LF :: fm ++ T)) = 1%nat).
      { rewrite Hfm. cbn. rewrite Hc0. reflexivity. }
      assert (j = 1)%nat as -> by lia.
      cbn [firstn skipn]. rewrite take_0, drop_0, m_Seq, Hfm. cbn [app].
      apply m_Chr_false. apply N.eqb_neq. intros <-. discriminate Hc0. }
  unfold match_at. fold T. rewrite Hm.
  eexists. exists ws, post. split; [reflexivity|].
  unfold cap. cbn [m_caps m_pre m_post rev]. rewrite Hcaps.
  repeat split; assumption.
Qed.

Lemma frontmatterOf_block (fm body : str) :
  fm ≠ [] → noLeadingSpace fm → ¬ occurs (LF :: of_string "---") fm →
  frontmatterOf (of_string "---" ++ LF :: fm ++ LF :: of_string "---" ++ LF :: body)
    = Some fm.
Proof.
  intros Hne Hlead Hno.
  destruct (match_at_frontmatter fm body Hne Hlead Hno)
    as (mr & ws & post & Hat & Hcap & _).
  unfold frontmatterOf, search. rewrite (search_from_here _ _ _ _ _ Hat), Hcap.
  apply truthy_true in Hne. rewrite Hne. reflexivity.
Qed.

(** X20: a well-formed block header is read and removed.  For a text
    made of the line [---], a header text, the line [---] and a body, where
    the header text is not empty, does not start with white space and
    holds no line that starts with [---], the header text is what the
    parsers read line by line, and the body of the plain processor is the
    trimmed body of the text. *)
Theorem X20_header_read_and_removed (fm body : str) :
  fm ≠ [] → noLeadingSpace fm → ¬ occurs (LF :: of_string "---") fm →
  let text := of_string "---" ++ LF :: fm ++ LF :: of_string "---" ++ LF :: body in
  frontmatterOf text = Some fm
  ∧ processMDContent text
      = {| metadata := parseFrontmatter mdValue fm; content := trim body |}
  ∧ metadata (processMDXContent text) = parseFrontmatter mdxValue fm.
Proof.
  intros Hne Hlead Hno text.
  destruct (match_at_frontmatter fm body Hne Hlead Hno)
    as (mr & ws & post & Hat & Hcap & Hpre & Hpost & Hbody & Hws).
  fold text in Hat.
  assert (Hs : search false re_frontmatter text = Some mr)
    by (apply search_from_here, Hat).
  assert (Hfm : frontmatterOf text = Some fm).
  { unfold frontmatterOf. rewrite Hs, Hcap.
    apply truthy_true in Hne. rewrite Hne. reflexivity. }
  split; [exact Hfm|]. split.
  - unfold processMDContent. rewrite Hfm. f_equal.
    unfold replace1. rewrite Hs, Hpre, Hpost. unfold erase. cbn [app].
    transitivity (trim (LF :: body)).
    + rewrite Hbody, trim_drop_blank by exact Hws.
      symmetry. apply (trim_drop_blank [LF]). repeat constructor.
    + apply (trim_drop_blank [LF]). repeat constructor.
  - unfold processMDXContent. rewrite Hfm. reflexivity.
Qed.

Lemma X20_header_read_and_removed_witness :
  let fm : str := of_string "title: Hello" ++ [LF] ++ of_string "date: 2024-01-05" in
  let body : str := [LF] ++ of_string "# Hi" ++ [LF] ++ of_string "--- not a header" in
  let text := of_string "---" ++ LF :: fm ++ LF :: of_string "---" ++ LF :: body in
  frontmatterOf text = Some fm
  ∧ processMDContent text
      = {| metadata := parseFrontmatter mdValue fm; content := trim body |}
  ∧ metadata (processMDXContent text) = parseFrontmatter mdxValue fm.
Proof.
  intros fm body. apply (X20_header_read_and_removed fm body).
  - discriminate.
  - intros c Hc. vm_compute in Hc. injection Hc as <-. reflexivity.
  - apply occurs_dec_false. vm_compute. reflexivity.
Defined.

(* ===================================================================== *)
(** * Further properties: the tags of the embedded object; the sections
      of the index *)
(* ===================================================================== *)

(** A group made of a non-empty run of a class, closed by a character
    outside the class. *)
Lemma m_group_until (p q : N → bool) (bef t : str) (c : N) (rest : str) cs :
  t ≠ [] → Forall (fun d => p d = true) t → p c = false → q c = true →
  m false (Seq (Grp 1 (Plus p)) (Chr q)) (MState bef (t ++ c :: rest) cs) Some
    = Some (MState (c :: rev t ++ bef) rest ((1%nat, t) :: cs)).
Proof.
  intros Hne Hall Hc Hq. rewrite m_Seq, m_Grp. unfold Plus at 1. rewrite m_Rep.
  cbn [caps before after].
  assert (Hcount : rep_count p None (t ++ c :: rest) = length t).
  { unfold rep_count. rewrite takeWhile_app_stop; [reflexivity | exact Hall | exact Hc]. }
  assert (Hcap : take (length (t ++ c :: rest) - length (c :: rest)) (t ++ c :: rest) = t).
  { rewrite length_app, Nat.add_sub. apply take_app_length. }
  rewrite rep_class_greedy_max; rewrite Hcount.
  - rewrite drop_app_length, take_app_length. cbn [before after caps].
    rewrite Hcap, m_Chr_true by exact Hq. reflexivity.
  - destruct t; [congruence | simpl; lia].
  - rewrite drop_app_length, take_app_length. cbn [before after caps].
    rewrite Hcap, m_Chr_true by exact Hq. eexists. reflexivity.
Qed.

Lemma match_at_tags (bef ws inner rest : str) :
  blank ws → inner ≠ [] → Forall (fun c => c ≠ RBRACKET) inner →
  ∃ mr, match_at false re_tags bef
          (of_string "tags:" ++ ws ++ LBRACKET :: inner ++ RBRACKET :: rest) = Some mr
        ∧ cap 1 mr = Some inner.
Proof.
  intros Hws Hne Hfree. unfold match_at, re_tags. cbn [Seqs].
  rewrite m_Seq, m_Lit_exact, m_Seq. unfold Star at 1. rewrite m_Rep.
  cbn [caps before after].
  assert (Hcount : rep_count isSpace None (ws ++ LBRACKET :: inner ++ RBRACKET :: rest)
                   = length ws).
  { unfold rep_count. rewrite takeWhile_app_stop; [reflexivity | exact Hws | reflexivity]. }
  assert (Hcont : ∀ b,
    m false (Seq (Chr (isChar LBRACKET))
               (Seq (Grp 1 (Plus (isNot (isChar RBRACKET)))) (Chr (isChar RBRACKET))))
      (MState b (LBRACKET :: inner ++ RBRACKET :: rest) []) Some
    = Some (MState (RBRACKET :: rev inner ++ LBRACKET :: b) rest [(1%nat, inner)])).
  { intros b. rewrite m_Seq, m_Chr_true by reflexivity.
    apply m_group_until; [exact Hne | | reflexivity | reflexivity].
    eapply Forall_impl; [exact Hfree|]. intros c Hc.
    apply isNot_true. apply N.eqb_neq. congruence. }
  rewrite rep_class_greedy_max; rewrite Hcount.
  - rewrite drop_app_length, take_app_length, Hcont. eexists. split; reflexivity.
  - lia.
  - rewrite drop_app_length, take_app_length, Hcont. eexists. reflexivity.
Qed.

Lemma join_Forall (P : N → Prop) (sep : N) (ps : list str) :
  P sep → Forall (Forall P) ps → Forall P (join [sep] ps).
Proof.
  intros Hsep Hps. induction Hps as [|p ps Hp _ IH]; [constructor|].
  destruct ps as [|p' ps]; [exact Hp|].
  change (join [sep] (p :: p' :: ps)) with (p ++ sep :: join [sep] (p' :: ps)).
  apply Forall_app. split; [exact Hp|]. constructor; [exact Hsep | exact IH].
Qed.

(** X22: a list of tags in the embedded object is read back.  When the
    first colon of the text is the one of [tags:], followed by white space
    and a bracketed list without [\]] inside, the field [tags] holds the
    bare items of the list. *)
Theorem X22_tags_read_back (pre ws rest : str) (ps items : list str) :
  Forall (fun c => c ≠ 58) pre → blank ws →
  Forall2 padded ps items → Forall cleanItem items → items ≠ [] →
  Forall (Forall (fun c => c ≠ RBRACKET)) ps →
  extractMetadataValues
    (pre ++ of_string "tags:" ++ ws ++ LBRACKET :: join [COMMA] ps ++ RBRACKET :: rest)
    !! k_tags = Some (VArr items).
Proof.
  intros Hpre Hws Hpad Hclean Hitems Hfree.
  set (inner := join [COMMA] ps).
  pose proof (listItems_padded ps items Hpad Hclean) as Hlist. fold inner in Hlist.
  assert (Hinner : inner ≠ []).
  { intros Hnil. rewrite Hnil in Hlist. apply Hitems. rewrite <- Hlist. reflexivity. }
  assert (Hfree' : Forall (fun c => c ≠ RBRACKET) inner)
    by (apply join_Forall; [discriminate | exact Hfree]).
  destruct (match_at_tags (rev pre ++ []) ws inner rest Hws Hinner Hfree')
    as (mr & Hat & Hcap).
  assert (Hs : search false re_tags
                 (pre ++ of_string "tags:" ++ ws ++ LBRACKET :: inner ++ RBRACKET :: rest)
               = Some mr).
  { unfold search. apply search_from_found; [|exact Hat].
    intros p1 p2 -> Hp2.
    destruct (match_at false re_tags (rev p1 ++ []) _) as [mr'|] eqn:Hm; [|reflexivity].
    exfalso. unfold re_tags in Hm. cbn [Seqs] in Hm.
    apply match_at_first_lit in Hm as (a & Ha).
    apply Forall_app in Hpre as [_ Hpre].
    apply (colon_position p2 (of_string "tags")
             (ws ++ LBRACKET :: inner ++ RBRACKET :: rest) a Hp2 Hpre);
      [repeat constructor; discriminate | exact Ha]. }
  unfold extractMetadataValues. cbv zeta. rewrite Hs, Hcap.
  apply truthy_true in Hinner. rewrite Hinner, Hlist.
  destruct items as [|t items]; [congruence|]. cbn [length Nat.ltb Nat.leb].
  apply lookup_insert_eq.
Qed.

Lemma X22_tags_read_back_witness :
  let pre : str := "{ " in
  let ps : list str := [[SQ] ++ of_string "go" ++ [SQ]; of_string " rust"] in
  let items : list str := [of_string "go"; of_string "rust"] in
  extractMetadataValues
    (pre ++ of_string "tags:" ++ of_string " " ++ LBRACKET :: join [COMMA] ps
         ++ RBRACKET :: of_string " }")
    !! k_tags = Some (VArr items).
Proof.
  intros pre ps items.
  apply (X22_tags_read_back pre (of_string " ") (of_string " }") ps items).
  - vm_compute. repeat constructor; discriminate.
  - vm_compute. repeat constructor.
  - repeat constructor.
    + exists [], [SQ], [SQ], []. vm_compute. repeat constructor.
    + exists (of_string " "), [], [], []. vm_compute. repeat constructor.
  - repeat constructor; try discriminate;
      try (intros c Hc; vm_compute in Hc; injection Hc as <-; reflexivity).
  - discriminate.
  - vm_compute. repeat constructor; discriminate.
Defined.

(** ** The sections of the index *)






(* ===================================================================== *)
(** * Further properties: reading the embedded object *)
(* ===================================================================== *)












(* ===================================================================== *)
(** * Further properties: a bracketed list on a header line *)
(* ===================================================================== *)

Lemma isWord_isDot c : isWord c = true → isDot c = true.
Proof. intros H. apply notSpace_isDot, isWord_notSpace, H. Qed.

(** X8: a bracketed list on a header line is read back item by item.
    The items are written between commas, each wrapped in any number of
    quote characters and surrounded by white space, without line
    terminator.  The list parser returns the bare items in order; the
    extended processor stores them as a sequence under the key of the
    line, and for a header made of that one line the metadata of the file
    is that one entry. *)
Theorem X8_list_read_back (md : FileMetadata) (k ws body : str)
    (ps items : list str) :
  Forall2 padded ps items → Forall cleanItem items →
  Forall (Forall (fun c => isDot c = true)) ps →
  k ≠ [] → Forall (fun c => isWord c = true) k → k ≠ of_string "__proto__" →
  blank ws → Forall (fun c => isDot c = true) ws →
  let line := k ++ 58 :: ws ++ LBRACKET :: join [COMMA] ps ++ [RBRACKET] in
  listItems (join [COMMA] ps) = items
  ∧ parseLine mdxValue md line = <[k := VArr items]> md
  ∧ metadata (processMDXContent
                (of_string "---" ++ LF :: line ++ LF :: of_string "---" ++ LF :: body))
    = {[ k := VArr items ]}.
Proof.
  intros Hpad Hclean Hdots Hk Hword Hproto Hws Hwsdot line.
  set (inner := join [COMMA] ps) in *.
  assert (Hinner : Forall (fun c => isDot c = true) inner)
    by (apply join_Forall; [reflexivity | exact Hdots]).
  set (v := LBRACKET :: inner ++ [RBRACKET]).
  assert (Hv : Forall (fun c => isDot c = true) v).
  { unfold v. constructor; [reflexivity|]. apply Forall_app.
    split; [exact Hinner | repeat constructor]. }
  assert (Hline : ∀ md0, parseLine mdxValue md0 line = <[k := VArr items]> md0).
  { intros md0. rewrite parseLine_lineMatch.
    change line with (k ++ 58 :: ws ++ v).
    rewrite (lineMatch_complete k ws v); try assumption.
    - unfold setProperty. apply str_eqb_neq in Hproto. rewrite Hproto.
      unfold v, inner. rewrite (mdxValue_bracket ps items Hpad Hclean). reflexivity.
    - discriminate.
    - intros c [= <-]. reflexivity. }
  split; [apply listItems_padded; assumption|]. split; [apply Hline|].
  assert (Hdot : Forall (fun c => isDot c = true) line).
  { unfold line. apply Forall_app. split.
    - eapply Forall_impl; [exact Hword|]. intros c. apply isWord_isDot.
    - constructor; [reflexivity|]. apply Forall_app. split; [exact Hwsdot | exact Hv]. }
  assert (HnoLF : Forall (fun c => c ≠ LF) line).
  { eapply Forall_impl; [exact Hdot|]. intros c Hc ->. discriminate Hc. }
  unfold processMDXContent.
  rewrite (frontmatterOf_block line body).
  - cbn [metadata]. unfold parseFrontmatter. rewrite (split_free LF line HnoLF).
    cbn [foldl]. rewrite Hline. apply insert_empty.
  - unfold line. destruct k; [congruence | discriminate].
  - intros c Hc. unfold line in Hc. destruct k as [|c0 k0]; [congruence|].
    injection Hc as <-. apply Forall_cons in Hword as [Hc0 _].
    apply isWord_notSpace, Hc0.
  - intros (pre & post & Heq). rewrite Heq in HnoLF.
    apply Forall_app in HnoLF as [_ HnoLF]. apply Forall_cons in HnoLF as [H _].
    congruence.
Qed.

Lemma X8_list_read_back_witness :
  let md : FileMetadata := ∅ in
  let k : str := "tags" in
  let ws : str := " " in
  let body : str := "Body" in
  let ps : list str := [[DQ] ++ of_string "go" ++ [DQ];
                        of_string " " ++ [SQ] ++ of_string "web dev" ++ [SQ];
                        of_string "  rust "] in
  let items : list str := [of_string "go"; of_string "web dev"; of_string "rust"] in
  let line := k ++ 58 :: ws ++ LBRACKET :: join [COMMA] ps ++ [RBRACKET] in
  listItems (join [COMMA] ps) = items
  ∧ parseLine mdxValue md line = <[k := VArr items]> md
  ∧ metadata (processMDXContent
                (of_string "---" ++ LF :: line ++ LF :: of_string "---" ++ LF :: body))
    = {[ k := VArr items ]}.
Proof.
  intros md k ws body ps items.
  apply (X8_list_read_back md k ws body ps items).
  - repeat constructor.
    + exists [], [DQ], [DQ], []. vm_compute. repeat constructor.
    + exists (of_string " "), [SQ], [SQ], []. vm_compute. repeat constructor.
    + exists (of_string "  "), [], [], (of_string " "). vm_compute. repeat constructor.
  - repeat constructor; try discriminate;
      try (intros c Hc; vm_compute in Hc; injection Hc as <-; reflexivity).
  - vm_compute. repeat constructor.
  - discriminate.
  - vm_compute. repeat constructor.
  - discriminate.
  - vm_compute. repeat constructor.
  - vm_compute. repeat constructor.
Defined.
